(** * mactop: telemetry ingestion pipeline, shallow embedding and properties

    The development embeds the Go sources of the repository:
    - [GetCoreTopology] (package app): chip topology resolver;
    - [GetCPUPercentages] (package main): per-core utilisation estimator;
    - [parseCPUMetrics], [parseGPUMetrics], [parseNetDiskMetrics]: metric
      extractors over a decoded property list;
    - the split function installed on the [bufio.Scanner] in
      [collectMetrics]: stream framer;
    - the buffered channels of [main] and the sends of [collectMetrics];
    - the inline per-die averaging loop of [runHeadless].

    Go's [int] is the 64-bit two's complement integer (the program targets
    darwin/arm64); [float64] is IEEE 754 binary64, embedded as Rocq's
    primitive floats. *)

From Stdlib Require Import ZArith List Bool Lia.
From Stdlib Require Import Strings.String Strings.Byte.
From Stdlib Require Import Floats.
From stdpp Require Import gmap strings list.

Local Open Scope Z_scope.

#[local] Set Warnings "-register-all".

(* ===================================================================== *)
(** * Part I: the embedding *)
(* ===================================================================== *)

(** ** Outcomes of a Go call

    A call returns, panics (a run-time fault that unwinds the goroutine and,
    unrecovered, kills the process) or leaves through [os.Exit], which is
    what [log.Fatalf] does after printing. *)

Inductive Outcome (A : Type) : Type :=
  | Return (a : A)
  | Panic (msg : string)
  | Exit (code : Z) (msg : string).
Arguments Return {A} a.
Arguments Panic {A} msg.
Arguments Exit {A} code msg.

Definition outcome_bind {A B : Type} (f : A -> Outcome B) (m : Outcome A) : Outcome B :=
  match m with
  | Return a => f a
  | Panic msg => Panic msg
  | Exit code msg => Exit code msg
  end.

#[global] Instance Outcome_ret : MRet Outcome := fun A a => Return a.
#[global] Instance Outcome_bind : MBind Outcome := fun A B f m => outcome_bind f m.

(** ** Machine integers *)

Definition int_min : Z := - 2 ^ 63.
Definition int_max : Z := 2 ^ 63 - 1.

(** Two's complement wrap-around of a 64-bit signed result. *)
Definition wrap (z : Z) : Z := (z + 2 ^ 63) mod 2 ^ 64 - 2 ^ 63.

Definition int_add (a b : Z) : Z := wrap (a + b).
Definition int_mul (a b : Z) : Z := wrap (a * b).
(** Go's [/] on integers truncates toward zero. *)
Definition int_div (a b : Z) : Z := wrap (Z.quot a b).

(** ** Slices of int

    [make([]int, 0, n)] panics in the runtime's [makeslice] when the
    capacity is negative or when [n] elements of 8 bytes exceed the
    allocator's limit, [maxAlloc = 2^48] bytes on darwin/arm64. *)

Definition maxAlloc : Z := 2 ^ 48.
Definition maxSliceCap : Z := maxAlloc / 8.

Definition make_ints (n : Z) : Outcome (list Z) :=
  if (n <? 0) || (maxSliceCap <? n) then Panic "makeslice: cap out of range"
  else Return [].

(** [for i := lo; i < hi; i++ { xs = append(xs, i) }] *)
Definition append_range (xs : list Z) (lo hi : Z) : list Z :=
  xs ++ seqZ lo (hi - lo).

(** ** Byte strings: [bytes.Index] and [strings.Contains] *)

Definition bytes (s : string) : list byte := list_byte_of_string s.

Fixpoint HasPrefix (s prefix : list byte) : bool :=
  match prefix, s with
  | [], _ => true
  | p :: prefix', c :: s' => Byte.eqb c p && HasPrefix s' prefix'
  | _ :: _, [] => false
  end.

Fixpoint index_from (s sep : list byte) : option nat :=
  if HasPrefix s sep then Some 0%nat
  else match s with
       | [] => None
       | _ :: s' => S <$> index_from s' sep
       end.

(** [bytes.Index(s, sep)]: position of the first instance of [sep] in [s],
    or -1. *)
Definition Index (s sep : list byte) : Z :=
  match index_from s sep with
  | Some i => Z.of_nat i
  | None => -1
  end.

(** [strings.Contains(s, substr)] is [strings.Index(s, substr) >= 0]; a Go
    string is its byte sequence. *)
Definition Contains (s substr : string) : bool :=
  0 <=? Index (bytes s) (bytes substr).

(** ** Core topology resolver (package app) *)

Record SystemInfo : Type := {
  Name : string;
  CoreCount : Z;
  ECoreCount : Z;
  PCoreCount : Z;
  GPUCoreCount : Z;
  IsUltra : bool;
  IsInterleaved : bool
}.

Record CoreTopology : Type := {
  PCoreIndices : list Z;
  ECoreIndices : list Z;
  Description : string
}.

Definition GetCoreTopology (sysInfo : SystemInfo) : Outcome CoreTopology :=
  let totalCores := int_add (PCoreCount sysInfo) (ECoreCount sysInfo) in
  let name := Name sysInfo in
  if Contains name "M3 Ultra" && (PCoreCount sysInfo =? 24) && (ECoreCount sysInfo =? 8) then
    p0 ← make_ints 24;
    e0 ← make_ints 8;
    let e1 := append_range e0 0 4 in
    let p1 := append_range p0 4 16 in
    let e2 := append_range e1 16 20 in
    let p2 := append_range p1 20 32 in
    Return {| Description := "M3 Ultra 32-core: E-cores first within each die";
              PCoreIndices := p2; ECoreIndices := e2 |}
  else if Contains name "M3 Ultra" && (PCoreCount sysInfo =? 20) && (ECoreCount sysInfo =? 8) then
    p0 ← make_ints 20;
    e0 ← make_ints 8;
    let e1 := append_range e0 0 4 in
    let p1 := append_range p0 4 14 in
    let e2 := append_range e1 14 18 in
    let p2 := append_range p1 18 28 in
    Return {| Description := "M3 Ultra 28-core: E-cores first within each die";
              PCoreIndices := p2; ECoreIndices := e2 |}
  else if Contains name "M4 Pro" then
    p0 ← make_ints (PCoreCount sysInfo);
    e0 ← make_ints (ECoreCount sysInfo);
    let e1 := append_range e0 0 (ECoreCount sysInfo) in
    let p1 := append_range p0 (ECoreCount sysInfo) totalCores in
    Return {| Description := "M4 Pro: E-cores first, then P-cores";
              PCoreIndices := p1; ECoreIndices := e1 |}
  else if Contains name "M1 Ultra" || Contains name "M2 Ultra" then
    let pCoresPerDie := int_div (PCoreCount sysInfo) 2 in
    let eCoresPerDie := int_div (ECoreCount sysInfo) 2 in
    p0 ← make_ints (PCoreCount sysInfo);
    e0 ← make_ints (ECoreCount sysInfo);
    (* Die 1 P-cores *)
    let p1 := append_range p0 0 pCoresPerDie in
    (* Die 1 E-cores *)
    let e1 := append_range e0 pCoresPerDie (int_add pCoresPerDie eCoresPerDie) in
    (* Die 2 P-cores *)
    let p2 := append_range p1 (int_add pCoresPerDie eCoresPerDie)
                (int_add (int_mul 2 pCoresPerDie) eCoresPerDie) in
    (* Die 2 E-cores *)
    let e2 := append_range e1 (int_add (int_mul 2 pCoresPerDie) eCoresPerDie) totalCores in
    Return {| Description := "M1/M2 Ultra: P-cores first within each die";
              PCoreIndices := p2; ECoreIndices := e2 |}
  else
    p0 ← make_ints (PCoreCount sysInfo);
    e0 ← make_ints (ECoreCount sysInfo);
    let p1 := append_range p0 0 (PCoreCount sysInfo) in
    let e1 := append_range e0 (PCoreCount sysInfo) totalCores in
    Return {| Description := "Standard layout: P-cores first, then E-cores";
              PCoreIndices := p1; ECoreIndices := e1 |}.

(** The [case] of the [switch] that an input selects. *)
Inductive Layout : Type :=
  | M3Ultra32 | M3Ultra28 | M4Pro | LegacyUltra | Standard.

Definition layout_of (sysInfo : SystemInfo) : Layout :=
  let name := Name sysInfo in
  if Contains name "M3 Ultra" && (PCoreCount sysInfo =? 24) && (ECoreCount sysInfo =? 8) then M3Ultra32
  else if Contains name "M3 Ultra" && (PCoreCount sysInfo =? 20) && (ECoreCount sysInfo =? 8) then M3Ultra28
  else if Contains name "M4 Pro" then M4Pro
  else if Contains name "M1 Ultra" || Contains name "M2 Ultra" then LegacyUltra
  else Standard.

(** ** The two consumers of the topology in [runHeadless]

    Both revisions of [runHeadless] average the utilisation of each core
    class.  What matters here is which indices of [percentages] each of them
    adds into [pcoreSum] and into [ecoreSum]. *)

(** Revision using the resolver:
    [for _, idx := range indices { if idx < len(percentages) { sum += percentages[idx] } }] *)
Definition counted_indices (indices : list Z) (len : Z) : list Z :=
  filter (fun idx => idx < len) indices.

Definition resolver_classes (topology : CoreTopology) (len : Z) : list Z * list Z :=
  (counted_indices (PCoreIndices topology) len,
   counted_indices (ECoreIndices topology) len).

(** [for i := 0; i < n && base+i < len; i++ { sum += percentages[base+i] }]:
    the indices read, in order.  [i] runs from 0 and stops at [n] at the
    latest, so [Z.to_nat n] iterations are all there can be. *)
Fixpoint for_indices (fuel : nat) (i n base len : Z) (visited : list Z) : list Z :=
  match fuel with
  | O => visited
  | S fuel' =>
      if (i <? n) && (int_add base i <? len)
      then for_indices fuel' (int_add i 1) n base len (visited ++ [int_add base i])
      else visited
  end.

Definition loop_indices (n base len : Z) (visited : list Z) : list Z :=
  for_indices (Z.to_nat n) 0 n base len visited.

(** One iteration of [for die := 0; die < 2; die++] of the inline code. *)
Definition die_indices (pCorePerDie eCorePerDie len : Z) (acc : list Z * list Z) (die : Z)
  : list Z * list Z :=
  let pCoreStart := int_mul die (int_add pCorePerDie eCorePerDie) in
  let eCoreStart := int_add pCoreStart pCorePerDie in
  (loop_indices pCorePerDie pCoreStart len (fst acc),
   loop_indices eCorePerDie eCoreStart len (snd acc)).

(** Revision with the inline topology: the pair (indices summed as
    performance cores, indices summed as efficiency cores). *)
Definition inline_classes (sysInfo : SystemInfo) (len : Z) : list Z * list Z :=
  let pCoreCount := PCoreCount sysInfo in
  let eCoreCount := ECoreCount sysInfo in
  let isInterleaved :=
    IsUltra sysInfo && (Contains (Name sysInfo) "M1" || Contains (Name sysInfo) "M2") in
  if isInterleaved then
    let pCorePerDie := int_div pCoreCount 2 in
    let eCorePerDie := int_div eCoreCount 2 in
    let acc0 := die_indices pCorePerDie eCorePerDie len ([], []) 0 in
    die_indices pCorePerDie eCorePerDie len acc0 1
  else
    (loop_indices pCoreCount 0 len [], loop_indices eCoreCount pCoreCount len []).

Inductive CoreClass : Type := Performance | Efficiency.

(** The class a pair of index lists gives to core [i], if any. *)
Definition class_of (classes : list Z * list Z) (i : Z) : option CoreClass :=
  if bool_decide (i ∈ fst classes) then Some Performance
  else if bool_decide (i ∈ snd classes) then Some Efficiency
  else None.

(** The legacy dual-die layout as the specification words it: each class is
    halved by integer division, die one takes the left-over cores at its
    tail, each in its own class, and die two follows. *)
Definition legacy_layout_spec (pCoreCount eCoreCount : Z) : list Z * list Z :=
  let p := pCoreCount / 2 in
  let e := eCoreCount / 2 in
  let pr := pCoreCount mod 2 in
  let er := eCoreCount mod 2 in
  let die1 := p + e + pr + er in
  (seqZ 0 p ++ seqZ (p + e) pr ++ seqZ die1 p,
   seqZ p e ++ seqZ (p + e + pr) er ++ seqZ (die1 + p) e).

(** ** Metric records (package main) *)

Record CPUUsage : Type := {
  User : float;
  System : float;
  Idle : float;
  Nice : float
}.

(** A nil slice or map reads like the empty one; both are the empty list or
    map here. *)
Record CPUMetrics : Type := {
  EClusterActive : Z;
  EClusterFreqMHz : Z;
  PClusterActive : Z;
  PClusterFreqMHz : Z;
  ECores : list Z;
  PCores : list Z;
  CoreMetrics : gmap string Z;
  CPUW : float;
  GPUW : float;
  PackageW : float;
  CoreUsages : list float;
  Throttled : bool
}.

Record NetDiskMetrics : Type := {
  OutPacketsPerSec : float;
  OutBytesPerSec : float;
  InPacketsPerSec : float;
  InBytesPerSec : float;
  ReadOpsPerSec : float;
  WriteOpsPerSec : float;
  ReadKBytesPerSec : float;
  WriteKBytesPerSec : float
}.

Record GPUMetrics : Type := {
  FreqMHz : Z;
  Active : Z
}.

(** The zero values [CPUMetrics{}], [GPUMetrics{}], [NetDiskMetrics{}]. *)
Definition zero_CPUMetrics : CPUMetrics :=
  {| EClusterActive := 0; EClusterFreqMHz := 0; PClusterActive := 0; PClusterFreqMHz := 0;
     ECores := []; PCores := []; CoreMetrics := ∅;
     CPUW := 0%float; GPUW := 0%float; PackageW := 0%float;
     CoreUsages := []; Throttled := false |}.

Definition zero_GPUMetrics : GPUMetrics := {| FreqMHz := 0; Active := 0 |}.

Definition zero_NetDiskMetrics : NetDiskMetrics :=
  {| OutPacketsPerSec := 0%float; OutBytesPerSec := 0%float;
     InPacketsPerSec := 0%float; InBytesPerSec := 0%float;
     ReadOpsPerSec := 0%float; WriteOpsPerSec := 0%float;
     ReadKBytesPerSec := 0%float; WriteKBytesPerSec := 0%float |}.

Definition NewCPUMetrics : CPUMetrics :=
  {| EClusterActive := 0; EClusterFreqMHz := 0; PClusterActive := 0; PClusterFreqMHz := 0;
     ECores := []; PCores := []; CoreMetrics := ∅;
     CPUW := 0%float; GPUW := 0%float; PackageW := 0%float;
     CoreUsages := []; Throttled := false |}.

(** ** Buffered channels

    [make(chan T, n)] is a FIFO queue of capacity [n].  A send finds room or
    has to wait for a receiver; inside [select] with a [default] case the
    send is only attempted, and [default] runs when there is no room. *)

Record chan (A : Type) : Type := {
  chan_cap : nat;
  chan_buf : list A
}.
Arguments chan_cap {A} c.
Arguments chan_buf {A} c.

Definition make_chan (A : Type) (n : nat) : chan A :=
  {| chan_cap := n; chan_buf := [] |}.

(** [ch <- v] when no receiver is waiting: [None] when the sender blocks. *)
Definition chan_send {A : Type} (ch : chan A) (v : A) : option (chan A) :=
  if (length (chan_buf ch) <? chan_cap ch)%nat
  then Some {| chan_cap := chan_cap ch; chan_buf := chan_buf ch ++ [v] |}
  else None.

(** [select { case ch <- v: default: }] *)
Definition chan_try_send {A : Type} (ch : chan A) (v : A) : chan A :=
  match chan_send ch v with
  | Some ch' => ch'
  | None => ch
  end.

(** [v := <-ch] when a value is buffered. *)
Definition chan_recv {A : Type} (ch : chan A) : option (A * chan A) :=
  match chan_buf ch with
  | [] => None
  | v :: rest => Some (v, {| chan_cap := chan_cap ch; chan_buf := rest |})
  end.

(** The three channels that [main] creates and hands to [collectMetrics]. *)
Record Mailboxes : Type := {
  cpumetricsChan : chan CPUMetrics;
  gpumetricsChan : chan GPUMetrics;
  netdiskMetricsChan : chan NetDiskMetrics
}.

Definition main_channels : Mailboxes :=
  {| cpumetricsChan := make_chan CPUMetrics 1;
     gpumetricsChan := make_chan GPUMetrics 1;
     netdiskMetricsChan := make_chan NetDiskMetrics 1 |}.

Inductive Category : Type := CatCPU | CatGPU | CatNetDisk.

Definition payload (c : Category) : Type :=
  match c with
  | CatCPU => CPUMetrics
  | CatGPU => GPUMetrics
  | CatNetDisk => NetDiskMetrics
  end.

Definition zero_payload (c : Category) : payload c :=
  match c with
  | CatCPU => zero_CPUMetrics
  | CatGPU => zero_GPUMetrics
  | CatNetDisk => zero_NetDiskMetrics
  end.

Definition mailbox (c : Category) (mb : Mailboxes) : chan (payload c) :=
  match c with
  | CatCPU => cpumetricsChan mb
  | CatGPU => gpumetricsChan mb
  | CatNetDisk => netdiskMetricsChan mb
  end.

Definition set_mailbox (c : Category) (ch : chan (payload c)) (mb : Mailboxes) : Mailboxes :=
  match c return chan (payload c) -> Mailboxes with
  | CatCPU => fun ch =>
      {| cpumetricsChan := ch; gpumetricsChan := gpumetricsChan mb;
         netdiskMetricsChan := netdiskMetricsChan mb |}
  | CatGPU => fun ch =>
      {| cpumetricsChan := cpumetricsChan mb; gpumetricsChan := ch;
         netdiskMetricsChan := netdiskMetricsChan mb |}
  | CatNetDisk => fun ch =>
      {| cpumetricsChan := cpumetricsChan mb; gpumetricsChan := gpumetricsChan mb;
         netdiskMetricsChan := ch |}
  end ch.

(** The values waiting in a category's channel. *)
Definition pending (c : Category) (mb : Mailboxes) : list (payload c) :=
  chan_buf (mailbox c mb).

(** The publication of one value in the loop of [collectMetrics]:
    [select { case ch <- v: default: }] on the category's channel. *)
Definition publish (c : Category) (v : payload c) (mb : Mailboxes) : Mailboxes :=
  set_mailbox c (chan_try_send (mailbox c mb) v) mb.

(** The plain send [ch <- v] at the head of [collectMetrics]. *)
Definition blocking_send (c : Category) (v : payload c) (mb : Mailboxes) : option Mailboxes :=
  ch ← chan_send (mailbox c mb) v;
  Some (set_mailbox c ch mb).

(** A consumer's [case v := <-ch]. *)
Definition consume (c : Category) (mb : Mailboxes) : option (payload c * Mailboxes) :=
  '(v, ch) ← chan_recv (mailbox c mb);
  Some (v, set_mailbox c ch mb).

(** The three non-blocking sends that end an iteration of the loop. *)
Definition publish_all (cpuMetrics : CPUMetrics) (gpuMetrics : GPUMetrics)
    (netdiskMetrics : NetDiskMetrics) (mb : Mailboxes) : Mailboxes :=
  publish CatNetDisk netdiskMetrics
    (publish CatGPU gpuMetrics
       (publish CatCPU cpuMetrics mb)).

(** The start of [collectMetrics], up to [cmd.Start()], as the effects it
    performs in order.  [Blocked] is a send that has to wait. *)
Inductive Effect : Type :=
  | Send (c : Category) (v : payload c)
  | Command (args : list string)
  | StdoutPipe
  | Start.

Definition collectMetrics_startup (updateInterval : string) : list Effect :=
  [ Send CatCPU zero_CPUMetrics;
    Send CatGPU zero_GPUMetrics;
    Send CatNetDisk zero_NetDiskMetrics;
    Command ["sudo"; "powermetrics"; "--samplers";
             "cpu_power,gpu_power,thermal,network,disk";
             "--show-initial-usage"; "-f"; "plist"; "-i"; updateInterval]%string;
    StdoutPipe;
    Start ].

Record World : Type := {
  mailboxes : Mailboxes;
  subprocess_started : bool
}.

Definition perform (w : World) (e : Effect) : option World :=
  match e with
  | Send c v =>
      mb ← blocking_send c v (mailboxes w);
      Some {| mailboxes := mb; subprocess_started := subprocess_started w |}
  | Command _ | StdoutPipe => Some w
  | Start => Some {| mailboxes := mailboxes w; subprocess_started := true |}
  end.

(** Runs effects in order; [None] as soon as a send would block. *)
Fixpoint perform_all (w : World) (es : list Effect) : option World :=
  match es with
  | [] => Some w
  | e :: es' => w' ← perform w e; perform_all w' es'
  end.

Definition is_send_to (c : Category) (e : Effect) : bool :=
  match e, c with
  | Send CatCPU _, CatCPU | Send CatGPU _, CatGPU | Send CatNetDisk _, CatNetDisk => true
  | _, _ => false
  end.

Definition is_start (e : Effect) : bool :=
  match e with Start => true | _ => false end.

(** ** CPU utilisation estimator (package main) *)

(** One entry of the array that [host_processor_info] fills: the four
    cumulative tick counters of a core, each a 32-bit unsigned [natural_t]. *)
Record cpu_load_info : Type := {
  ticks_user : Z;
  ticks_system : Z;
  ticks_idle : Z;
  ticks_nice : Z
}.

(** [float64(x)] for a 32-bit unsigned [x]: exact. *)
Definition float64_of_uint32 (x : Z) : float :=
  PrimFloat.of_uint63 (Uint63.of_Z (x mod 2 ^ 32)).

Definition KERN_SUCCESS : Z := 0.

(** What a call leaves in Go's [(value, error)] pair. *)
Inductive Result (A : Type) : Type :=
  | Ok (a : A)
  | Err (msg : string).
Arguments Ok {A} a.
Arguments Err {A} msg.

Definition GetCPUUsage (kernReturn : Z) (cpuLoadInfo : list cpu_load_info)
  : Result (list CPUUsage) :=
  if negb (kernReturn =? KERN_SUCCESS) then Err "error getting CPU info"
  else Ok ((fun info =>
              {| User := float64_of_uint32 (ticks_user info);
                 System := float64_of_uint32 (ticks_system info);
                 Idle := float64_of_uint32 (ticks_idle info);
                 Nice := float64_of_uint32 (ticks_nice info) |}) <$> cpuLoadInfo).

(** The package-level variables [lastCPUTimes] and [firstRun]. *)
Record Estimator : Type := {
  lastCPUTimes : list CPUUsage;
  firstRun : bool
}.

Definition initial_estimator : Estimator :=
  {| lastCPUTimes := []; firstRun := true |}.

Definition totalDelta (cur last : CPUUsage) : float :=
  ((User cur - User last) + (System cur - System last) +
   (Idle cur - Idle last) + (Nice cur - Nice last))%float.

Definition activeDelta (cur last : CPUUsage) : float :=
  ((User cur - User last) + (System cur - System last) +
   (Nice cur - Nice last))%float.

(** The body of [for i := range currentTimes].  Reading [lastCPUTimes[i]]
    past the end of the slice is a run-time panic. *)
Definition percentage_step (currentTimes lastCPUTimes : list CPUUsage)
    (percentages : list float) (i : nat) : Outcome (list float) :=
  match currentTimes !! i, lastCPUTimes !! i with
  | Some cur, Some last =>
      let percentages :=
        if (0 <? totalDelta cur last)%float
        then <[i := (activeDelta cur last / totalDelta cur last * 100)%float]> percentages
        else percentages in
      match percentages !! i with
      | Some p =>
          Return (if (p <? 0)%float then <[i := 0%float]> percentages
                  else if (100 <? p)%float then <[i := 100%float]> percentages
                  else percentages)
      | None => Panic "index out of range"
      end
  | _, _ => Panic "index out of range"
  end.

Fixpoint percentage_loop (currentTimes lastCPUTimes : list CPUUsage)
    (indices : list nat) (percentages : list float) : Outcome (list float) :=
  match indices with
  | [] => Return percentages
  | i :: rest =>
      percentages' ← percentage_step currentTimes lastCPUTimes percentages i;
      percentage_loop currentTimes lastCPUTimes rest percentages'
  end.

(** [GetCPUPercentages], given what its call of [GetCPUUsage] returns. *)
Definition GetCPUPercentages (usage : Result (list CPUUsage)) (st : Estimator)
  : Outcome (Result (list float) * Estimator) :=
  match usage with
  | Err msg => Return (Err msg, st)
  | Ok currentTimes =>
      if firstRun st then
        Return (Ok (replicate (length currentTimes) 0%float),
                {| lastCPUTimes := currentTimes; firstRun := false |})
      else
        percentages ← percentage_loop currentTimes (lastCPUTimes st)
                        (seq 0 (length currentTimes))
                        (replicate (length currentTimes) 0%float);
        Return (Ok percentages,
                {| lastCPUTimes := currentTimes; firstRun := false |})
  end.

(** The percentage that the specification gives a core:
    100 × Δactive / Δtotal clamped to [0,100], and 0 when Δtotal is 0. *)
Definition clamp_percent (p : float) : float :=
  if (p <? 0)%float then 0%float
  else if (100 <? p)%float then 100%float
  else p.

Definition percentage_spec (cur last : CPUUsage) : float :=
  if (totalDelta cur last =? 0)%float then 0%float
  else clamp_percent (100 * activeDelta cur last / totalDelta cur last)%float.

(** What the loop body computes for a core. *)
Definition percentage_of (cur last : CPUUsage) : float :=
  if (0 <? totalDelta cur last)%float
  then clamp_percent (activeDelta cur last / totalDelta cur last * 100)%float
  else 0%float.

(** ** Decoded samples and the metric extractors (package main)

    The tree that the property-list decoder stores into a
    [map[string]interface{}]: every node carries its dynamic type, and a
    type assertion [x.(T)] succeeds only on a node of type [T]. *)

Inductive PValue : Type :=
  | PString (s : string)
  | PReal (f : float)
  | PInteger (n : Z)
  | PBool (b : bool)
  | PData (d : list byte)
  | PArray (items : list PValue)
  | PDict (entries : gmap string PValue).

(** [v, ok := m[key].(map[string]interface{})] *)
Definition as_dict (v : option PValue) : option (gmap string PValue) :=
  match v with
  | Some (PDict entries) => Some entries
  | _ => None
  end.

(** [v, ok := m[key].(float64)] *)
Definition as_float64 (v : option PValue) : option float :=
  match v with
  | Some (PReal f) => Some f
  | _ => None
  end.

(** [v, ok := m[key].(string)] *)
Definition as_string (v : option PValue) : option string :=
  match v with
  | Some (PString s) => Some s
  | _ => None
  end.

(** [int(f)] for a [float64]: the fraction is discarded.  Outside the range
    of [int] the Go specification leaves the result to the implementation;
    arm64 saturates and turns NaN into 0. *)
Definition float64_to_int (f : float) : Z :=
  match Prim2SF f with
  | S754_zero _ => 0
  | S754_nan => 0
  | S754_infinity s => if s then int_min else int_max
  | S754_finite s m e =>
      let magnitude :=
        match e with
        | Zneg k => Z.shiftr (Zpos m) (Zpos k)
        | _ => Z.shiftl (Zpos m) e
        end in
      let v := if s then - magnitude else magnitude in
      Z.max int_min (Z.min int_max v)
  end.

Definition parseGPUMetrics (data : gmap string PValue) : GPUMetrics :=
  let gpuMetrics := zero_GPUMetrics in
  match as_dict (data !! "gpu"%string) with
  | Some gpu =>
      let gpuMetrics :=
        match as_float64 (gpu !! "freq_hz"%string) with
        | Some freqHz =>
            {| FreqMHz := float64_to_int freqHz; Active := Active gpuMetrics |}
        | None => gpuMetrics
        end in
      let gpuMetrics :=
        match as_float64 (gpu !! "idle_ratio"%string) with
        | Some idleRatio =>
            {| FreqMHz := FreqMHz gpuMetrics;
               Active := float64_to_int ((1 - idleRatio) * 100)%float |}
        | None => gpuMetrics
        end in
      gpuMetrics
  | None => gpuMetrics
  end.

(** [if rate, ok := m[key].(float64); ok { field = f rate }] *)
Definition rate_or (m : gmap string PValue) (key : string) (f : float -> float)
    (field : float) : float :=
  match as_float64 (m !! key) with
  | Some rate => f rate
  | None => field
  end.

Definition parseNetDiskMetrics (data : gmap string PValue) : NetDiskMetrics :=
  let metrics := zero_NetDiskMetrics in
  let metrics :=
    match as_dict (data !! "network"%string) with
    | Some network =>
        {| InBytesPerSec :=
             rate_or network "ibyte_rate" (fun rate => rate / 1000)%float (InBytesPerSec metrics);
           OutBytesPerSec :=
             rate_or network "obyte_rate" (fun rate => rate / 1000)%float (OutBytesPerSec metrics);
           InPacketsPerSec :=
             rate_or network "ipacket_rate" (fun rate => rate) (InPacketsPerSec metrics);
           OutPacketsPerSec :=
             rate_or network "opacket_rate" (fun rate => rate) (OutPacketsPerSec metrics);
           ReadOpsPerSec := ReadOpsPerSec metrics;
           WriteOpsPerSec := WriteOpsPerSec metrics;
           ReadKBytesPerSec := ReadKBytesPerSec metrics;
           WriteKBytesPerSec := WriteKBytesPerSec metrics |}
    | None => metrics
    end in
  let metrics :=
    match as_dict (data !! "disk"%string) with
    | Some disk =>
        {| InBytesPerSec := InBytesPerSec metrics;
           OutBytesPerSec := OutBytesPerSec metrics;
           InPacketsPerSec := InPacketsPerSec metrics;
           OutPacketsPerSec := OutPacketsPerSec metrics;
           ReadKBytesPerSec :=
             rate_or disk "rbytes_per_s" (fun rate => rate / 1000)%float (ReadKBytesPerSec metrics);
           WriteKBytesPerSec :=
             rate_or disk "wbytes_per_s" (fun rate => rate / 1000)%float (WriteKBytesPerSec metrics);
           ReadOpsPerSec :=
             rate_or disk "rops_per_s" (fun rate => rate) (ReadOpsPerSec metrics);
           WriteOpsPerSec :=
             rate_or disk "wops_per_s" (fun rate => rate) (WriteOpsPerSec metrics) |}
    | None => metrics
    end in
  metrics.

(** [parseCPUMetrics] overwrites [Throttled], [ECores], [PCores] and, when
    present, the three power fields of the value it is given. *)
Definition parseCPUMetrics (data : gmap string PValue) (cpuMetrics : CPUMetrics)
  : Outcome CPUMetrics :=
  match as_dict (data !! "processor"%string) with
  | None => Exit 1 "Failed to get processor data"
  | Some processor =>
      match as_string (data !! "thermal_pressure"%string) with
      | None => Exit 1 "Failed to get thermal data"
      | Some thermal =>
          Return
            {| EClusterActive := EClusterActive cpuMetrics;
               EClusterFreqMHz := EClusterFreqMHz cpuMetrics;
               PClusterActive := PClusterActive cpuMetrics;
               PClusterFreqMHz := PClusterFreqMHz cpuMetrics;
               ECores := [];
               PCores := [];
               CoreMetrics := CoreMetrics cpuMetrics;
               CPUW := rate_or processor "cpu_power"
                         (fun cpuEnergy => cpuEnergy / 1000)%float (CPUW cpuMetrics);
               GPUW := rate_or processor "gpu_power"
                         (fun gpuEnergy => gpuEnergy / 1000)%float (GPUW cpuMetrics);
               PackageW := rate_or processor "combined_power"
                         (fun combinedPower => combinedPower / 1000)%float (PackageW cpuMetrics);
               CoreUsages := CoreUsages cpuMetrics;
               Throttled := negb (String.eqb thermal "Nominal") |}
      end
  end.

(** ** Stream framer: the split function of [collectMetrics] *)

Definition bufferSize : Z := 10 * 1024 * 1024.

Definition xml_marker : list byte := bytes "<?xml".
Definition plist_marker : list byte := bytes "<plist".
Definition end_marker : list byte := bytes "</plist>".

Definition len (data : list byte) : Z := Z.of_nat (length data).

(** [data[lo:]] and [data[lo:hi]] within bounds. *)
Definition slice_from (data : list byte) (lo : Z) : list byte :=
  drop (Z.to_nat lo) data.
Definition slice (data : list byte) (lo hi : Z) : list byte :=
  take (Z.to_nat (hi - lo)) (drop (Z.to_nat lo) data).

(** The function given to [scanner.Split]; its error result is always nil.
    Positions are offsets into a buffer of at most [bufferSize] bytes, far
    from the range where [int] wraps. *)
Definition splitFn (data : list byte) (atEOF : bool) : Z * option (list byte) :=
  if atEOF && (len data =? 0) then (0, None)
  else
    let start := Index data xml_marker in
    let start := if start =? -1 then Index data plist_marker else start in
    let found :=
      if 0 <=? start then
        let end_ := Index (slice_from data start) end_marker in
        if 0 <=? end_
        then Some (start + end_ + 8, Some (slice data start (start + end_ + 8)))
        else None
      else None in
    match found with
    | Some r => r
    | None =>
        if atEOF then
          if 0 <=? start then (len data, Some (slice_from data start))
          else (len data, None)
        else (0, None)
    end.

(** ** [bufio.Scanner] over the subprocess pipe

    The Scanner is set up with [scanner.Buffer(make([]byte, bufferSize),
    bufferSize)]: its buffer has [bufferSize] bytes from the start and may
    not grow.  [sc_start] is [s.start]; [sc_data] is [s.buf[s.start:s.end]];
    [sc_reads] lists what the coming reads of the pipe deliver, in order,
    the end of the list being end of file. *)

Inductive ScanError : Type :=
  | EOF | ErrTooLong | ErrNegativeAdvance | ErrAdvanceTooFar.

Record Scanner : Type := {
  sc_reads : list (list byte);
  sc_start : nat;
  sc_data : list byte;
  sc_err : option ScanError
}.

Definition NewScanner (reads : list (list byte)) : Scanner :=
  {| sc_reads := reads; sc_start := 0; sc_data := []; sc_err := None |}.

Definition sc_end (s : Scanner) : nat := (sc_start s + length (sc_data s))%nat.

Definition buffer_len : nat := Z.to_nat bufferSize.

(** [s.r.Read(s.buf[s.end:len(s.buf)])]: at most [room] bytes of the next
    delivery, the rest of it staying in the reader between the pipe and the
    Scanner; [None] is [io.EOF].  A delivery of no bytes is read again. *)
Fixpoint read_some (room : nat) (reads : list (list byte))
  : option (list byte * list (list byte)) :=
  match reads with
  | [] => None
  | [] :: reads' => read_some room reads'
  | chunk :: reads' =>
      if (length chunk <=? room)%nat then Some (chunk, reads')
      else Some (take room chunk, drop room chunk :: reads')
  end.

(** [s.advance(n)] *)
Definition sc_advance (s : Scanner) (n : Z) : Scanner * bool :=
  if n <? 0 then
    ({| sc_reads := sc_reads s; sc_start := sc_start s; sc_data := sc_data s;
        sc_err := Some ErrNegativeAdvance |}, false)
  else if len (sc_data s) <? n then
    ({| sc_reads := sc_reads s; sc_start := sc_start s; sc_data := sc_data s;
        sc_err := Some ErrAdvanceTooFar |}, false)
  else
    ({| sc_reads := sc_reads s; sc_start := (sc_start s + Z.to_nat n)%nat;
        sc_data := drop (Z.to_nat n) (sc_data s); sc_err := sc_err s |}, true).

(** The part of the loop of [Scan] after the split function has found no
    token: stop at end of input, else make room and read. *)
Definition sc_fill (s : Scanner) : Scanner + Scanner :=
  match sc_err s with
  | Some _ =>
      (* shut it down *)
      inr {| sc_reads := sc_reads s; sc_start := 0; sc_data := []; sc_err := sc_err s |}
  | None =>
      (* shift data to the beginning of the buffer *)
      let start :=
        if (0 <? sc_start s)%nat &&
           ((sc_end s =? buffer_len)%nat || (buffer_len / 2 <? sc_start s)%nat)
        then 0%nat else sc_start s in
      let end_ := (start + length (sc_data s))%nat in
      if (end_ =? buffer_len)%nat then
        (* the buffer is full and already has its maximal size *)
        inr {| sc_reads := sc_reads s; sc_start := start; sc_data := sc_data s;
               sc_err := Some ErrTooLong |}
      else
        match read_some (buffer_len - end_) (sc_reads s) with
        | Some (bytes_read, reads') =>
            inl {| sc_reads := reads'; sc_start := start;
                   sc_data := sc_data s ++ bytes_read; sc_err := None |}
        | None =>
            inl {| sc_reads := []; sc_start := start; sc_data := sc_data s;
                   sc_err := Some EOF |}
        end
  end.

(** The loop of [Scan]: [(Some token, s')] when it returns true. *)
Fixpoint scan_loop (fuel : nat) (s : Scanner) : option (list byte) * Scanner :=
  match fuel with
  | O => (None, s)
  | S fuel' =>
      if (0 <? length (sc_data s))%nat || bool_decide (sc_err s ≠ None) then
        let '(advance, token) := splitFn (sc_data s) (bool_decide (sc_err s ≠ None)) in
        let '(s1, ok) := sc_advance s advance in
        if negb ok then (None, s1)
        else match token with
             | Some tok => (Some tok, s1)
             | None =>
                 match sc_fill s1 with
                 | inl s2 => scan_loop fuel' s2
                 | inr s2 => (None, s2)
                 end
             end
      else
        match sc_fill s with
        | inl s2 => scan_loop fuel' s2
        | inr s2 => (None, s2)
        end
  end.

(** Bytes and deliveries still to come: every turn of the loop that does
    not return consumes part of a delivery or meets the end of input. *)
Definition reads_size (reads : list (list byte)) : nat :=
  length (concat reads).

Definition Scan (s : Scanner) : option (list byte) * Scanner :=
  scan_loop (reads_size (sc_reads s) + 2) s.

(** [for scanner.Scan() { ... scanner.Text() ... }]: the tokens in order and
    the Scanner at the end.  Every token of [splitFn] advances the input. *)
Fixpoint scan_tokens (fuel : nat) (s : Scanner) : list (list byte) * Scanner :=
  match fuel with
  | O => ([], s)
  | S fuel' =>
      match Scan s with
      | (Some tok, s') =>
          let '(toks, s'') := scan_tokens fuel' s' in (tok :: toks, s'')
      | (None, s') => ([], s')
      end
  end.

Definition frame (reads : list (list byte)) : list (list byte) * Scanner :=
  scan_tokens (reads_size reads + 1) (NewScanner reads).

(** The RawSamples that the framer emits for a sequence of reads. *)
Definition RawSamples (reads : list (list byte)) : list (list byte) :=
  fst (frame reads).

(** ** One iteration of the loop of [collectMetrics]

    [decode] stands for [plist.NewDecoder(...).Decode(&data)] of the
    external property-list library: [None] is a decode error. *)

Definition maxRetries : Z := 3.

Definition handle_sample (decode : list byte -> option (gmap string PValue))
    (plistData : list byte) (retryCount : Z) (mb : Mailboxes) : Outcome (Z * Mailboxes) :=
  if negb (0 <=? Index plistData xml_marker) || negb (0 <=? Index plistData end_marker) then
    let retryCount := int_add retryCount 1 in
    if maxRetries <=? retryCount then Return (0, mb) else Return (retryCount, mb)
  else
    let retryCount := 0 in
    match decode plistData with
    | None => Return (retryCount, mb)
    | Some data =>
        cpuMetrics ← parseCPUMetrics data NewCPUMetrics;
        let gpuMetrics := parseGPUMetrics data in
        let netdiskMetrics := parseNetDiskMetrics data in
        Return (retryCount, publish_all cpuMetrics gpuMetrics netdiskMetrics mb)
    end.

(** ** The loop of [collectMetrics] over the tokens

    [for scanner.Scan() { ... }] with the tokens that the Scanner gives
    out, as long as the [done] channel stays open: each token goes through
    [handle_sample], and an exit of the process ends the loop. *)
Fixpoint collect_loop (decode : list byte -> option (gmap string PValue))
    (tokens : list (list byte)) (retryCount : Z) (mb : Mailboxes) : Outcome (Z * Mailboxes) :=
  match tokens with
  | [] => Return (retryCount, mb)
  | plistData :: rest =>
      '(retryCount', mb') ← handle_sample decode plistData retryCount mb;
      collect_loop decode rest retryCount' mb'
  end.

(** ** Repeated polls of the estimator

    The ticker of [main] calls [GetCPUPercentages] once per interval; each
    call sees what [GetCPUUsage] returns then and the state that the call
    before left.  A panic ends the run. *)
Fixpoint poll_all (queries : list (Result (list CPUUsage))) (st : Estimator)
  : Outcome (list (Result (list float)) * Estimator) :=
  match queries with
  | [] => Return ([], st)
  | usage :: rest =>
      '(r, st') ← GetCPUPercentages usage st;
      '(rs, st'') ← poll_all rest st';
      Return (r :: rs, st'')
  end.

(** ** The core grid of the terminal widget (package app)

    [CPUCoreWidget.Draw] lays the cores out in a grid inside the inner
    rectangle of its block and writes, for each core it shows, a label and
    a bar.  The model follows the arithmetic of the method and returns the
    cells in the order the method writes them; from a cell, the strings
    written and their places follow.  The colours and the fill of a bar,
    which depend on the usage value alone, are left out. *)

Definition int_sub (a b : Z) : Z := wrap (a - b).

(** [a / b] and [a % b] on [int] with a divisor that is not a constant:
    the runtime panics on zero; the quotient truncates toward zero and the
    remainder has the sign of [a]. *)
Definition int_quo (a b : Z) : Outcome Z :=
  if b =? 0 then Panic "integer divide by zero" else Return (wrap (Z.quot a b)).

Definition int_rem (a b : Z) : Outcome Z :=
  if b =? 0 then Panic "integer divide by zero" else Return (Z.rem a b).

(** [make([]int, n)]: [n] zeros, under the limits of [make_ints]. *)
Definition make_zeros (n : Z) : Outcome (list Z) :=
  if (n <? 0) || (maxSliceCap <? n) then Panic "makeslice: len out of range"
  else Return (replicate (Z.to_nat n) 0).

(** [xs[i]] on a slice. *)
Definition index {A : Type} (xs : list A) (i : Z) : Outcome A :=
  if i <? 0 then Panic "index out of range"
  else match xs !! Z.to_nat i with
       | Some v => Return v
       | None => Panic "index out of range"
       end.

(** The variadic [max] of main.go, the one definition of [max] in the
    sources: [maxVal := nums[0]], then the larger of [maxVal] and each
    further number. *)
Definition max (nums : list Z) : Outcome Z :=
  maxVal ← index nums 0;
  Return (foldl (fun maxVal num => if maxVal <? num then num else maxVal) maxVal (drop 1 nums)).

(** [image.Point], [image.Rectangle] and the two methods of it that
    [Draw] calls. *)
Record Point : Type := { X : Z; Y : Z }.
Record Rectangle : Type := { Min : Point; Max : Point }.

Definition Dx (r : Rectangle) : Z := int_sub (X (Max r)) (X (Min r)).
Definition Dy (r : Rectangle) : Z := int_sub (Y (Max r)) (Y (Min r)).

(** The fields of the widget that [Draw] reads: the inner rectangle of the
    embedded block and the usage of each core. *)
Record CPUCoreWidget : Type := {
  Inner : Rectangle;
  cores : list float
}.

(** [w.cores = make([]float64, len(usage)); copy(w.cores, usage)] *)
Definition UpdateUsage (w : CPUCoreWidget) (usage : list float) : CPUCoreWidget :=
  {| Inner := Inner w; cores := usage |}.

Definition minColWidth : Z := 20.
Definition labelWidth : Z := 3.

(** The number of columns and rows of the grid: four columns, eight above
    sixteen cores; fewer when a column would be narrower than
    [minColWidth]; and no more rows than the rectangle is high, with the
    columns counted again for that many rows. *)
Definition Draw_grid (totalCores availableWidth availableHeight : Z) : Outcome (Z * Z) :=
  let cols := if 16 <? totalCores then 8 else 4 in
  cols ← (if int_div availableWidth cols <? minColWidth
          then max [1; int_div availableWidth minColWidth]
          else Return cols);
  rows ← int_quo (int_sub (int_add totalCores cols) 1) cols;
  if availableHeight <? rows then
    let rows := availableHeight in
    cols ← int_quo (int_sub (int_add totalCores rows) 1) rows;
    Return (cols, rows)
  else Return (cols, rows).

(** One round of [for c := 0; c < cols; c++]; [c] is within both slices,
    which have [cols] elements. *)
Definition column_step (baseWidth remainder : Z) (st : list Z * list Z * Z) (c : Z)
  : list Z * list Z * Z :=
  let '(colWidths, colXs, currentX) := st in
  let colXs := <[Z.to_nat c := currentX]> colXs in
  let w := baseWidth in
  let w := if c <? remainder then int_add w 1 else w in
  let colWidths := <[Z.to_nat c := w]> colWidths in
  (colWidths, colXs, int_add currentX w).

(** The width and the left edge of each column. *)
Definition Draw_columns (availableWidth cols : Z) : Outcome (list Z * list Z) :=
  colWidths ← make_zeros cols;
  colXs ← make_zeros cols;
  baseWidth ← int_quo availableWidth cols;
  remainder ← int_rem availableWidth cols;
  let '(colWidths, colXs, _) :=
    foldl (column_step baseWidth remainder) (colWidths, colXs, 0) (seqZ 0 cols) in
  Return (colWidths, colXs).

(** What [Draw] writes for one core: the label [actualIndex] at [(x, y)],
    and, when [availWidth] is 9 or more, the bar of the usage value next
    to it, between brackets at [x + 3] and [x + 3 + availWidth - 1]. *)
Record Cell : Type := {
  cell_core : Z;
  cell_x : Z;
  cell_y : Z;
  cell_usage : float;
  cell_availWidth : Z
}.

(** The body of [for i := 0; i < totalCores; i++], up to the bar. *)
Definition Draw_core (w : CPUCoreWidget) (totalCores cols rows : Z)
    (colWidths colXs : list Z) (i : Z) : Outcome (option Cell) :=
  col ← int_rem i cols;
  row ← int_quo i cols;
  let actualIndex := int_add (int_mul col rows) row in
  if (totalCores <=? actualIndex) || (rows <=? row) then Return None else
  colX ← index colXs col;
  let x := int_add (X (Min (Inner w))) colX in
  let y := int_add (Y (Min (Inner w))) row in
  barWidth ← index colWidths col;
  if Y (Max (Inner w)) <=? y then Return None else
  usage ← index (cores w) actualIndex;
  let availWidth := int_sub barWidth labelWidth in
  let availWidth :=
    if X (Max (Inner w)) <? int_add (int_add x labelWidth) availWidth
    then int_sub (int_sub (X (Max (Inner w))) x) labelWidth
    else availWidth in
  Return (Some {| cell_core := actualIndex; cell_x := x; cell_y := y;
                  cell_usage := usage; cell_availWidth := availWidth |}).

Fixpoint Draw_cores (body : Z -> Outcome (option Cell)) (indices : list Z)
    (cells : list Cell) : Outcome (list Cell) :=
  match indices with
  | [] => Return cells
  | i :: rest =>
      cell ← body i;
      Draw_cores body rest (match cell with Some c => cells ++ [c] | None => cells end)
  end.

Definition Draw (w : CPUCoreWidget) : Outcome (list Cell) :=
  if bool_decide (length (cores w) = 0%nat) then Return [] else
  let totalCores := Z.of_nat (length (cores w)) in
  let availableWidth := Dx (Inner w) in
  let availableHeight := Dy (Inner w) in
  '(cols, rows) ← Draw_grid totalCores availableWidth availableHeight;
  '(colWidths, colXs) ← Draw_columns availableWidth cols;
  Draw_cores (Draw_core w totalCores cols rows colWidths colXs) (seqZ 0 totalCores) [].

(** ** The command line of [main]

    [main] reads [os.Args] from index 1 on, then refuses to go on without a
    port for the metrics server or without root privileges.  [Flags] holds
    the package-level [prometheusPort] and the locals [interval] and
    [setInterval]; a message printed before [os.Exit] goes with the exit
    code.  [strconv.Atoi] is the library's. *)

Record Flags : Type := {
  prometheusPort : string;
  interval : Z;
  setInterval : bool
}.

(** The package-level [prometheusPort] is the empty string when [main]
    starts; [interval] and [setInterval] are zero values. *)
Definition initial_flags : Flags :=
  {| prometheusPort := ""; interval := 0; setInterval := false |}.

Definition version : string := "v0.2.3".

(** The newline of Go's string literals. *)
Definition nl : string := String (Ascii.ascii_of_nat 10) EmptyString.

Definition usage_text : string :=
  "Usage: mactop [--help] [--version] [--interval] [--prometheus]" ++ nl ++
  "--help: Show this help message" ++ nl ++
  "--version: Show the version of mactop" ++ nl ++
  "--interval: Set the powermetrics update interval in milliseconds. Default is 1000." ++ nl ++
  "--prometheus, -p: Set the Prometheus metrics port. Required. (e.g. --prometheus=9090)" ++ nl ++
  nl ++
  "You must use sudo to run mactop, as powermetrics requires root privileges." ++ nl ++
  nl ++
  "For more information, see https://github.com/context-labs/mactop written by Carsen Klock." ++ nl.

Section Main.

Variable Atoi : string -> Result Z.

(** [for i := 1; i < len(os.Args); i++ { switch os.Args[i] { ... } }] on
    the arguments from index [i] on; a flag that takes a value steps over
    the argument behind it. *)
Fixpoint parse_args (args : list string) (fl : Flags) : Outcome Flags :=
  match args with
  | [] => Return fl
  | arg :: rest =>
      if (arg =? "--help")%string || (arg =? "-h")%string then Exit 0 usage_text
      else if (arg =? "--version")%string || (arg =? "-v")%string then
        Exit 0 ("mactop version: " ++ version)
      else if (arg =? "--prometheus")%string || (arg =? "-p")%string then
        match rest with
        | value :: rest' =>
            parse_args rest' {| prometheusPort := value; interval := interval fl;
                                setInterval := setInterval fl |}
        | [] => Exit 1 "Error: --prometheus flag requires a port number"
        end
      else if (arg =? "--interval")%string || (arg =? "-i")%string then
        match rest with
        | value :: rest' =>
            match Atoi value with
            | Ok n =>
                parse_args rest' {| prometheusPort := prometheusPort fl; interval := n;
                                    setInterval := true |}
            | Err msg => Exit 1 ("Invalid interval: " ++ msg)
            end
        | [] => Exit 1 "Error: --interval flag requires an interval value"
        end
      else parse_args rest fl
  end.

(** [main] up to the point where it sets up its log file. *)
Definition main_flags (Args : list string) (euid : Z) : Outcome Flags :=
  fl ← parse_args (drop 1 Args) initial_flags;
  if (prometheusPort fl =? "")%string then
    Exit 1 "Error: Prometheus port is required. Use --prometheus=<port>"
  else if negb (euid =? 0) then
    Exit 1 "Welcome to mactop! Please try again and run mactop with sudo privileges!"
  else Return fl.

End Main.

(** The flag words that take the port and the interval. *)
Definition is_port_flag (arg : string) : Prop := arg = "--prometheus"%string \/ arg = "-p"%string.
Definition is_interval_flag (arg : string) : Prop := arg = "--interval"%string \/ arg = "-i"%string.

(** ** The core classes of [updateCPUPrometheus]

    The Prometheus updater of package main averages the first
    [eCoreCount] usages as efficiency cores and the [pCoreCount] after
    them as performance cores.  As for the consumers in [runHeadless], what
    matters is which indices of [coreUsages] go into which sum. *)

(** [for i := lo; i < hi && i < len; i++ { total += coreUsages[i] }]: the
    indices read, in order; reading at a negative index panics.  [fuel]
    bounds the rounds. *)
Fixpoint range_indices (fuel : nat) (i hi len : Z) (visited : list Z) : Outcome (list Z) :=
  match fuel with
  | O => Return visited
  | S fuel' =>
      if (i <? hi) && (i <? len) then
        if i <? 0 then Panic "index out of range"
        else range_indices fuel' (int_add i 1) hi len (visited ++ [i])
      else Return visited
  end.

(** The pair (indices summed as performance cores, indices summed as
    efficiency cores).  The second loop runs from [eCoreCount] to
    [eCoreCount+pCoreCount], at most [pCoreCount] rounds. *)
Definition prometheus_classes (eCoreCount pCoreCount len : Z) : Outcome (list Z * list Z) :=
  ecores ← (if 0 <? eCoreCount
            then range_indices (Z.to_nat eCoreCount) 0 eCoreCount len []
            else Return []);
  pcores ← (if 0 <? pCoreCount
            then range_indices (Z.to_nat pCoreCount) eCoreCount
                   (int_add eCoreCount pCoreCount) len []
            else Return []);
  Return (pcores, ecores).

(** ** Reading the output of sysctl

    [getCPUInfo] and [getCoreCounts] run sysctl and go through its output
    line by line, looking in each line for each name of [dataFields].  The
    output of the command, or the error of running it, is the argument
    here; [strings.TrimSpace] and [strconv.Atoi] are the library's. *)

(** [strings.Split(s, sep)] with a separator that is not empty: the pieces
    between the occurrences of [sep], found from the left.  Every round
    but the last drops at least one byte of [s], so [length s] rounds are
    enough. *)
Fixpoint Split_loop (fuel : nat) (s sep : list byte) : list (list byte) :=
  match fuel with
  | O => [s]
  | S fuel' =>
      let m := Index s sep in
      if m <? 0 then [s]
      else slice s 0 m :: Split_loop fuel' (slice_from s (m + len sep)) sep
  end.

Definition Split (s sep : list byte) : list (list byte) := Split_loop (length s) s sep.

(** [for _, x := range xs { ... }] with a body that may panic. *)
Fixpoint for_each {A S : Type} (body : S -> A -> Outcome S) (xs : list A) (s : S)
  : Outcome S :=
  match xs with
  | [] => Return s
  | x :: rest => s' ← body s x; for_each body rest s'
  end.

(** [if strings.Contains(line, field) { dict[field] = value_of(strings.Split(line, ":")[1]) }] *)
Definition read_field {V : Type} (value_of : list byte -> V) (line : list byte)
    (dict : gmap string V) (field : string) : Outcome (gmap string V) :=
  if 0 <=? Index line (bytes field) then
    piece ← index (Split line (bytes ":")) 1;
    Return (<[field := value_of piece]> dict)
  else Return dict.

(** The two loops that both functions share, over the lines and over
    [dataFields]. *)
Definition read_fields {V : Type} (dataFields : list string) (value_of : list byte -> V)
    (lines : list (list byte)) : Outcome (gmap string V) :=
  for_each (fun dict line => for_each (read_field value_of line) dataFields dict) lines ∅.

Section Sysctl.

Variable TrimSpace : list byte -> list byte.
(** [strconv.Atoi] gives a value also when it gives an error. *)
Variable Atoi : list byte -> Z * option string.

Definition getCPUInfo (out : Result (list byte)) : Outcome (gmap string (list byte)) :=
  match out with
  | Err msg => Exit 1 ("failed to execute getCPUInfo() sysctl command: " ++ msg)
  | Ok cpuInfo =>
      read_fields ["machdep.cpu.brand_string"; "machdep.cpu.core_count"]%string
        TrimSpace (Split cpuInfo (bytes nl))
  end.

Definition getCoreCounts (out : Result (list byte)) : Outcome (gmap string Z) :=
  match out with
  | Err msg => Exit 1 ("failed to execute getCoreCounts() sysctl command: " ++ msg)
  | Ok coresInfo =>
      read_fields ["hw.perflevel0.logicalcpu"; "hw.perflevel1.logicalcpu"]%string
        (fun piece => fst (Atoi (TrimSpace piece))) (Split coresInfo (bytes nl))
  end.

End Sysctl.

(** ** Vocabulary of the properties *)

(** The two index lists cover [0, total) exactly once. *)
Definition covers_exactly (topology : CoreTopology) (total : Z) : Prop :=
  PCoreIndices topology ++ ECoreIndices topology ≡ₚ seqZ 0 total.

(** Noise: bytes in which none of the three markers occurs. *)
Definition noise (bs : list byte) : Prop :=
  Index bs xml_marker = -1 /\ Index bs plist_marker = -1 /\ Index bs end_marker = -1.

(** A record bounded by [marker] and by the end marker, which occurs in it
    only as its last eight bytes. *)
Definition record_of (marker body : list byte) : list byte :=
  marker ++ body ++ end_marker.

Definition bounded_record (marker r : list byte) : Prop :=
  exists body, r = record_of marker body /\ Index r end_marker = len (marker ++ body).

Definition well_formed_record (r : list byte) : Prop :=
  bounded_record xml_marker r \/ bounded_record plist_marker r.

(** [pat] occurs in [s] at offset [i]. *)
Definition occurs_at (pat s : list byte) (i : nat) : Prop :=
  take (length pat) (drop i s) = pat.

Definition is_marker (m : list byte) : Prop :=
  m = xml_marker \/ m = plist_marker \/ m = end_marker.

(** What a Scanner has still to go through: the bytes it holds and the
    reads to come. *)
Definition sc_remaining (s : Scanner) : list byte :=
  sc_data s ++ concat (sc_reads s).

(** The held bytes lie within the buffer, and the only error met so far is
    the end of input. *)
Definition sc_ok (s : Scanner) : Prop :=
  (sc_end s <= buffer_len)%nat /\
  (sc_err s = None \/ (sc_err s = Some EOF /\ sc_reads s = [])).

(** [marker] is one of the two start markers that the framer accepts. *)
Definition start_marker (marker : list byte) : Prop :=
  marker = xml_marker \/ marker = plist_marker.

(** A stream that the framer can take apart: records that begin with a
    start marker, each after some noise and small enough for the buffer
    together with that noise, then trailing noise that leaves one byte of
    the buffer free.  From a record that begins with the second start
    marker on, the stream holds no XML declaration.  The relation gives the
    stream and its records in order. *)
Inductive framed : list byte -> list (list byte) -> Prop :=
  | framed_tail (n : list byte) :
      noise n -> (length n < buffer_len)%nat -> framed n []
  | framed_record (marker n r more : list byte) (records : list (list byte)) :
      start_marker marker ->
      noise n -> bounded_record marker r ->
      (marker = plist_marker -> Index (r ++ more) xml_marker = -1) ->
      (length (n ++ r) <= buffer_len)%nat ->
      framed more records ->
      framed (n ++ r ++ more) (r :: records).

(** A stream that ends inside a record: records as in [framed], then noise
    and a last record that has its start marker but no end marker, the
    whole of it short of the buffer size. *)
Inductive framed_open : list byte -> list (list byte) -> Prop :=
  | framed_open_last (marker n body : list byte) :
      start_marker marker ->
      noise n ->
      Index (marker ++ body) end_marker = -1 ->
      (marker = plist_marker -> Index (marker ++ body) xml_marker = -1) ->
      (length (n ++ marker ++ body) < buffer_len)%nat ->
      framed_open (n ++ marker ++ body) [marker ++ body]
  | framed_open_record (marker n r more : list byte) (records : list (list byte)) :
      start_marker marker ->
      noise n -> bounded_record marker r ->
      (marker = plist_marker -> Index (r ++ more) xml_marker = -1) ->
      (length (n ++ r) <= buffer_len)%nat ->
      framed_open more records ->
      framed_open (n ++ r ++ more) (r :: records).

(** What the producer and the consumers do to the mailboxes, one step at a
    time: a publication of the loop of [collectMetrics], or a consumer's
    receive, which takes the pending value if there is one. *)
Inductive MailboxOp : Type :=
  | DoPublish (c : Category) (v : payload c)
  | DoConsume (c : Category).

Definition apply_op (mb : Mailboxes) (op : MailboxOp) : Mailboxes :=
  match op with
  | DoPublish c v => publish c v mb
  | DoConsume c =>
      match consume c mb with
      | Some (_, mb') => mb'
      | None => mb
      end
  end.

Definition run_ops (ops : list MailboxOp) (mb : Mailboxes) : Mailboxes :=
  foldl apply_op mb ops.

(** The three values of one decoded record, by category. *)
Definition sample_of (cpuMetrics : CPUMetrics) (gpuMetrics : GPUMetrics)
    (netdiskMetrics : NetDiskMetrics) (c : Category) : payload c :=
  match c with
  | CatCPU => cpuMetrics
  | CatGPU => gpuMetrics
  | CatNetDisk => netdiskMetrics
  end.

(** Every mailbox is a channel of capacity one. *)
Definition single_slot (mb : Mailboxes) : Prop :=
  forall c, chan_cap (mailbox c mb) = 1%nat.

(** A query result that, when it succeeds, reports [n] cores. *)
Definition reports_cores (n : nat) (usage : Result (list CPUUsage)) : Prop :=
  match usage with
  | Ok currentTimes => length currentTimes = n
  | Err _ => True
  end.

(** A list of indices in strictly ascending order. *)
Definition ascending (xs : list Z) : Prop :=
  forall (i j : nat) (x y : Z),
    xs !! i = Some x -> xs !! j = Some y -> (i < j)%nat -> x < y.

(** A rectangle of terminal cells: corners in order and coordinates far
    below the range of [int]. *)
Definition screen_limit : Z := 2 ^ 30.

Definition on_screen (r : Rectangle) : Prop :=
  0 <= X (Min r) <= X (Max r) /\ X (Max r) <= screen_limit /\
  0 <= Y (Min r) <= Y (Max r) /\ Y (Max r) <= screen_limit.

(** The width and the left edge that [Draw] gives to column [c] of [cols]
    columns across [width] cells. *)
Definition column_width (width cols c : Z) : Z :=
  width / cols + (if c <? width mod cols then 1 else 0).

Definition column_left (width cols c : Z) : Z :=
  c * (width / cols) + Z.min c (width mod cols).

(** The core shown in the grid position that the loop of [Draw] visits in
    round [i]: the positions are visited row by row and numbered column by
    column. *)
Definition shown_core (cols rows i : Z) : Z := (i mod cols) * rows + i / cols.

(** What [Draw] writes in round [i] of its loop over the cores, on a grid
    of [cols] columns and [rows] rows. *)
Definition cell_at (w : CPUCoreWidget) (cols rows i : Z) : option Cell :=
  let totalCores := Z.of_nat (length (cores w)) in
  let availableWidth := X (Max (Inner w)) - X (Min (Inner w)) in
  let actualIndex := shown_core cols rows i in
  if (totalCores <=? actualIndex) || (rows <=? i / cols) then None
  else
    usage ← cores w !! Z.to_nat actualIndex;
    Some {| cell_core := actualIndex;
            cell_x := X (Min (Inner w)) + column_left availableWidth cols (i mod cols);
            cell_y := Y (Min (Inner w)) + i / cols;
            cell_usage := usage;
            cell_availWidth := column_width availableWidth cols (i mod cols) - labelWidth |}.

(** A line of sysctl output that holds the name [field], and the value
    that the loops of [getCPUInfo] and [getCoreCounts] end up with for a
    name: the second piece of the last line that holds the name. *)
Definition mentions (field : string) (line : list byte) : Prop :=
  0 <= Index line (bytes field).

#[global] Instance mentions_dec (field : string) (line : list byte) :
  Decision (mentions field line) := Z_le_dec _ _.

Definition has_colon (line : list byte) : Prop := 0 <= Index line (bytes ":").

Definition last_mention {V : Type} (value_of : list byte -> V) (field : string)
    (lines : list (list byte)) : option V :=
  line ← last (filter (mentions field) lines);
  value_of <$> (Split line (bytes ":") !! 1%nat).

(** ** Sample inputs *)

Definition chip (name : string) (p e : Z) (ultra : bool) : SystemInfo :=
  {| Name := name; CoreCount := p + e; ECoreCount := e; PCoreCount := p;
     GPUCoreCount := 0; IsUltra := ultra; IsInterleaved := ultra |}.

(** The M2 Ultra as sold: 16 performance and 8 efficiency cores. *)
Definition m2_ultra : SystemInfo := chip "Apple M2 Ultra" 16 8 true.

(** A legacy dual-die name with an odd number of performance cores. *)
Definition m1_ultra_odd : SystemInfo := chip "Apple M1 Ultra" 3 2 true.

Definition gpu_sample (freq active : Z) : GPUMetrics :=
  {| FreqMHz := freq; Active := active |}.

(** The world in which [main] starts [collectMetrics]. *)
Definition initial_world : World :=
  {| mailboxes := main_channels; subprocess_started := false |}.

(** Tick counters of one core. *)
Definition ticks (user system idle nice : Z) : cpu_load_info :=
  {| ticks_user := user; ticks_system := system; ticks_idle := idle; ticks_nice := nice |}.

(** Two polls of a two-core machine; the user counter of core 1 wraps
    around its 32 bits between them. *)
Definition two_core_before : list cpu_load_info :=
  [ticks 100 50 1000 0; ticks 4294967290 0 0 0].
Definition two_core_after : list cpu_load_info :=
  [ticks 110 55 1085 0; ticks 5 0 90 0].

Definition usage (user system idle nice : float) : CPUUsage :=
  {| User := user; System := system; Idle := idle; Nice := nice |}.

(** The estimator once it has seen [two_core_before]. *)
Definition two_core_estimator : Estimator :=
  {| lastCPUTimes := [usage 100 50 1000 0; usage 4294967290 0 0 0];
     firstRun := false |}.

(** A decoded record with cpu_power = 5000, gpu_power = 2000 and an
    incoming byte rate of 1,000,000. *)
Definition crafted_processor : gmap string PValue :=
  {[ "cpu_power"%string := PReal 5000; "gpu_power"%string := PReal 2000 ]}.
Definition crafted_network : gmap string PValue :=
  {[ "ibyte_rate"%string := PReal 1000000 ]}.
Definition crafted_sample : gmap string PValue :=
  {[ "processor"%string := PDict crafted_processor;
     "thermal_pressure"%string := PString "Nominal";
     "network"%string := PDict crafted_network ]}.


(** A record that begins with the XML declaration and one that begins with
    the second start marker, between noise, and one way of reading them that
    cuts through a start and an end marker. *)
Definition record_b : list byte := bytes "<?xml><plist>b</plist>".
Definition record_c : list byte := bytes "<plist>c</plist>".
Definition noisy_reads : list (list byte) :=
  [bytes "noise"; record_b; bytes "xx<pl"; bytes "ist>c</pl"; bytes "ist>tail"].

(** A record that begins with the other start marker, followed by one that
    begins with the XML declaration. *)
Definition plist_record_a : list byte := bytes "<plist>a</plist>".
Definition xml_record_b : list byte := bytes "<?xml>b</plist>".

(** The M2 Ultra with the [IsUltra] flag left unset. *)
Definition m2_ultra_unflagged : SystemInfo := chip "Apple M2 Ultra" 16 8 false.

(** Chips of the other layouts: efficiency cores first (M4 Pro, M3 Ultra)
    and the standard order (M1 Max). *)
Definition m4_pro : SystemInfo := chip "Apple M4 Pro" 10 4 false.
Definition m3_ultra : SystemInfo := chip "Apple M3 Ultra" 24 8 true.
Definition m1_max : SystemInfo := chip "Apple M1 Max" 8 2 false.

(** A widget of [n] idle cores whose inner rectangle is [width] columns
    wide and [height] rows high. *)
Definition idle_widget (n : nat) (width height : Z) : CPUCoreWidget :=
  {| Inner := {| Min := {| X := 1; Y := 1 |}; Max := {| X := 1 + width; Y := 1 + height |} |};
     cores := replicate n 0%float |}.

(** A stream that ends inside its second record, and two ways of reading
    it. *)
Definition open_reads : list (list byte) :=
  [bytes "xx<?xml><pli"; bytes "st>a</plist>yy<plist>b"].
Definition open_record_a : list byte := bytes "<?xml><plist>a</plist>".
Definition open_record_b : list byte := bytes "<plist>b".

(** The reads of [noisy_reads] delivered in one piece. *)
Definition noisy_stream : list (list byte) := [concat noisy_reads].

(** A full buffer of spaces in front of a record. *)
Definition blank_buffer : list byte := replicate buffer_len x20.

(** Three polls of a two-core machine, the second of which fails. *)
Definition three_polls : list (Result (list CPUUsage)) :=
  [Ok [usage 1 0 9 0; usage 2 0 8 0]; Err "host_processor_info";
   Ok [usage 2 0 18 0; usage 4 0 16 0]].

(** A command line with the port given the way the loop reads it. *)
Definition port_args : list string := ["mactop"; "-p"; "9090"]%string.
Definition port_flags : Flags :=
  {| prometheusPort := "9090"; interval := 0; setInterval := false |}.

(** The output of sysctl for the two core counts of an M2 Ultra. *)
Definition sysctl_counts : list byte :=
  bytes ("hw.perflevel0.logicalcpu: 16" ++ nl ++ "hw.perflevel1.logicalcpu: 8" ++ nl).

(* ===================================================================== *)
(** * Part II: properties *)
(* ===================================================================== *)

(** ** Machine integers and slices *)

Lemma wrap_small (z : Z) : int_min <= z <= int_max -> wrap z = z.
Proof.
  unfold wrap, int_min, int_max. intros Hz.
  rewrite Z.mod_small by lia. lia.
Qed.

Lemma maxSliceCap_value : maxSliceCap = 2 ^ 45.
Proof. reflexivity. Qed.

Lemma make_ints_Return (n : Z) (xs : list Z) :
  make_ints n = Return xs -> xs = [] /\ 0 <= n <= maxSliceCap.
Proof.
  unfold make_ints. intros H.
  destruct (n <? 0) eqn:Hneg; [discriminate|].
  destruct (maxSliceCap <? n) eqn:Hbig; [discriminate|].
  simpl in H. inversion H. split; [reflexivity | lia].
Qed.

Lemma make_ints_ok (n : Z) : 0 <= n <= maxSliceCap -> make_ints n = Return [].
Proof.
  unfold make_ints. intros Hn.
  destruct (n <? 0) eqn:Hneg; [lia|].
  destruct (maxSliceCap <? n) eqn:Hbig; [lia|]. reflexivity.
Qed.

Lemma int_add_small (a b : Z) :
  0 <= a <= 2 * maxSliceCap -> 0 <= b <= 2 * maxSliceCap -> int_add a b = a + b.
Proof.
  rewrite maxSliceCap_value. intros Ha Hb. apply wrap_small.
  unfold int_min, int_max. lia.
Qed.

Lemma int_div_2_small (a : Z) : 0 <= a <= maxSliceCap -> int_div a 2 = a / 2.
Proof.
  rewrite maxSliceCap_value. intros Ha. unfold int_div.
  rewrite Z.quot_div_nonneg by lia.
  apply wrap_small. unfold int_min, int_max.
  assert (0 <= a / 2 <= a) by (split; [apply Z.div_pos; lia | apply Z.div_le_upper_bound; lia]).
  lia.
Qed.

Lemma int_mul_2_small (a : Z) : 0 <= a <= maxSliceCap -> int_mul 2 a = 2 * a.
Proof.
  rewrite maxSliceCap_value. intros Ha. apply wrap_small.
  unfold int_min, int_max. lia.
Qed.

(** Two adjacent ranges make one. *)
Lemma seqZ_adjacent (a b c : Z) :
  a <= b -> b <= c -> seqZ a (b - a) ++ seqZ b (c - b) = seqZ a (c - a).
Proof.
  intros Hab Hbc.
  replace (c - a) with ((b - a) + (c - b)) by lia.
  rewrite seqZ_app by lia. do 2 f_equal. lia.
Qed.

(** Four adjacent ranges dealt alternately to two lists. *)
Lemma seqZ_four_blocks (a b c d e : Z) :
  a <= b -> b <= c -> c <= d -> d <= e ->
  seqZ a (b - a) ++ seqZ b (c - b) ++ seqZ c (d - c) ++ seqZ d (e - d) = seqZ a (e - a).
Proof.
  intros Hab Hbc Hcd Hde.
  rewrite (seqZ_adjacent c d e), (seqZ_adjacent b c e), (seqZ_adjacent a b e) by lia.
  reflexivity.
Qed.

Lemma NoDup_covers (xs : list Z) (total : Z) :
  xs ≡ₚ seqZ 0 total -> NoDup xs /\ forall i, i ∈ xs <-> 0 <= i < total.
Proof.
  intros Hperm. split.
  - rewrite Hperm. apply NoDup_seqZ.
  - intros i. rewrite Hperm, elem_of_seqZ. lia.
Qed.

(** ** Core topology resolver *)

Section Topology.

Variable sysInfo : SystemInfo.
Let P := PCoreCount sysInfo.
Let E := ECoreCount sysInfo.

(** The legacy dual-die case in closed form. *)
Lemma GetCoreTopology_LegacyUltra (topology : CoreTopology) :
  layout_of sysInfo = LegacyUltra ->
  GetCoreTopology sysInfo = Return topology ->
  0 <= P <= maxSliceCap /\ 0 <= E <= maxSliceCap /\
  PCoreIndices topology = seqZ 0 (P / 2) ++ seqZ (P / 2 + E / 2) (P / 2) /\
  ECoreIndices topology =
    seqZ (P / 2) (E / 2) ++ seqZ (2 * (P / 2) + E / 2) (P + E - (2 * (P / 2) + E / 2)).
Proof.
  unfold layout_of, GetCoreTopology. fold P E.
  repeat match goal with
         | |- context [if ?b then _ else _] => destruct b; try discriminate
         end.
  intros _ Hret.
  destruct (make_ints P) as [p0| |] eqn:Hp; try discriminate.
  destruct (make_ints E) as [e0| |] eqn:He; try discriminate.
  apply make_ints_Return in Hp as [-> HP], He as [-> HE].
  simpl in Hret. inversion Hret; subst topology; clear Hret. simpl.
  assert (0 <= P / 2 <= P) by (split; [apply Z.div_pos; lia | apply Z.div_le_upper_bound; lia]).
  assert (0 <= E / 2 <= E) by (split; [apply Z.div_pos; lia | apply Z.div_le_upper_bound; lia]).
  assert (2 * (P / 2) <= P) by (apply Z.mul_div_le; lia).
  rewrite !int_div_2_small by lia.
  rewrite int_mul_2_small by lia.
  rewrite !int_add_small by lia.
  unfold append_range. simpl.
  repeat split; try lia; do 2 f_equal; lia.
Qed.

Lemma GetCoreTopology_returns :
  0 <= P <= maxSliceCap -> 0 <= E <= maxSliceCap ->
  exists topology, GetCoreTopology sysInfo = Return topology.
Proof.
  intros HP HE. unfold GetCoreTopology. fold P E.
  rewrite (make_ints_ok P), (make_ints_ok E) by assumption.
  repeat match goal with
         | |- context [if ?b then _ else _] => destruct b
         end; eexists; reflexivity.
Qed.

Lemma GetCoreTopology_covers_returned (topology : CoreTopology) :
  GetCoreTopology sysInfo = Return topology ->
  covers_exactly topology (P + E).
Proof.
  unfold GetCoreTopology, covers_exactly. fold P E.
  destruct (Contains (Name sysInfo) "M3 Ultra" && (P =? 24) && (E =? 8)) eqn:C32.
  { apply andb_prop in C32 as [C32 He]. apply andb_prop in C32 as [_ Hp].
    apply Z.eqb_eq in He, Hp. rewrite He, Hp.
    intros Hret. inversion Hret; subst topology; clear Hret.
    unfold append_range. cbn -[seqZ].
    change (seqZ 0 (24 + 8)) with (seqZ 0 (32 - 0)).
    rewrite <- (seqZ_four_blocks 0 4 16 20 32) by lia.
    solve_Permutation. }
  destruct (Contains (Name sysInfo) "M3 Ultra" && (P =? 20) && (E =? 8)) eqn:C28.
  { apply andb_prop in C28 as [C28 He]. apply andb_prop in C28 as [_ Hp].
    apply Z.eqb_eq in He, Hp. rewrite He, Hp.
    intros Hret. inversion Hret; subst topology; clear Hret.
    unfold append_range. cbn -[seqZ].
    change (seqZ 0 (20 + 8)) with (seqZ 0 (28 - 0)).
    rewrite <- (seqZ_four_blocks 0 4 14 18 28) by lia.
    solve_Permutation. }
  destruct (Contains (Name sysInfo) "M4 Pro") eqn:CM4.
  { destruct (make_ints P) as [p0| |] eqn:Hp; try discriminate.
    destruct (make_ints E) as [e0| |] eqn:He; try discriminate.
    apply make_ints_Return in Hp as [-> HP], He as [-> HE].
    simpl. intros Hret. inversion Hret; subst topology; clear Hret. simpl.
    rewrite int_add_small by lia. unfold append_range. simpl.
    rewrite Permutation_app_comm.
    replace (seqZ 0 (P + E)) with (seqZ 0 (P + E - 0)) by (f_equal; lia).
    rewrite <- (seqZ_adjacent 0 E (P + E)) by lia. reflexivity. }
  destruct (Contains (Name sysInfo) "M1 Ultra" || Contains (Name sysInfo) "M2 Ultra") eqn:CLeg.
  { intros Hret.
    destruct (GetCoreTopology_LegacyUltra topology) as (HP & HE & -> & ->).
    - unfold layout_of. fold P E. rewrite C32, C28, CM4, CLeg. reflexivity.
    - unfold GetCoreTopology. fold P E. rewrite C32, C28, CM4, CLeg. exact Hret.
    - assert (0 <= P / 2 <= P) by (split; [apply Z.div_pos; lia | apply Z.div_le_upper_bound; lia]).
      assert (0 <= E / 2 <= E) by (split; [apply Z.div_pos; lia | apply Z.div_le_upper_bound; lia]).
      assert (2 * (P / 2) <= P) by (apply Z.mul_div_le; lia).
      replace (seqZ 0 (P + E)) with (seqZ 0 (P + E - 0)) by (f_equal; lia).
      rewrite <- (seqZ_four_blocks 0 (P / 2) (P / 2 + E / 2) (2 * (P / 2) + E / 2) (P + E)) by lia.
      replace (P / 2 - 0) with (P / 2) by lia.
      replace (P / 2 + E / 2 - P / 2) with (E / 2) by lia.
      replace (2 * (P / 2) + E / 2 - (P / 2 + E / 2)) with (P / 2) by lia.
      solve_Permutation. }
  destruct (make_ints P) as [p0| |] eqn:Hp; try discriminate.
  destruct (make_ints E) as [e0| |] eqn:He; try discriminate.
  apply make_ints_Return in Hp as [-> HP], He as [-> HE].
  simpl. intros Hret. inversion Hret; subst topology; clear Hret. simpl.
  rewrite int_add_small by lia. unfold append_range. simpl.
  replace (seqZ 0 (P + E)) with (seqZ 0 (P + E - 0)) by (f_equal; lia).
  rewrite <- (seqZ_adjacent 0 P (P + E)) by lia. reflexivity.
Qed.

(** C1. For non-negative core counts, whatever topology the resolver
    returns lists every index of [0, P+E) exactly once across
    [PCoreIndices] and [ECoreIndices], in each of the five cases; and
    the resolver does return when the counts fit a slice. *)
Theorem GetCoreTopology_partition :
  0 <= P -> 0 <= E ->
  (forall topology,
      GetCoreTopology sysInfo = Return topology ->
      covers_exactly topology (P + E) /\
      NoDup (PCoreIndices topology ++ ECoreIndices topology) /\
      (forall i, i ∈ PCoreIndices topology ++ ECoreIndices topology <-> 0 <= i < P + E)) /\
  (P <= maxSliceCap -> E <= maxSliceCap ->
   exists topology, GetCoreTopology sysInfo = Return topology).
Proof.
  intros HP HE. split.
  - intros topology Hret.
    pose proof (GetCoreTopology_covers_returned topology Hret) as Hcov.
    split; [exact Hcov|]. apply NoDup_covers. exact Hcov.
  - intros HP' HE'. apply GetCoreTopology_returns; lia.
Qed.

(** C6, as the code has it. In the legacy dual-die case each die gets
    P/2 performance cores followed by E/2 efficiency cores; the cores
    that an odd count leaves over, from index 2(P/2)+2(E/2) on, all end
    up in [ECoreIndices] behind die two. With even counts this is the
    layout of the specification. *)
Theorem legacy_ultra_leftover_cores (topology : CoreTopology) :
  layout_of sysInfo = LegacyUltra ->
  GetCoreTopology sysInfo = Return topology ->
  let p := P / 2 in
  let e := E / 2 in
  PCoreIndices topology = seqZ 0 p ++ seqZ (p + e) p /\
  ECoreIndices topology =
    seqZ p e ++ seqZ (2 * p + e) e ++ seqZ (2 * p + 2 * e) (P mod 2 + E mod 2) /\
  Z.of_nat (length (PCoreIndices topology)) = P - P mod 2 /\
  Z.of_nat (length (ECoreIndices topology)) = E + P mod 2 /\
  (P mod 2 = 0 -> E mod 2 = 0 ->
   (PCoreIndices topology, ECoreIndices topology) = legacy_layout_spec P E).
Proof.
  intros Hlayout Hret p e.
  destruct (GetCoreTopology_LegacyUltra topology Hlayout Hret) as (HP & HE & HPs & HEs).
  fold p e in HPs, HEs.
  assert (Hp : 0 <= p) by (apply Z.div_pos; lia).
  assert (He : 0 <= e) by (apply Z.div_pos; lia).
  assert (HPm : P = 2 * p + P mod 2) by (apply Z.div_mod; lia).
  assert (HEm : E = 2 * e + E mod 2) by (apply Z.div_mod; lia).
  assert (0 <= P mod 2 < 2) by (apply Z.mod_pos_bound; lia).
  assert (0 <= E mod 2 < 2) by (apply Z.mod_pos_bound; lia).
  assert (HEs' : ECoreIndices topology =
            seqZ p e ++ seqZ (2 * p + e) e ++ seqZ (2 * p + 2 * e) (P mod 2 + E mod 2)).
  { rewrite HEs. f_equal.
    replace (P + E - (2 * p + e)) with (e + (P mod 2 + E mod 2)) by lia.
    rewrite seqZ_app by lia. do 2 f_equal. lia. }
  split; [exact HPs|]. split; [exact HEs'|].
  split; [rewrite HPs, length_app, !length_seqZ; lia|].
  split; [rewrite HEs, length_app, !length_seqZ; lia|].
  intros HP0 HE0. unfold legacy_layout_spec. fold p e.
  rewrite HPs, HEs', HP0, HE0. cbn -[seqZ Z.mul Z.add Z.div].
  rewrite !(seqZ_nil _ 0) by lia. rewrite !app_nil_l, !app_nil_r.
  do 3 f_equal; lia.
Qed.

End Topology.

(** C1 on the M2 Ultra (16P + 8E). *)
Lemma GetCoreTopology_partition_witness :
  exists topology,
    GetCoreTopology m2_ultra = Return topology /\ covers_exactly topology 24.
Proof.
  destruct (GetCoreTopology_partition m2_ultra) as [Hcov Hret]; [simpl; lia | simpl; lia |].
  destruct Hret as [topology Hret]; [rewrite maxSliceCap_value; simpl; lia ..|].
  exists topology. split; [exact Hret|]. apply (Hcov topology Hret).
Defined.

(** C6 as worded fails on three performance and two efficiency cores: the
    resolver files the odd performance core, index 4, under the efficiency
    cores at the very end, where the specification keeps it a performance
    core at the tail of die one. *)
Lemma legacy_ultra_odd_counterexample :
  exists topology,
    layout_of m1_ultra_odd = LegacyUltra /\
    GetCoreTopology m1_ultra_odd = Return topology /\
    PCoreIndices topology = [0; 2] /\
    ECoreIndices topology = [1; 3; 4] /\
    legacy_layout_spec 3 2 = ([0; 2; 3], [1; 4]) /\
    (PCoreIndices topology, ECoreIndices topology) <> legacy_layout_spec 3 2.
Proof.
  eexists. repeat split; try reflexivity. vm_compute. discriminate.
Defined.

(** C6 as the code has it, on the same chip. *)
Lemma legacy_ultra_leftover_cores_witness :
  exists topology,
    GetCoreTopology m1_ultra_odd = Return topology /\
    Z.of_nat (length (PCoreIndices topology)) = 2 /\
    Z.of_nat (length (ECoreIndices topology)) = 3.
Proof.
  eexists. split; [reflexivity|].
  destruct (legacy_ultra_leftover_cores m1_ultra_odd _ eq_refl eq_refl)
    as (_ & _ & HP & HE & _).
  split; [exact HP | exact HE].
Defined.


(** ** Channels and the sends of [collectMetrics] *)

Section Mailbox.

Variable c : Category.

Lemma mailbox_set_mailbox (ch : chan (payload c)) (mb : Mailboxes) :
  mailbox c (set_mailbox c ch mb) = ch.
Proof. destruct c; reflexivity. Qed.

Lemma mailbox_set_mailbox_other (c' : Category) (ch : chan (payload c')) (mb : Mailboxes) :
  c' <> c -> mailbox c (set_mailbox c' ch mb) = mailbox c mb.
Proof. destruct c, c'; intros Hne; try reflexivity; contradiction. Qed.

(** The attempted send stores the value when the channel has room. *)
Lemma publish_empty (v : payload c) (mb : Mailboxes) :
  chan_cap (mailbox c mb) = 1%nat -> pending c mb = [] ->
  pending c (publish c v mb) = [v] /\ chan_cap (mailbox c (publish c v mb)) = 1%nat.
Proof.
  unfold pending, publish, chan_try_send, chan_send. intros Hcap Hbuf.
  rewrite mailbox_set_mailbox, Hcap, Hbuf. split; reflexivity.
Qed.

(** With a value still unread the [default] case runs: the channel keeps
    what it holds and the new value is gone, where a plain send would
    have had to wait. *)
Lemma publish_full (v0 v : payload c) (mb : Mailboxes) :
  chan_cap (mailbox c mb) = 1%nat -> pending c mb = [v0] ->
  pending c (publish c v mb) = [v0] /\ blocking_send c v mb = None.
Proof.
  unfold pending, publish, blocking_send, chan_try_send, chan_send. intros Hcap Hbuf.
  rewrite Hcap, Hbuf. simpl. rewrite mailbox_set_mailbox. split; [exact Hbuf | reflexivity].
Qed.

(** C2, as the code has it. Publishing [v1] and then [v2] into an empty
    mailbox with no read in between leaves exactly [v1]: the second
    publish finds the slot taken and drops [v2] where a plain send would
    have blocked; the next read returns [v1] and empties the mailbox, so
    [v2] is the value that cannot be recovered. *)
Theorem publish_twice_keeps_first (v1 v2 : payload c) (mb : Mailboxes) :
  chan_cap (mailbox c mb) = 1%nat ->
  pending c mb = [] ->
  let mb2 := publish c v2 (publish c v1 mb) in
  pending c mb2 = [v1] /\
  blocking_send c v2 (publish c v1 mb) = None /\
  exists mb3, consume c mb2 = Some (v1, mb3) /\ pending c mb3 = [].
Proof.
  intros Hcap Hbuf mb2.
  destruct (publish_empty v1 mb Hcap Hbuf) as [Hbuf1 Hcap1].
  destruct (publish_full v1 v2 _ Hcap1 Hbuf1) as [Hbuf2 Hblock].
  split; [exact Hbuf2|]. split; [exact Hblock|].
  unfold consume, chan_recv. unfold pending in Hbuf2. fold mb2 in Hbuf2.
  rewrite Hbuf2. simpl. eexists. split; [reflexivity|].
  unfold pending. rewrite mailbox_set_mailbox. reflexivity.
Qed.

End Mailbox.

(** C2 as worded fails: after two GPU snapshots are published into the
    fresh channel of [main], the channel holds the first, not the second. *)
Lemma publish_twice_counterexample :
  let v1 := gpu_sample 1000 10 in
  let v2 := gpu_sample 2000 20 in
  pending CatGPU (publish CatGPU v2 (publish CatGPU v1 main_channels)) = [v1] /\
  pending CatGPU (publish CatGPU v2 (publish CatGPU v1 main_channels)) <> [v2].
Proof. split; [reflexivity | discriminate]. Defined.

(** C2 as the code has it, on the same two snapshots. *)
Lemma publish_twice_keeps_first_witness :
  pending CatGPU
    (publish CatGPU (gpu_sample 2000 20) (publish CatGPU (gpu_sample 1000 10) main_channels))
  = [gpu_sample 1000 10].
Proof.
  apply (publish_twice_keeps_first CatGPU (gpu_sample 1000 10) (gpu_sample 2000 20)
           main_channels); reflexivity.
Defined.

(** C10. [collectMetrics] starts with one send of the zero value on each
    of the three channels, all before [cmd.Start()]; on the fresh channels
    of [main] none of them waits, and when the subprocess is about to be
    started every mailbox holds exactly that zero value, which is what a
    consumer reading then receives. *)
Theorem collectMetrics_sends_zero_first (updateInterval : string) :
  exists before after w,
    collectMetrics_startup updateInterval = before ++ Start :: after /\
    forallb (fun e => negb (is_start e)) before = true /\
    (forall c, filter (fun e => is_send_to c e = true) before = [Send c (zero_payload c)]) /\
    perform_all initial_world before = Some w /\
    subprocess_started w = false /\
    (forall c, pending c (mailboxes w) = [zero_payload c]) /\
    (forall c, exists mb, consume c (mailboxes w) = Some (zero_payload c, mb)).
Proof.
  exists (take 5 (collectMetrics_startup updateInterval)), [].
  eexists. split; [reflexivity|]. split; [reflexivity|].
  split; [intros []; reflexivity|].
  split; [reflexivity|]. split; [reflexivity|].
  split; [intros []; reflexivity|].
  intros []; eexists; reflexivity.
Qed.

(** ** CPU utilisation estimator *)

(** A zero denominator is not positive. *)
Lemma float_zero_not_positive (t : float) :
  (t =? 0)%float = true -> (0 <? t)%float = false.
Proof.
  rewrite FloatAxioms.eqb_spec, FloatAxioms.ltb_spec.
  change (Prim2SF 0) with (S754_zero false).
  unfold SFeqb, SFltb, SFcompare.
  destruct (Prim2SF t) as [s|s| |s m e]; try destruct s; intros H; try reflexivity; discriminate.
Qed.

Lemma is_nan_of_spec (x : float) : Prim2SF x = S754_nan -> is_nan x = true.
Proof.
  intros H. unfold is_nan. rewrite FloatAxioms.eqb_spec, H. reflexivity.
Qed.

(** What the two comparisons of the loop leave: a value of [0,100], or the
    NaN that neither comparison catches. *)
Lemma clamp_percent_range (x : float) :
  is_nan (clamp_percent x) = true \/
  ((0 <=? clamp_percent x)%float = true /\ (clamp_percent x <=? 100)%float = true).
Proof.
  unfold clamp_percent.
  destruct (x <? 0)%float eqn:Hneg; [right; split; reflexivity|].
  destruct (100 <? x)%float eqn:Hbig; [right; split; reflexivity|].
  rewrite FloatAxioms.ltb_spec in Hneg, Hbig.
  rewrite !FloatAxioms.leb_spec.
  change (Prim2SF 0) with (S754_zero false) in *.
  change (Prim2SF 100) with (S754_finite false 7036874417766400 (-46)) in *.
  destruct (Prim2SF x) as [s|s| |s m e] eqn:Hx.
  - right. split; reflexivity.
  - destruct s; discriminate.
  - left. apply is_nan_of_spec. assumption.
  - destruct s; [discriminate|]. right. split; [reflexivity|].
    unfold SFltb, SFleb, SFcompare in *.
    rewrite (Z.compare_antisym e (-46)) in Hbig.
    destruct (e ?= -46)%Z eqn:He; cbn [CompOpp] in Hbig; try reflexivity; try discriminate.
    rewrite Pos.compare_cont_spec in Hbig |- *.
    rewrite (Pos.compare_antisym m 7036874417766400) in Hbig.
    destruct (m ?= 7036874417766400)%positive; cbn in *; try reflexivity; discriminate.
Qed.

Lemma percentage_of_range (c l : CPUUsage) :
  is_nan (percentage_of c l) = true \/
  ((0 <=? percentage_of c l)%float = true /\ (percentage_of c l <=? 100)%float = true).
Proof.
  unfold percentage_of. destruct (0 <? totalDelta c l)%float.
  - apply clamp_percent_range.
  - right. split; reflexivity.
Qed.

Section Estimator.

Variables currentTimes last : list CPUUsage.

Lemma percentage_step_spec (percentages : list float) (i : nat) (c l : CPUUsage) :
  currentTimes !! i = Some c -> last !! i = Some l ->
  percentages !! i = Some 0%float ->
  exists percentages',
    percentage_step currentTimes last percentages i = Return percentages' /\
    length percentages' = length percentages /\
    percentages' !! i = Some (percentage_of c l) /\
    (forall j, j <> i -> percentages' !! j = percentages !! j).
Proof.
  intros Hc Hl Hp. unfold percentage_step, percentage_of, clamp_percent.
  rewrite Hc, Hl.
  assert (Hi : (i < length percentages)%nat) by (eapply lookup_lt_Some; eassumption).
  destruct (0 <? totalDelta c l)%float.
  - rewrite list_lookup_insert_eq by assumption.
    set (p := (activeDelta c l / totalDelta c l * 100)%float).
    eexists. split; [reflexivity|].
    destruct (p <? 0)%float; [|destruct (100 <? p)%float].
    + rewrite !length_insert. split; [reflexivity|].
      split; [apply list_lookup_insert_eq; rewrite length_insert; assumption|].
      intros j Hj. rewrite !list_lookup_insert_ne by congruence. reflexivity.
    + rewrite !length_insert. split; [reflexivity|].
      split; [apply list_lookup_insert_eq; rewrite length_insert; assumption|].
      intros j Hj. rewrite !list_lookup_insert_ne by congruence. reflexivity.
    + rewrite length_insert. split; [reflexivity|].
      split; [apply list_lookup_insert_eq; assumption|].
      intros j Hj. rewrite list_lookup_insert_ne by congruence. reflexivity.
  - rewrite Hp. change (0 <? 0)%float with false. change (100 <? 0)%float with false.
    eexists. split; [reflexivity|]. split; [reflexivity|]. split; [assumption|]. reflexivity.
Qed.

Lemma percentage_step_out_of_range (percentages : list float) (i : nat) :
  last !! i = None ->
  percentage_step currentTimes last percentages i = Panic "index out of range".
Proof.
  intros Hl. unfold percentage_step. rewrite Hl.
  destruct (currentTimes !! i); reflexivity.
Qed.

(** The loop from index [k] on, over slots that still hold the zero of
    [make]. *)
Lemma percentage_loop_spec (m : nat) :
  forall (k : nat) (percentages : list float),
    (k + m <= length currentTimes)%nat ->
    (k + m <= length last)%nat ->
    length percentages = length currentTimes ->
    (forall j, (k <= j < length currentTimes)%nat -> percentages !! j = Some 0%float) ->
    exists percentages',
      percentage_loop currentTimes last (seq k m) percentages = Return percentages' /\
      length percentages' = length currentTimes /\
      (forall j, (j < k \/ k + m <= j)%nat -> percentages' !! j = percentages !! j) /\
      (forall j c l, (k <= j < k + m)%nat ->
         currentTimes !! j = Some c -> last !! j = Some l ->
         percentages' !! j = Some (percentage_of c l)).
Proof.
  induction m as [|m IH]; intros k percentages Hcur Hlast Hlen Hzero.
  - exists percentages. simpl. repeat split; try assumption; try reflexivity.
    intros j c l Hj. lia.
  - destruct (lookup_lt_is_Some_2 currentTimes k) as [c Hc]; [lia|].
    destruct (lookup_lt_is_Some_2 last k) as [l Hl]; [lia|].
    destruct (percentage_step_spec percentages k c l Hc Hl) as (ps1 & Hstep & Hlen1 & Hk & Hother).
    { apply Hzero. lia. }
    destruct (IH (S k) ps1) as (ps2 & Hloop & Hlen2 & Hkeep & Hnew); try lia.
    { intros j Hj. rewrite Hother by lia. apply Hzero. lia. }
    exists ps2. split.
    { cbn [seq percentage_loop]. rewrite Hstep. exact Hloop. }
    split; [exact Hlen2|]. split.
    + intros j Hj. rewrite Hkeep by lia. apply Hother. lia.
    + intros j c' l' Hj Hc' Hl'.
      destruct (decide (j = k)) as [->|Hne].
      * rewrite Hkeep by lia. rewrite Hk. congruence.
      * apply Hnew; [lia | assumption | assumption].
Qed.

Lemma percentage_loop_app (xs ys : list nat) (percentages : list float) :
  percentage_loop currentTimes last (xs ++ ys) percentages =
  percentage_loop currentTimes last xs percentages ≫=
    percentage_loop currentTimes last ys.
Proof.
  revert percentages. induction xs as [|x xs IH]; intros percentages; [reflexivity|].
  cbn [app percentage_loop].
  destruct (percentage_step currentTimes last percentages x); try reflexivity.
  apply IH.
Qed.

(** A later call on at most as many cores as the stored snapshot has. *)
Lemma percentage_loop_within :
  (length currentTimes <= length last)%nat ->
  exists percentages,
    percentage_loop currentTimes last (seq 0 (length currentTimes))
      (replicate (length currentTimes) 0%float) = Return percentages /\
    length percentages = length currentTimes /\
    (forall i c l, currentTimes !! i = Some c -> last !! i = Some l ->
       percentages !! i = Some (percentage_of c l)).
Proof.
  intros Hle.
  destruct (percentage_loop_spec (length currentTimes) 0
              (replicate (length currentTimes) 0%float))
    as (ps & Hloop & Hlen & _ & Hnew); try lia.
  { apply length_replicate. }
  { intros j Hj. apply lookup_replicate_2. lia. }
  exists ps. split; [exact Hloop|]. split; [exact Hlen|].
  intros i c l Hc Hl. apply Hnew; try assumption.
  apply lookup_lt_Some in Hc. lia.
Qed.

(** A later call on more cores than the stored snapshot has. *)
Lemma percentage_loop_beyond :
  (length last < length currentTimes)%nat ->
  percentage_loop currentTimes last (seq 0 (length currentTimes))
    (replicate (length currentTimes) 0%float) = Panic "index out of range".
Proof.
  intros Hlt.
  replace (length currentTimes) with (length last + (length currentTimes - length last))%nat
    at 1 by lia.
  rewrite seq_app, percentage_loop_app.
  destruct (percentage_loop_spec (length last) 0
              (replicate (length currentTimes) 0%float))
    as (ps & Hloop & _); try lia.
  { apply length_replicate. }
  { intros j Hj. apply lookup_replicate_2. lia. }
  rewrite Hloop. cbn [mbind Outcome_bind outcome_bind].
  destruct (length currentTimes - length last)%nat as [|d] eqn:Hd; [lia|].
  cbn [seq percentage_loop Nat.add].
  rewrite percentage_step_out_of_range; [reflexivity|].
  apply lookup_ge_None. lia.
Qed.

End Estimator.

Lemma percentage_of_example (c l : CPUUsage) :
  (User c - User l = 10)%float -> (System c - System l = 5)%float ->
  (Idle c - Idle l = 85)%float -> (Nice c - Nice l = 0)%float ->
  percentage_of c l = 15%float.
Proof.
  intros Hu Hs Hi Hn. unfold percentage_of, totalDelta, activeDelta.
  rewrite Hu, Hs, Hi, Hn. reflexivity.
Qed.

(** A call after the first, on no more cores than the stored snapshot. *)
Lemma GetCPUPercentages_later (st : Estimator) (currentTimes : list CPUUsage) :
  firstRun st = false ->
  (length currentTimes <= length (lastCPUTimes st))%nat ->
  exists percentages,
    GetCPUPercentages (Ok currentTimes) st =
      Return (Ok percentages, {| lastCPUTimes := currentTimes; firstRun := false |}) /\
    length percentages = length currentTimes /\
    (forall i c l,
        currentTimes !! i = Some c -> lastCPUTimes st !! i = Some l ->
        percentages !! i = Some (percentage_of c l)).
Proof.
  intros Hfirst Hlen. unfold GetCPUPercentages. rewrite Hfirst.
  destruct (percentage_loop_within currentTimes (lastCPUTimes st) Hlen)
    as (ps & Hloop & Hlen' & Hps).
  exists ps. rewrite Hloop. repeat split; assumption.
Qed.

(** A call after the first, on more cores than the stored snapshot: the
    loop indexes [lastCPUTimes] past its end. *)
Lemma GetCPUPercentages_more_cores_panics (st : Estimator) (currentTimes : list CPUUsage) :
  firstRun st = false ->
  (length (lastCPUTimes st) < length currentTimes)%nat ->
  GetCPUPercentages (Ok currentTimes) st = Panic "index out of range".
Proof.
  intros Hfirst Hlen. unfold GetCPUPercentages. rewrite Hfirst.
  rewrite percentage_loop_beyond by assumption. reflexivity.
Qed.

(** A failed query leaves the estimator as it was. *)
Lemma GetCPUPercentages_query_error (st : Estimator) (msg : string) :
  GetCPUPercentages (Err msg) st = Return (Err msg, st).
Proof. reflexivity. Qed.

(** C3, as the code has it. The first call stores the snapshot and
    returns as many zeros as there are cores. A later call on the same
    number of cores stores the new snapshot and gives each core
    (Δactive / Δtotal) × 100 clamped to [0,100] when Δtotal is positive and
    0 otherwise; the result lies in [0,100] unless the quotient is a NaN, a
    zero Δtotal gives 0 and no NaN, and deltas
    (user 10, system 5, idle 85, nice 0) give 15. *)
Theorem GetCPUPercentages_spec (st : Estimator) (currentTimes : list CPUUsage) :
  (firstRun st = true ->
   GetCPUPercentages (Ok currentTimes) st =
     Return (Ok (replicate (length currentTimes) 0%float),
             {| lastCPUTimes := currentTimes; firstRun := false |})) /\
  (firstRun st = false ->
   length currentTimes = length (lastCPUTimes st) ->
   exists percentages,
     GetCPUPercentages (Ok currentTimes) st =
       Return (Ok percentages, {| lastCPUTimes := currentTimes; firstRun := false |}) /\
     length percentages = length currentTimes /\
     (forall i c l,
         currentTimes !! i = Some c -> lastCPUTimes st !! i = Some l ->
         exists p,
           percentages !! i = Some p /\
           p = (if (0 <? totalDelta c l)%float
                then clamp_percent (activeDelta c l / totalDelta c l * 100)%float
                else 0%float) /\
           (is_nan p = true \/ ((0 <=? p)%float = true /\ (p <=? 100)%float = true)) /\
           ((totalDelta c l =? 0)%float = true -> p = 0%float /\ is_nan p = false) /\
           ((User c - User l = 10)%float -> (System c - System l = 5)%float ->
            (Idle c - Idle l = 85)%float -> (Nice c - Nice l = 0)%float ->
            p = 15%float))).
Proof.
  split.
  - intros Hfirst. unfold GetCPUPercentages. rewrite Hfirst. reflexivity.
  - intros Hfirst Hlen.
    destruct (GetCPUPercentages_later st currentTimes Hfirst) as (ps & Hcall & Hlen' & Hps);
      [lia|].
    exists ps. split; [exact Hcall|]. split; [exact Hlen'|].
    intros i c l Hc Hl. exists (percentage_of c l).
    split; [apply Hps; assumption|]. split; [reflexivity|].
    split; [apply percentage_of_range|]. split.
    + intros Hzero. unfold percentage_of.
      rewrite (float_zero_not_positive _ Hzero). split; reflexivity.
    + apply percentage_of_example.
Qed.

(** C4, as the code has it. When a later query reports no more cores than
    the stored snapshot has, nothing is reset: core [i] gets its percentage
    against entry [i] of the old snapshot, the new snapshot is stored, and
    the call after that measures against the new snapshot. *)
Theorem GetCPUPercentages_fewer_cores (st : Estimator) (currentTimes next : list CPUUsage) :
  firstRun st = false ->
  (length currentTimes <= length (lastCPUTimes st))%nat ->
  (length next <= length currentTimes)%nat ->
  exists percentages percentages' st',
    GetCPUPercentages (Ok currentTimes) st = Return (Ok percentages, st') /\
    lastCPUTimes st' = currentTimes /\
    length percentages = length currentTimes /\
    (forall i c l,
        currentTimes !! i = Some c -> lastCPUTimes st !! i = Some l ->
        percentages !! i = Some (percentage_of c l)) /\
    GetCPUPercentages (Ok next) st' =
      Return (Ok percentages', {| lastCPUTimes := next; firstRun := false |}) /\
    (forall i c l,
        next !! i = Some c -> currentTimes !! i = Some l ->
        percentages' !! i = Some (percentage_of c l)).
Proof.
  intros Hfirst Hlen Hnext.
  destruct (GetCPUPercentages_later st currentTimes Hfirst Hlen) as (ps & Hcall & Hlen' & Hps).
  destruct (GetCPUPercentages_later {| lastCPUTimes := currentTimes; firstRun := false |}
              next eq_refl Hnext) as (ps' & Hcall' & _ & Hps').
  exists ps, ps', {| lastCPUTimes := currentTimes; firstRun := false |}.
  repeat split; assumption.
Qed.

(** C3 as the code has it, on two polls of one core, 100 ticks apart. *)
Lemma GetCPUPercentages_spec_witness :
  exists percentages st',
    GetCPUPercentages (Ok [usage 110 55 1085 0])
      {| lastCPUTimes := [usage 100 50 1000 0]; firstRun := false |}
    = Return (Ok percentages, st') /\
    percentages !! 0%nat = Some 15%float.
Proof.
  destruct (GetCPUPercentages_spec
              {| lastCPUTimes := [usage 100 50 1000 0]; firstRun := false |}
              [usage 110 55 1085 0]) as [_ Hlater].
  destruct (Hlater eq_refl eq_refl) as (ps & Hcall & _ & Hps).
  destruct (Hps 0%nat (usage 110 55 1085 0) (usage 100 50 1000 0) eq_refl eq_refl)
    as (p & Hp & _ & _ & _ & Hexample).
  exists ps. eexists. split; [exact Hcall|].
  rewrite Hp. f_equal. apply Hexample; reflexivity.
Defined.

(** C3 as worded fails when a tick counter wraps around between two
    calls: core 1 goes from user = 4294967290 to user = 5 with idle up by
    90, so its denominator is negative; the formula of the specification
    clamps to 100 and the code returns 0. *)
Lemma GetCPUPercentages_negative_delta_counterexample :
  exists c0 c l0 l st',
    GetCPUUsage 0 two_core_before = Ok [l0; l] /\
    GetCPUUsage 0 two_core_after = Ok [c0; c] /\
    GetCPUPercentages (GetCPUUsage 0 two_core_before) initial_estimator
      = Return (Ok [0%float; 0%float], two_core_estimator) /\
    GetCPUPercentages (GetCPUUsage 0 two_core_after) two_core_estimator
      = Return (Ok [15%float; 0%float], st') /\
    totalDelta c l = (-4294967195)%float /\
    percentage_spec c l = 100%float /\
    (100 =? 0)%float = false.
Proof.
  do 5 eexists. repeat split; reflexivity.
Defined.

(** C4 as worded fails both ways. After two cores, a poll of one core is
    answered with its percentage against the old entry, 15, not with a
    zero; a poll of three cores panics. *)
Lemma core_count_change_counterexample :
  (exists st',
     GetCPUPercentages (Ok [usage 110 55 1085 0]) two_core_estimator
       = Return (Ok [15%float], st')) /\
  replicate 1 0%float = [0%float] /\
  (15 =? 0)%float = false /\
  GetCPUPercentages
    (Ok [usage 110 55 1085 0; usage 5 0 90 0; usage 1 1 1 1]) two_core_estimator
    = Panic "index out of range".
Proof.
  split; [eexists; reflexivity|]. repeat split; reflexivity.
Defined.

(** C4 as the code has it: two cores, then one, then one again. *)
Lemma GetCPUPercentages_fewer_cores_witness :
  exists percentages percentages' st',
    GetCPUPercentages (Ok [usage 110 55 1085 0]) two_core_estimator
      = Return (Ok percentages, st') /\
    length percentages = 1%nat /\
    GetCPUPercentages (Ok [usage 120 60 1170 0]) st'
      = Return (Ok percentages', {| lastCPUTimes := [usage 120 60 1170 0]; firstRun := false |}).
Proof.
  destruct (GetCPUPercentages_fewer_cores two_core_estimator
              [usage 110 55 1085 0] [usage 120 60 1170 0])
    as (ps & ps' & st' & Hcall & _ & Hlen & _ & Hcall' & _);
    [reflexivity | simpl; lia | simpl; lia |].
  exists ps, ps', st'. repeat split; assumption.
Defined.

(** ** Metric extractors *)


Lemma rate_or_present (m : gmap string PValue) (key : string) (f : float -> float)
    (field rate : float) :
  m !! key = Some (PReal rate) -> rate_or m key f field = f rate.
Proof. unfold rate_or. intros ->. reflexivity. Qed.

Section Extractors.

Variable data : gmap string PValue.






(** C8. On a record that has the processor dictionary with cpu_power and
    gpu_power, the thermal_pressure string and the network dictionary
    with ibyte_rate, the extracted CPU power, GPU power and incoming
    throughput are the raw values divided by 1000. *)
Theorem extractors_divide_by_1000 (processor network : gmap string PValue)
    (thermal : string) (cpu_power gpu_power ibyte_rate : float) :
  data !! "processor"%string = Some (PDict processor) ->
  data !! "thermal_pressure"%string = Some (PString thermal) ->
  data !! "network"%string = Some (PDict network) ->
  processor !! "cpu_power"%string = Some (PReal cpu_power) ->
  processor !! "gpu_power"%string = Some (PReal gpu_power) ->
  network !! "ibyte_rate"%string = Some (PReal ibyte_rate) ->
  exists m,
    parseCPUMetrics data NewCPUMetrics = Return m /\
    CPUW m = (cpu_power / 1000)%float /\
    GPUW m = (gpu_power / 1000)%float /\
    InBytesPerSec (parseNetDiskMetrics data) = (ibyte_rate / 1000)%float.
Proof.
  intros Hp Ht Hn Hc Hg Hi. unfold parseCPUMetrics, parseNetDiskMetrics.
  rewrite Hp, Ht, Hn. cbn [as_dict as_string].
  eexists. split; [reflexivity|]. cbn [CPUW GPUW].
  rewrite (rate_or_present _ _ _ _ _ Hc), (rate_or_present _ _ _ _ _ Hg).
  split; [reflexivity|]. split; [reflexivity|].
  destruct (as_dict (data !! "disk"%string)); cbn [InBytesPerSec];
    rewrite (rate_or_present _ _ _ _ _ Hi); reflexivity.
Qed.

End Extractors.



(** C8 on the crafted record: 5000 gives 5, 2000 gives 2 and 1,000,000
    gives 1000. *)
Lemma extractors_divide_by_1000_witness :
  exists m,
    parseCPUMetrics crafted_sample NewCPUMetrics = Return m /\
    CPUW m = 5%float /\ GPUW m = 2%float /\
    InBytesPerSec (parseNetDiskMetrics crafted_sample) = 1000%float.
Proof.
  destruct (extractors_divide_by_1000 crafted_sample crafted_processor crafted_network
              "Nominal" 5000 2000 1000000) as (m & Hm & Hc & Hg & Hi);
    try (vm_compute; reflexivity).
  exists m. split; [exact Hm|]. rewrite Hc, Hg, Hi. repeat split; reflexivity.
Defined.

(** ** [bytes.Index] *)

Section Index.

Implicit Types (s t pat : list byte) (i j k : nat).

Lemma HasPrefix_take s pat : HasPrefix s pat = true <-> take (length pat) s = pat.
Proof.
  revert s. induction pat as [|p pat IH]; intros s.
  - destruct s; simpl; split; reflexivity.
  - destruct s as [|c s]; simpl.
    + split; discriminate.
    + rewrite andb_true_iff, IH. split.
      * intros [Hc Hs]. apply byte_dec_bl in Hc. congruence.
      * intros H. inversion H. subst. split; [apply byte_dec_lb; reflexivity|].
        congruence.
Qed.

Lemma occurs_at_0 pat s : occurs_at pat s 0 <-> HasPrefix s pat = true.
Proof. unfold occurs_at. rewrite drop_0. symmetry. apply HasPrefix_take. Qed.

Lemma occurs_at_S pat c s i : occurs_at pat (c :: s) (S i) <-> occurs_at pat s i.
Proof. reflexivity. Qed.

Lemma index_from_Some s pat i :
  index_from s pat = Some i <->
  occurs_at pat s i /\ (forall j, (j < i)%nat -> ~ occurs_at pat s j).
Proof.
  revert i. induction s as [|c s IH]; intros i.
  - cbn [index_from]. destruct (HasPrefix [] pat) eqn:H0.
    + apply occurs_at_0 in H0. split.
      * intros [= <-]. split; [assumption | intros j Hj; lia].
      * intros [_ Hmin]. destruct i as [|i]; [reflexivity|].
        exfalso. apply (Hmin 0%nat); [lia | assumption].
    + split; [discriminate|]. intros [Hocc _]. exfalso.
      assert (Hnil : pat = []).
      { unfold occurs_at in Hocc. rewrite drop_nil, take_nil in Hocc. congruence. }
      subst pat. discriminate.
  - cbn [index_from]. destruct (HasPrefix (c :: s) pat) eqn:H0.
    + pose proof (proj2 (occurs_at_0 pat (c :: s)) H0) as Hocc0. split.
      * intros [= <-]. split; [assumption | intros j Hj; lia].
      * intros [_ Hmin]. destruct i as [|i]; [reflexivity|].
        exfalso. apply (Hmin 0%nat); [lia | assumption].
    + assert (Hno0 : ~ occurs_at pat (c :: s) 0).
      { rewrite occurs_at_0. congruence. }
      split.
      * intros Hi. destruct (index_from s pat) as [i'|] eqn:Hs; [|discriminate].
        injection Hi as <-. destruct (proj1 (IH i') eq_refl) as [Hocc Hmin].
        split; [assumption|].
        intros [|j] Hj; [assumption|]. rewrite occurs_at_S. apply Hmin. lia.
      * intros [Hocc Hmin]. destruct i as [|i]; [contradiction|].
        assert (Hs : index_from s pat = Some i).
        { apply IH. split; [assumption|]. intros j Hj.
          rewrite <- (occurs_at_S pat c). apply Hmin. lia. }
        rewrite Hs. reflexivity.
Qed.

Lemma index_from_None s pat :
  index_from s pat = None <-> forall j, ~ occurs_at pat s j.
Proof.
  split.
  - intros Hnone j. induction j as [j IHj] using lt_wf_ind. intros Hocc.
    assert (Hsome : index_from s pat = Some j).
    { apply index_from_Some. split; [assumption|]. intros j' Hj'. apply IHj. assumption. }
    congruence.
  - intros Hno. destruct (index_from s pat) as [i|] eqn:Hi; [|reflexivity].
    apply index_from_Some in Hi as [Hocc _]. exfalso. apply (Hno i Hocc).
Qed.

Lemma Index_found s pat i : index_from s pat = Some i -> Index s pat = Z.of_nat i.
Proof. unfold Index. intros ->. reflexivity. Qed.

Lemma Index_absent s pat : Index s pat = -1 <-> forall j, ~ occurs_at pat s j.
Proof.
  rewrite <- index_from_None. unfold Index.
  destruct (index_from s pat); split; try reflexivity; try discriminate. lia.
Qed.

Lemma Index_first s pat i :
  occurs_at pat s i -> (forall j, (j < i)%nat -> ~ occurs_at pat s j) ->
  Index s pat = Z.of_nat i.
Proof. intros Hocc Hmin. apply Index_found, index_from_Some. split; assumption. Qed.

Lemma Index_nonneg_first s pat :
  0 <= Index s pat ->
  exists i, Index s pat = Z.of_nat i /\ occurs_at pat s i /\
            (forall j, (j < i)%nat -> ~ occurs_at pat s j).
Proof.
  unfold Index. destruct (index_from s pat) as [i|] eqn:Hi; [|lia].
  intros _. exists i. split; [reflexivity|]. apply index_from_Some. assumption.
Qed.

(** *** Where an occurrence can lie *)

Lemma occurs_at_length pat s i :
  pat <> [] -> occurs_at pat s i -> (i + length pat <= length s)%nat.
Proof.
  unfold occurs_at. intros Hne Hocc.
  apply (f_equal length) in Hocc. rewrite length_take, length_drop in Hocc.
  destruct pat as [|p pat]; [contradiction|]. cbn [length] in *. lia.
Qed.

Lemma occurs_at_app_l pat s t i :
  (i + length pat <= length s)%nat ->
  occurs_at pat (s ++ t) i <-> occurs_at pat s i.
Proof.
  intros Hfit. unfold occurs_at.
  rewrite drop_app_le by lia.
  rewrite take_app_le by (rewrite length_drop; lia). reflexivity.
Qed.

Lemma occurs_at_app_r pat s t i :
  occurs_at pat (s ++ t) (length s + i) <-> occurs_at pat t i.
Proof. unfold occurs_at. rewrite drop_app_add. reflexivity. Qed.

Lemma occurs_at_extend pat s t i :
  pat <> [] -> occurs_at pat s i -> occurs_at pat (s ++ t) i.
Proof.
  intros Hne Hocc. apply occurs_at_app_l; [|assumption].
  apply occurs_at_length; assumption.
Qed.

Lemma occurs_at_lookup pat s i k c :
  occurs_at pat s i -> pat !! k = Some c -> s !! (i + k)%nat = Some c.
Proof.
  unfold occurs_at. intros Hocc Hk. rewrite <- Hocc in Hk.
  apply lookup_take_Some in Hk as [Hk _]. rewrite lookup_drop in Hk. assumption.
Qed.

(** Appending bytes does not move the first occurrence. *)
Lemma Index_app_stable s t pat :
  pat <> [] -> 0 <= Index s pat -> Index (s ++ t) pat = Index s pat.
Proof.
  intros Hne Hfound.
  destruct (Index_nonneg_first s pat Hfound) as (i & Hi & Hocc & Hmin).
  rewrite Hi. apply Index_first.
  - apply occurs_at_extend; assumption.
  - intros j Hj Hocc'. apply (Hmin j Hj).
    apply (occurs_at_app_l pat s t j); [|assumption].
    pose proof (occurs_at_length pat s i Hne Hocc). lia.
Qed.

(** No occurrence in a prefix of bytes that have none. *)
Lemma Index_absent_prefix s t pat :
  pat <> [] -> Index (s ++ t) pat = -1 -> Index s pat = -1.
Proof.
  intros Hne Habs. apply Index_absent. intros j Hocc.
  apply (proj1 (Index_absent _ _) Habs j). apply occurs_at_extend; assumption.
Qed.

End Index.

(** ** The inline topology of [runHeadless] against the resolver *)

(** A name that contains a pattern contains the beginning of the pattern. *)
Lemma Contains_shorter (name long short : string) (rest : list byte) :
  bytes long = bytes short ++ rest -> bytes short <> [] ->
  Contains name long = true -> Contains name short = true.
Proof.
  unfold Contains. intros Hpat Hne Hlong. apply Z.leb_le in Hlong. apply Z.leb_le.
  destruct (Index_nonneg_first _ _ Hlong) as (i & _ & Hocc & _).
  unfold Index. destruct (index_from (bytes name) (bytes short)) as [k|] eqn:Hk; [lia|].
  exfalso. apply (proj1 (index_from_None _ _) Hk i).
  unfold occurs_at in *. rewrite Hpat in Hocc.
  apply (f_equal (take (length (bytes short)))) in Hocc.
  rewrite take_take, take_app_length in Hocc.
  rewrite length_app in Hocc.
  replace (length (bytes short) `min` (length (bytes short) + length rest))%nat
    with (length (bytes short)) in Hocc by lia.
  exact Hocc.
Qed.

Lemma legacy_name_is_interleaved (sysInfo : SystemInfo) :
  layout_of sysInfo = LegacyUltra ->
  Contains (Name sysInfo) "M1" || Contains (Name sysInfo) "M2" = true.
Proof.
  unfold layout_of.
  repeat match goal with
         | |- context [if ?b then _ else _] => destruct b eqn:?; try discriminate
         end.
  intros _.
  match goal with H : _ || _ = true |- _ => apply orb_true_iff in H as [H|H] end.
  - rewrite (Contains_shorter _ "M1 Ultra" "M1" (bytes " Ultra")); [reflexivity | reflexivity | discriminate | assumption].
  - rewrite (Contains_shorter _ "M2 Ultra" "M2" (bytes " Ultra")); [apply orb_true_r | reflexivity | discriminate | assumption].
Qed.

(** The bounded loop reads a range of indices cut off at [len]. *)
Lemma for_indices_range (n base len : Z) (fuel : nat) :
  0 <= base <= 4 * maxSliceCap -> n <= maxSliceCap ->
  forall (i : Z) (visited : list Z),
    0 <= i -> fuel = Z.to_nat (n - i) ->
    for_indices fuel i n base len visited =
      visited ++ seqZ (base + i) (Z.min (n - i) (len - (base + i))).
Proof.
  rewrite maxSliceCap_value. intros Hbase Hn.
  induction fuel as [|fuel IH]; intros i visited Hi Hfuel.
  - cbn [for_indices]. rewrite seqZ_nil by lia. rewrite app_nil_r. reflexivity.
  - cbn [for_indices].
    assert (Hin : i < n) by lia.
    assert (Hadd : int_add base i = base + i).
    { apply wrap_small. unfold int_min, int_max. lia. }
    assert (Hinc : int_add i 1 = i + 1).
    { apply wrap_small. unfold int_min, int_max. lia. }
    rewrite Hadd, Hinc.
    destruct (i <? n) eqn:Hlt; [|apply Z.ltb_ge in Hlt; lia]. cbn [andb].
    destruct (base + i <? len) eqn:Hlen.
    + apply Z.ltb_lt in Hlen. rewrite IH by lia.
      rewrite <- app_assoc. f_equal.
      rewrite (seqZ_cons (base + i)) by lia. cbn [app]. f_equal.
      f_equal; lia.
    + apply Z.ltb_ge in Hlen. rewrite seqZ_nil by lia. rewrite app_nil_r. reflexivity.
Qed.

Lemma loop_indices_range (n base len : Z) (visited : list Z) :
  0 <= base <= 4 * maxSliceCap -> n <= maxSliceCap ->
  loop_indices n base len visited = visited ++ seqZ base (Z.min n (len - base)).
Proof.
  intros Hbase Hn. unfold loop_indices.
  rewrite (for_indices_range n base len _ Hbase Hn 0 visited) by (try lia; f_equal; lia).
  do 2 f_equal; [lia | f_equal; lia].
Qed.

(** The guard [idx < len(percentages)] keeps the part of a range below
    [len]. *)
Lemma counted_indices_range (a len : Z) (k : nat) :
  counted_indices (seqZ a (Z.of_nat k)) len = seqZ a (Z.min (Z.of_nat k) (len - a)).
Proof.
  unfold counted_indices. induction k as [|k IH].
  - change (Z.of_nat 0) with 0.
    rewrite (seqZ_nil a 0), (seqZ_nil a (Z.min 0 (len - a))) by lia. apply filter_nil.
  - replace (Z.of_nat (S k)) with (Z.of_nat k + 1) by lia.
    rewrite seqZ_app by lia. rewrite filter_app, IH.
    rewrite (seqZ_cons (a + Z.of_nat k) 1), (seqZ_nil _ (Z.pred 1)) by lia.
    destruct (decide (a + Z.of_nat k < len)) as [Hlt|Hge].
    + rewrite filter_cons_True by assumption. rewrite filter_nil.
      rewrite !Z.min_l by lia. rewrite seqZ_app by lia. reflexivity.
    + rewrite filter_cons_False by assumption. rewrite filter_nil, app_nil_r.
      f_equal. lia.
Qed.

Lemma counted_indices_seqZ (a n len : Z) :
  counted_indices (seqZ a n) len = seqZ a (Z.min n (len - a)).
Proof.
  destruct (decide (0 <= n)) as [Hn|Hn].
  - rewrite <- (Z2Nat.id n Hn) at 1. rewrite counted_indices_range.
    rewrite Z2Nat.id by assumption. reflexivity.
  - rewrite !seqZ_nil by lia. reflexivity.
Qed.

Lemma counted_indices_app (xs ys : list Z) (len : Z) :
  counted_indices (xs ++ ys) len = counted_indices xs len ++ counted_indices ys len.
Proof. apply filter_app. Qed.

(** X18. With even counts and the Ultra flag set, the inline loops and the
    resolver count the same cores in each class; the disagreement of C7
    needs an odd count. *)
Lemma legacy_ultra_even_counts_agree (sysInfo : SystemInfo) (topology : CoreTopology)
    (len : Z) :
  layout_of sysInfo = LegacyUltra ->
  IsUltra sysInfo = true ->
  GetCoreTopology sysInfo = Return topology ->
  PCoreCount sysInfo mod 2 = 0 -> ECoreCount sysInfo mod 2 = 0 ->
  inline_classes sysInfo len = resolver_classes topology len.
Proof.
  intros Hlayout Hultra Hret HP0 HE0.
  destruct (GetCoreTopology_LegacyUltra sysInfo topology Hlayout Hret)
    as (HP & HE & HPs & HEs).
  set (P := PCoreCount sysInfo) in *. set (E := ECoreCount sysInfo) in *.
  assert (HPd : P = 2 * (P / 2)) by (rewrite (Z.div_mod P 2) at 1; lia).
  assert (HEd : E = 2 * (E / 2)) by (rewrite (Z.div_mod E 2) at 1; lia).
  set (p := P / 2) in *. set (e := E / 2) in *.
  unfold inline_classes, resolver_classes. fold P E.
  rewrite Hultra, (legacy_name_is_interleaved sysInfo Hlayout). cbn [andb].
  pose proof maxSliceCap_value as Hcap.
  rewrite !int_div_2_small by lia. fold p e.
  unfold die_indices. cbn [fst snd].
  assert (H0 : int_mul 0 (int_add p e) = 0) by reflexivity.
  assert (Hpe : int_add p e = p + e) by (apply int_add_small; lia).
  assert (H1 : int_mul 1 (int_add p e) = p + e).
  { rewrite Hpe. unfold int_mul. rewrite Z.mul_1_l.
    apply wrap_small. unfold int_min, int_max. lia. }
  rewrite H0, H1.
  assert (H0p : int_add 0 p = p) by (apply int_add_small; lia).
  assert (H1p : int_add (p + e) p = 2 * p + e).
  { rewrite int_add_small by lia. lia. }
  rewrite H0p, H1p.
  rewrite !loop_indices_range by lia.
  rewrite HPs, HEs, !counted_indices_app, !counted_indices_seqZ.
  cbn [app]. f_equal; f_equal; f_equal; lia.
Qed.

(** The inline code takes its per-die path only when the Ultra flag is
    set. With the flag unset on the M2 Ultra it counts cores 0-15 as
    performance cores, where the resolver has cores 8-11 as the efficiency
    cores of die one. *)
Lemma legacy_ultra_flag_unset_disagree :
  exists topology,
    GetCoreTopology m2_ultra_unflagged = Return topology /\
    class_of (resolver_classes topology 24) 8 = Some Efficiency /\
    class_of (inline_classes m2_ultra_unflagged 24) 8 = Some Performance.
Proof. eexists. split; [reflexivity|]. split; vm_compute; reflexivity. Qed.

(** ** The split function *)

Lemma xml_marker_bytes : xml_marker = [x3c; x3f; x78; x6d; x6c].
Proof. reflexivity. Qed.

Lemma plist_marker_bytes : plist_marker = [x3c; x70; x6c; x69; x73; x74].
Proof. reflexivity. Qed.

Lemma end_marker_bytes : end_marker = [x3c; x2f; x70; x6c; x69; x73; x74; x3e].
Proof. reflexivity. Qed.

(** A marker has its only ['<'] in front. *)
Lemma marker_tail (m : list byte) (k : nat) (c : byte) :
  is_marker m -> (1 <= k)%nat -> m !! k = Some c -> c <> x3c.
Proof.
  intros [-> | [-> | ->]] Hk;
    do 9 (destruct k as [|k]; [try lia; cbn; intros [= <-]; discriminate|]);
    cbn; discriminate.
Qed.

(** In bytes free of a marker followed by a ['<'], the marker cannot
    begin before that ['<']. *)
Lemma marker_not_before (m n rest : list byte) (j : nat) :
  is_marker m -> Index n m = -1 ->
  occurs_at m (n ++ x3c :: rest) j -> (length n <= j)%nat.
Proof.
  intros Hm Hfree Hocc.
  destruct (decide (length n <= j)%nat) as [|Hlt]; [assumption|]. exfalso.
  destruct (decide (j + length m <= length n)%nat) as [Hin|Hout].
  - apply (proj1 (Index_absent _ _) Hfree j).
    apply (occurs_at_app_l m n (x3c :: rest) j Hin). assumption.
  - destruct (lookup_lt_is_Some_2 m (length n - j)) as [c Hc]; [lia|].
    pose proof (occurs_at_lookup _ _ _ _ _ Hocc Hc) as Hlook.
    replace (j + (length n - j))%nat with (length n + 0)%nat in Hlook by lia.
    rewrite lookup_app_r, Nat.add_comm, Nat.add_sub in Hlook by lia.
    injection Hlook as <-.
    apply (marker_tail m (length n - j) x3c Hm); [lia | assumption | reflexivity].
Qed.

Lemma len_app (a b : list byte) : len (a ++ b) = len a + len b.
Proof. unfold len. rewrite length_app. lia. Qed.

Lemma len_nonneg (a : list byte) : 0 <= len a.
Proof. unfold len. lia. Qed.

Lemma slice_from_app (a b : list byte) : slice_from (a ++ b) (len a) = b.
Proof.
  unfold slice_from, len. rewrite Nat2Z.id. apply drop_app_length.
Qed.

Lemma slice_app (a b c : list byte) : slice (a ++ b ++ c) (len a) (len a + len b) = b.
Proof.
  unfold slice, len.
  replace (Z.of_nat (length a) + Z.of_nat (length b) - Z.of_nat (length a))
    with (Z.of_nat (length b)) by lia.
  rewrite !Nat2Z.id, drop_app_length. apply take_app_length.
Qed.

Section Split.

Variables marker n body more : list byte.
Let r := record_of marker body.

Hypothesis marker_ok : start_marker marker.
Hypothesis noise_n : noise n.
Hypothesis closed_r : Index r end_marker = len (marker ++ body).
Hypothesis xml_free : marker = plist_marker -> Index (r ++ more) xml_marker = -1.

Lemma marker_head : exists rest, marker = x3c :: rest.
Proof. destruct marker_ok as [Hm|Hm]; rewrite Hm; eexists; reflexivity. Qed.

Lemma record_head : exists rest, r = x3c :: rest.
Proof.
  destruct marker_head as [rest Hm]. unfold r, record_of. rewrite Hm.
  eexists. reflexivity.
Qed.

Lemma record_len : len r = len (marker ++ body) + 8.
Proof. unfold r, record_of. rewrite app_assoc, len_app. reflexivity. Qed.

Lemma record_starts_with_marker (mid : list byte) : occurs_at marker (r ++ mid) 0.
Proof.
  apply occurs_at_0, HasPrefix_take. unfold r, record_of.
  rewrite <- app_assoc. apply take_app_length.
Qed.

(** Within noise followed by a record, a start marker does not begin
    before the record. *)
Lemma start_not_in_noise (m mid : list byte) (j : nat) :
  start_marker m ->
  occurs_at m (n ++ r ++ mid) j -> (length n <= j)%nat.
Proof.
  intros Hm. destruct record_head as [rest ->]. cbn [app].
  destruct noise_n as (Hx & Hp & _).
  apply marker_not_before.
  - destruct Hm as [->| ->]; [left | right; left]; reflexivity.
  - destruct Hm as [->| ->]; assumption.
Qed.

Lemma Index_marker_at_record (mid : list byte) :
  Index (n ++ r ++ mid) marker = len n.
Proof.
  apply Index_first.
  - rewrite <- (Nat.add_0_r (length n)). apply occurs_at_app_r, record_starts_with_marker.
  - intros j Hj Hocc. apply start_not_in_noise in Hocc; [lia | exact marker_ok].
Qed.

(** Before and inside a record that begins with the second start marker
    there is no XML declaration. *)
Lemma xml_absent (mid rest : list byte) :
  marker = plist_marker -> more = mid ++ rest ->
  Index (n ++ r ++ mid) xml_marker = -1.
Proof.
  intros Hm Hmore.
  apply (Index_absent_prefix _ rest); [discriminate|].
  rewrite <- !app_assoc, <- Hmore.
  apply Index_absent. intros j Hocc.
  pose proof (start_not_in_noise xml_marker more j (or_introl eq_refl) Hocc) as Hj.
  replace j with (length n + (j - length n))%nat in Hocc by lia.
  apply occurs_at_app_r in Hocc.
  apply (proj1 (Index_absent _ _) (xml_free Hm) _ Hocc).
Qed.

(** The start that the split function settles on once the marker of the
    record is in the buffer. *)
Lemma start_at_record (mid rest : list byte) :
  more = mid ++ rest ->
  (if Index (n ++ r ++ mid) xml_marker =? -1
   then Index (n ++ r ++ mid) plist_marker
   else Index (n ++ r ++ mid) xml_marker) = len n.
Proof.
  intros Hmore. pose proof (Index_marker_at_record mid) as Hat.
  pose proof (len_nonneg n) as Hn.
  destruct marker_ok as [Hm|Hm].
  - rewrite Hm in Hat. rewrite Hat.
    destruct (len n =? -1) eqn:Hm1; [apply Z.eqb_eq in Hm1; lia | reflexivity].
  - rewrite (xml_absent mid rest Hm Hmore). rewrite Hm in Hat. exact Hat.
Qed.

(** The buffer holds the noise and the whole record: the record is the
    token, and the input advances to its end. *)
Lemma splitFn_complete (mid rest : list byte) (atEOF : bool) :
  more = mid ++ rest ->
  splitFn (n ++ r ++ mid) atEOF = (len (n ++ r), Some r).
Proof.
  intros Hmore. unfold splitFn.
  assert (Hlen : (len (n ++ r ++ mid) =? 0) = false).
  { apply Z.eqb_neq. rewrite !len_app, record_len.
    pose proof (len_nonneg n). pose proof (len_nonneg mid).
    pose proof (len_nonneg (marker ++ body)). lia. }
  rewrite Hlen, andb_false_r. cbv zeta.
  rewrite (start_at_record mid rest Hmore).
  pose proof (len_nonneg n) as Hn.
  destruct (0 <=? len n) eqn:Hpos; [|apply Z.leb_gt in Hpos; lia].
  rewrite slice_from_app.
  rewrite Index_app_stable;
    [| discriminate | rewrite closed_r; apply len_nonneg].
  rewrite closed_r.
  destruct (0 <=? len (marker ++ body)) eqn:Hpos';
    [|apply Z.leb_gt in Hpos'; pose proof (len_nonneg (marker ++ body)); lia].
  replace (len n + len (marker ++ body) + 8)
    with (len n + len r) by (rewrite record_len; lia).
  rewrite slice_app, (len_app n r). reflexivity.
Qed.

(** The buffer ends inside the record, or before it: more bytes are asked
    for. *)
Lemma splitFn_incomplete (data tail : list byte) :
  data ++ tail = n ++ r -> tail <> [] -> splitFn data false = (0, None).
Proof.
  intros Hsplit Htail. unfold splitFn. cbn [andb]. cbv zeta.
  assert (Hlens : (length data + length tail = length n + length r)%nat).
  { rewrite <- !length_app, Hsplit. reflexivity. }
  assert (Htl : (0 < length tail)%nat) by (destruct tail; [contradiction | simpl; lia]).
  assert (Hstart : forall m j, start_marker m ->
            occurs_at m data j -> (length n <= j /\ j + length m <= length data)%nat).
  { intros m j Hm Hocc.
    assert (Hne : m <> []) by (destruct Hm as [->| ->]; discriminate).
    split; [|apply occurs_at_length; assumption].
    apply (start_not_in_noise m [] j Hm).
    rewrite app_nil_r, <- Hsplit. apply occurs_at_extend; assumption. }
  assert (Hml : (5 <= length marker <= 6)%nat).
  { destruct marker_ok as [Hm|Hm]; rewrite Hm; cbn; lia. }
  assert (Hxml : marker = plist_marker -> Index data xml_marker = -1).
  { intros Hm. apply (Index_absent_prefix _ tail); [discriminate|].
    rewrite Hsplit, <- (app_nil_r r).
    apply (xml_absent [] more Hm). reflexivity. }
  destruct (decide (length data < length n + length marker)%nat) as [Hshort|Hlong].
  - assert (Hx : Index data xml_marker = -1).
    { destruct marker_ok as [Hm|Hm]; [|apply Hxml; assumption].
      apply Index_absent. intros j Hocc.
      apply Hstart in Hocc; [|left; reflexivity].
      rewrite Hm in Hshort. cbn in Hocc, Hshort. lia. }
    assert (Hp : Index data plist_marker = -1).
    { apply Index_absent. intros j Hocc.
      apply Hstart in Hocc; [|right; reflexivity]. cbn in Hocc. lia. }
    rewrite Hx, Hp. reflexivity.
  - assert (Hat : Index data marker = len n).
    { apply Index_first.
      - apply (occurs_at_app_l marker data tail (length n)); [lia|].
        rewrite Hsplit. rewrite <- (Nat.add_0_r (length n)), <- (app_nil_r r).
        apply occurs_at_app_r, record_starts_with_marker.
      - intros j Hj Hocc. apply Hstart in Hocc; [lia | exact marker_ok]. }
    pose proof (len_nonneg n) as Hn.
    assert (Hchosen : (if Index data xml_marker =? -1
                       then Index data plist_marker
                       else Index data xml_marker) = len n).
    { destruct marker_ok as [Hm|Hm].
      - rewrite Hm in Hat. rewrite Hat.
        destruct (len n =? -1) eqn:Hm1; [apply Z.eqb_eq in Hm1; lia | reflexivity].
      - rewrite (Hxml Hm). rewrite Hm in Hat. exact Hat. }
    rewrite Hchosen.
    destruct (0 <=? len n) eqn:Hpos; [|apply Z.leb_gt in Hpos; lia].
    assert (Hrest : slice_from data (len n) ++ tail = r).
    { unfold slice_from, len. rewrite Nat2Z.id.
      rewrite <- drop_app_le by lia. rewrite Hsplit. apply drop_app_length. }
    assert (He : Index (slice_from data (len n)) end_marker = -1).
    { apply Index_absent. intros j Hocc.
      assert (Hend : end_marker <> []) by (rewrite end_marker_bytes; discriminate).
      pose proof (occurs_at_length _ _ _ Hend Hocc) as Hfit.
      apply (occurs_at_extend _ _ tail) in Hocc; [|assumption].
      rewrite Hrest in Hocc.
      destruct (Index_nonneg_first r end_marker) as (i & Hi & _ & Hmin).
      { rewrite closed_r. apply len_nonneg. }
      apply (Hmin j); [|assumption].
      apply (f_equal length) in Hrest. rewrite length_app in Hrest.
      assert (Hri : Z.of_nat (length r) = Z.of_nat i + 8).
      { rewrite <- Hi, closed_r. apply record_len. }
      change (length end_marker) with 8%nat in Hfit. lia. }
    rewrite He. reflexivity.
Qed.

End Split.

(** Noise never yields a token: with more input to come the split function
    asks for it, and at end of input it discards what is left. *)
Lemma splitFn_noise (data tail : list byte) (atEOF : bool) :
  noise (data ++ tail) ->
  splitFn data atEOF = (if atEOF then len data else 0, None).
Proof.
  intros (Hx & Hp & _). unfold splitFn.
  apply Index_absent_prefix in Hx; [|discriminate].
  apply Index_absent_prefix in Hp; [|discriminate].
  rewrite Hx, Hp. cbn [Z.eqb]. 
  destruct atEOF; cbn [andb]; [|reflexivity].
  destruct (len data =? 0) eqn:H0; [|reflexivity].
  apply Z.eqb_eq in H0. rewrite H0. reflexivity.
Qed.

(** ** The Scanner *)

Lemma buffer_len_bufferSize : Z.of_nat buffer_len = bufferSize.
Proof. unfold buffer_len. apply Z2Nat.id. unfold bufferSize. lia. Qed.

Lemma read_some_Some (room : nat) (reads reads' : list (list byte)) (got : list byte) :
  (0 < room)%nat -> read_some room reads = Some (got, reads') ->
  got <> [] /\ (length got <= room)%nat /\ got ++ concat reads' = concat reads.
Proof.
  intros Hroom. induction reads as [|chunk reads IH]; [discriminate|].
  destruct chunk as [|c chunk].
  - cbn [read_some concat app]. exact IH.
  - cbn [read_some].
    destruct (length (c :: chunk) <=? room)%nat eqn:Hfit; intros [= <- <-].
    + apply Nat.leb_le in Hfit. repeat split; [discriminate | assumption].
    + split; [destruct room; [lia | discriminate]|].
      split; [rewrite length_take; lia|].
      cbn [concat]. rewrite app_assoc, take_drop. reflexivity.
Qed.

Lemma read_some_None (room : nat) (reads : list (list byte)) :
  read_some room reads = None -> concat reads = [].
Proof.
  induction reads as [|chunk reads IH]; [reflexivity|].
  destruct chunk as [|c chunk].
  - cbn [read_some concat app]. exact IH.
  - cbn [read_some]. destruct (length (c :: chunk) <=? room)%nat; discriminate.
Qed.

Lemma sc_advance_within (s : Scanner) (n : Z) :
  0 <= n <= len (sc_data s) ->
  sc_advance s n =
    ({| sc_reads := sc_reads s; sc_start := (sc_start s + Z.to_nat n)%nat;
        sc_data := drop (Z.to_nat n) (sc_data s); sc_err := sc_err s |}, true).
Proof.
  intros Hn. unfold sc_advance.
  destruct (n <? 0) eqn:Hneg; [apply Z.ltb_lt in Hneg; lia|].
  destruct (len (sc_data s) <? n) eqn:Hfar; [apply Z.ltb_lt in Hfar; lia|].
  reflexivity.
Qed.

Lemma sc_advance_0 (s : Scanner) : sc_advance s 0 = (s, true).
Proof.
  rewrite sc_advance_within by (pose proof (len_nonneg (sc_data s)); lia).
  destruct s as [reads start data err]. cbn [sc_reads sc_start sc_data sc_err].
  change (Z.to_nat 0) with 0%nat. rewrite Nat.add_0_r, drop_0. reflexivity.
Qed.

(** Reading more when the held bytes leave room in the buffer: either
    bytes arrive, or the input is at its end. *)
Lemma sc_fill_room (s : Scanner) :
  sc_ok s -> sc_err s = None -> (length (sc_data s) < buffer_len)%nat ->
  exists s',
    sc_fill s = inl s' /\ sc_ok s' /\ sc_remaining s' = sc_remaining s /\
    ((sc_err s' = None /\ (reads_size (sc_reads s') < reads_size (sc_reads s))%nat) \/
     (sc_err s' = Some EOF /\ sc_data s' = sc_data s /\ concat (sc_reads s) = [])).
Proof.
  intros [Hend _] Herr Hroom. unfold sc_fill. rewrite Herr.
  unfold sc_end in *.
  set (start := if (0 <? sc_start s)%nat &&
                   ((sc_start s + length (sc_data s) =? buffer_len)%nat
                    || (buffer_len / 2 <? sc_start s)%nat)
                then 0%nat else sc_start s).
  assert (Hstart : (start + length (sc_data s) < buffer_len)%nat).
  { subst start.
    destruct (0 <? sc_start s)%nat eqn:H0; cbn [andb].
    - destruct (sc_start s + length (sc_data s) =? buffer_len)%nat eqn:Hfull; cbn [orb].
      + lia.
      + apply Nat.eqb_neq in Hfull.
        destruct (buffer_len / 2 <? sc_start s)%nat; lia.
    - apply Nat.ltb_ge in H0. lia. }
  destruct (start + length (sc_data s) =? buffer_len)%nat eqn:Hfull;
    [apply Nat.eqb_eq in Hfull; lia|].
  destruct (read_some (buffer_len - (start + length (sc_data s))) (sc_reads s))
    as [[got reads']|] eqn:Hread.
  - apply read_some_Some in Hread as (Hgot & Hfit & Hcat); [|lia].
    eexists. split; [reflexivity|]. split; [|split].
    + split; [|left; reflexivity].
      unfold sc_end. cbn [sc_start sc_data]. rewrite length_app. lia.
    + unfold sc_remaining. cbn [sc_data sc_reads]. rewrite <- app_assoc, Hcat. reflexivity.
    + left. split; [reflexivity|]. cbn [sc_reads]. unfold reads_size.
      rewrite <- Hcat, length_app. destruct got; [contradiction | cbn [length]; lia].
  - apply read_some_None in Hread.
    eexists. split; [reflexivity|]. split; [|split].
    + split; [|right; split; reflexivity].
      unfold sc_end. cbn [sc_start sc_data]. lia.
    + unfold sc_remaining. cbn [sc_data sc_reads concat]. rewrite Hread. reflexivity.
    + right. repeat split. assumption.
Qed.

Lemma scan_loop_more (fuel : nat) (s : Scanner) :
  sc_err s = None -> splitFn (sc_data s) false = (0, None) ->
  scan_loop (S fuel) s =
    match sc_fill s with
    | inl s' => scan_loop fuel s'
    | inr s' => (None, s')
    end.
Proof.
  intros Herr Hsplit. cbn [scan_loop]. rewrite Herr.
  destruct (0 <? length (sc_data s))%nat eqn:Hlen.
  - cbn [orb]. change (bool_decide (None ≠ None)) with false.
    rewrite Hsplit, sc_advance_0. reflexivity.
  - reflexivity.
Qed.

Lemma scan_loop_token (fuel : nat) (s : Scanner) (advance : Z) (tok : list byte) :
  sc_data s <> [] ->
  splitFn (sc_data s) (bool_decide (sc_err s ≠ None)) = (advance, Some tok) ->
  0 <= advance <= len (sc_data s) ->
  scan_loop (S fuel) s =
    (Some tok,
     {| sc_reads := sc_reads s; sc_start := (sc_start s + Z.to_nat advance)%nat;
        sc_data := drop (Z.to_nat advance) (sc_data s); sc_err := sc_err s |}).
Proof.
  intros Hdata Hsplit Hadv. cbn [scan_loop].
  destruct (0 <? length (sc_data s))%nat eqn:Hlen.
  - cbn [orb]. rewrite Hsplit, sc_advance_within by assumption. reflexivity.
  - apply Nat.ltb_ge in Hlen. destruct (sc_data s); [contradiction | cbn in Hlen; lia].
Qed.

(** At the end of input the Scanner gives up on noise. *)
Lemma scan_loop_noise_eof (fuel : nat) (s : Scanner) :
  sc_err s = Some EOF -> noise (sc_data s) ->
  exists s', scan_loop (S fuel) s = (None, s').
Proof.
  intros Herr Hnoise. cbn [scan_loop]. rewrite Herr.
  change (bool_decide (Some EOF ≠ None)) with true. rewrite orb_true_r.
  rewrite <- (app_nil_r (sc_data s)) in Hnoise.
  rewrite (splitFn_noise _ _ true Hnoise).
  rewrite sc_advance_within by (pose proof (len_nonneg (sc_data s)); lia).
  cbn [negb]. unfold sc_fill. cbn [sc_err]. rewrite Herr. eexists. reflexivity.
Qed.

(** Two ways of cutting the same bytes. *)
Lemma app_cut_long (data rest front back : list byte) :
  data ++ rest = front ++ back -> (length front <= length data)%nat ->
  exists mid, data = front ++ mid /\ back = mid ++ rest.
Proof.
  intros Heq Hlen. exists (take (length data - length front) back). split.
  - apply (f_equal (take (length data))) in Heq.
    rewrite take_app_length, take_app_ge in Heq by assumption. assumption.
  - apply (f_equal (drop (length data))) in Heq.
    rewrite drop_app_length, drop_app_ge in Heq by assumption.
    rewrite Heq. symmetry. apply take_drop.
Qed.

Lemma app_cut_short (data rest front back : list byte) :
  data ++ rest = front ++ back -> (length data < length front)%nat ->
  exists tail, data ++ tail = front /\ tail <> [].
Proof.
  intros Heq Hlen. exists (drop (length data) front). split.
  - apply (f_equal (take (length data))) in Heq.
    rewrite take_app_length, take_app_le in Heq by lia.
    rewrite Heq at 1. apply take_drop.
  - intros Hnil. apply (f_equal length) in Hnil.
    rewrite length_drop in Hnil. cbn in Hnil. lia.
Qed.

Section ScanRecord.

Variables marker n body more : list byte.
Let r := record_of marker body.

Hypothesis marker_ok : start_marker marker.
Hypothesis noise_n : noise n.
Hypothesis closed_r : Index r end_marker = len (marker ++ body).
Hypothesis xml_free : marker = plist_marker -> Index (r ++ more) xml_marker = -1.
Hypothesis fits : (length (n ++ r) <= buffer_len)%nat.

(** With noise and then a record ahead, [Scan] returns the record and
    stands right behind it. *)
Lemma scan_loop_record (fuel : nat) :
  forall s : Scanner,
    sc_ok s -> sc_remaining s = n ++ r ++ more ->
    (reads_size (sc_reads s) < fuel)%nat ->
    exists s', scan_loop fuel s = (Some r, s') /\ sc_ok s' /\ sc_remaining s' = more.
Proof.
  induction fuel as [|fuel IH]; intros s Hok Hrem Hfuel; [lia|].
  unfold sc_remaining in Hrem. rewrite app_assoc in Hrem.
  destruct (decide (length (n ++ r) <= length (sc_data s))%nat) as [Hhave|Hlack].
  - destruct (app_cut_long _ _ _ _ Hrem Hhave) as (mid & Hdata & Hmore).
    assert (Hsplit : splitFn (sc_data s) (bool_decide (sc_err s ≠ None))
                     = (len (n ++ r), Some r)).
    { rewrite Hdata, <- app_assoc.
      apply (splitFn_complete marker n body more marker_ok noise_n closed_r xml_free
               mid (concat (sc_reads s))). exact Hmore. }
    assert (Hne : sc_data s <> []).
    { rewrite Hdata. destruct (record_head marker body marker_ok) as [rest Hr].
      fold r in Hr. rewrite Hr. destruct n; discriminate. }
    rewrite (scan_loop_token fuel s _ _ Hne Hsplit).
    + eexists. split; [reflexivity|]. destruct Hok as [Hend Herr]. split; [split|].
      * unfold sc_end in *. cbn [sc_start sc_data].
        unfold len. rewrite Nat2Z.id, length_drop. lia.
      * exact Herr.
      * unfold sc_remaining. cbn [sc_data sc_reads].
        unfold len. rewrite Nat2Z.id, Hdata, drop_app_length. symmetry. exact Hmore.
    + unfold len. rewrite Hdata, !length_app. lia.
  - assert (Hlt : (length (sc_data s) < length (n ++ r))%nat) by lia.
    destruct (app_cut_short _ _ _ _ Hrem Hlt) as (tail & Htail & Hne).
    assert (Herr : sc_err s = None).
    { destruct Hok as [_ [Hnone|[_ Hreads]]]; [assumption|]. exfalso.
      rewrite Hreads in Hrem. cbn [concat] in Hrem. rewrite app_nil_r in Hrem.
      apply (f_equal length) in Hrem. rewrite length_app in Hrem. lia. }
    rewrite scan_loop_more;
      [| assumption
       | apply (splitFn_incomplete marker n body more marker_ok noise_n closed_r xml_free
                  _ tail); assumption].
    destruct (sc_fill_room s Hok Herr) as (s2 & Hfill & Hok2 & Hrem2 & Hcase); [lia|].
    rewrite Hfill. destruct Hcase as [[_ Hless]|(_ & _ & Hnil)].
    + apply IH; [assumption | | lia].
      rewrite Hrem2. unfold sc_remaining. rewrite Hrem, app_assoc. reflexivity.
    + exfalso. rewrite Hnil, app_nil_r in Hrem.
      apply (f_equal length) in Hrem. rewrite length_app in Hrem. lia.
Qed.

End ScanRecord.

(** With nothing but noise ahead, [Scan] returns no token. *)
Lemma scan_loop_tail (fuel : nat) :
  forall s : Scanner,
    sc_ok s -> noise (sc_remaining s) ->
    (length (sc_remaining s) < buffer_len)%nat ->
    (reads_size (sc_reads s) + 2 <= fuel)%nat \/ (sc_err s = Some EOF /\ (1 <= fuel)%nat) ->
    exists s', scan_loop fuel s = (None, s').
Proof.
  induction fuel as [|fuel IH]; intros s Hok Hnoise Hlen Hfuel; [lia|].
  destruct Hok as [Hend [Herr|[Herr Hreads]]].
  - destruct Hfuel as [Hfuel|[Heof _]]; [|congruence].
    rewrite scan_loop_more;
      [| assumption | apply (splitFn_noise _ (concat (sc_reads s)) false Hnoise)].
    destruct (sc_fill_room s (conj Hend (or_introl Herr)) Herr)
      as (s2 & Hfill & Hok2 & Hrem2 & Hcase).
    { unfold sc_remaining in Hlen. rewrite length_app in Hlen. lia. }
    rewrite Hfill. apply IH; [assumption | rewrite Hrem2; assumption | rewrite Hrem2; assumption |].
    destruct Hcase as [[_ Hless]|(Heof & _ & _)]; [left; lia | right; split; [assumption | lia]].
  - apply scan_loop_noise_eof; [assumption|].
    unfold sc_remaining in Hnoise. rewrite Hreads in Hnoise. cbn [concat] in Hnoise.
    rewrite app_nil_r in Hnoise. assumption.
Qed.

Lemma framed_count (stream : list byte) (records : list (list byte)) :
  framed stream records -> (length records <= length stream)%nat.
Proof.
  induction 1
    as [n Hn Hlen | marker n r more records Hm Hn (body & -> & Hr) Hfree Hfit Hmore IH].
  - cbn. lia.
  - rewrite !length_app. unfold record_of. rewrite !length_app.
    change (length end_marker) with 8%nat. cbn [length]. lia.
Qed.

(** The loop over [Scan] on a framed stream collects its records. *)
Lemma scan_tokens_framed (stream : list byte) (records : list (list byte)) :
  framed stream records ->
  forall (fuel : nat) (s : Scanner),
    sc_ok s -> sc_remaining s = stream -> (length records < fuel)%nat ->
    exists s', scan_tokens fuel s = (records, s').
Proof.
  induction 1
    as [n Hn Hlen | marker n r more records Hm Hn (body & -> & Hr) Hfree Hfit Hmore IH];
    intros fuel s Hok Hrem Hfuel.
  - destruct fuel as [|fuel]; [cbn in Hfuel; lia|]. cbn [scan_tokens]. unfold Scan.
    destruct (scan_loop_tail (reads_size (sc_reads s) + 2) s) as [s' Hscan];
      [assumption | rewrite Hrem; assumption | rewrite Hrem; assumption | left; lia |].
    rewrite Hscan. eexists. reflexivity.
  - destruct fuel as [|fuel]; [cbn in Hfuel; lia|]. cbn [scan_tokens]. unfold Scan.
    destruct (scan_loop_record marker n body more Hm Hn Hr Hfree Hfit
                (reads_size (sc_reads s) + 2) s)
      as (s1 & Hscan & Hok1 & Hrem1); [assumption | assumption | lia |].
    rewrite Hscan.
    destruct (IH fuel s1 Hok1 Hrem1) as [s2 Htoks]; [cbn in Hfuel; lia|].
    rewrite Htoks. eexists. reflexivity.
Qed.

(** Whatever the reads, a framed stream yields its records. *)
Lemma RawSamples_framed (reads : list (list byte)) (records : list (list byte)) :
  framed (concat reads) records -> RawSamples reads = records.
Proof.
  intros Hframed. unfold RawSamples, frame.
  destruct (scan_tokens_framed _ _ Hframed (reads_size reads + 1) (NewScanner reads))
    as [s' Htoks].
  - split; [unfold sc_end; cbn; lia | left; reflexivity].
  - reflexivity.
  - apply framed_count in Hframed. unfold reads_size. lia.
  - rewrite Htoks. reflexivity.
Qed.

(** ** Stream framer *)

Lemma fits_buffer (bs : list byte) :
  len bs <= bufferSize -> (length bs <= buffer_len)%nat.
Proof. rewrite <- buffer_len_bufferSize. unfold len. lia. Qed.

(** Noise alone, short of the buffer size, yields no RawSample, whatever
    the reads. *)
Lemma RawSamples_noise (reads : list (list byte)) :
  noise (concat reads) -> len (concat reads) < bufferSize -> RawSamples reads = [].
Proof.
  intros Hnoise Hlen. apply RawSamples_framed. apply framed_tail; [assumption|].
  rewrite <- buffer_len_bufferSize in Hlen. unfold len in Hlen. lia.
Qed.

(** C9, as the code has it. A stream of two records, each beginning
    with an accepted start marker and ending at its first end marker, with
    marker-free noise before, between and after them, where no XML
    declaration occurs from a record that begins with the second start
    marker on, each record fits the 10 MiB buffer together with the noise
    before it and the trailing noise leaves a byte of the buffer free:
    however the stream is cut into reads, the RawSamples are exactly the
    two records, byte for byte and in order. *)
Theorem framer_two_records (reads : list (list byte)) (m1 m2 n0 r1 n1 r2 n2 : list byte) :
  concat reads = n0 ++ r1 ++ n1 ++ r2 ++ n2 ->
  noise n0 -> noise n1 -> noise n2 ->
  start_marker m1 -> bounded_record m1 r1 ->
  start_marker m2 -> bounded_record m2 r2 ->
  (m1 = plist_marker -> Index (r1 ++ n1 ++ r2 ++ n2) xml_marker = -1) ->
  (m2 = plist_marker -> Index (r2 ++ n2) xml_marker = -1) ->
  len (n0 ++ r1) <= bufferSize -> len (n1 ++ r2) <= bufferSize -> len n2 < bufferSize ->
  RawSamples reads = [r1; r2].
Proof.
  intros Hstream H0 H1 H2 Hm1 Hr1 Hm2 Hr2 Hfree1 Hfree2 Hfit1 Hfit2 Hfit3.
  apply RawSamples_framed. rewrite Hstream.
  apply (framed_record m1); try assumption; [apply fits_buffer; assumption|].
  apply (framed_record m2); try assumption; [apply fits_buffer; assumption|].
  apply framed_tail; [assumption|].
  rewrite <- buffer_len_bufferSize in Hfit3. unfold len in Hfit3. lia.
Qed.

(** C9 as the code has it, on five reads that cut through the markers of
    the second record. *)
Lemma framer_two_records_witness : RawSamples noisy_reads = [record_b; record_c].
Proof.
  apply (framer_two_records noisy_reads xml_marker plist_marker
           (bytes "noise") record_b (bytes "xx") record_c (bytes "tail")).
  - reflexivity.
  - repeat split; vm_compute; reflexivity.
  - repeat split; vm_compute; reflexivity.
  - repeat split; vm_compute; reflexivity.
  - left. reflexivity.
  - exists (bytes "><plist>b"). split; vm_compute; reflexivity.
  - right. reflexivity.
  - exists (bytes ">c"). split; vm_compute; reflexivity.
  - intros Hm. vm_compute in Hm. discriminate Hm.
  - intros _. vm_compute. reflexivity.
  - vm_compute. discriminate.
  - vm_compute. discriminate.
  - vm_compute. reflexivity.
Defined.

(** C9 as worded fails when the first record begins with the other
    accepted start marker: read in one piece, the stream loses its first
    record, because the XML declaration of the second is searched for
    first; read record by record, it yields both. *)
Lemma framer_mixed_markers_counterexample :
  well_formed_record plist_record_a /\
  well_formed_record xml_record_b /\
  concat [plist_record_a ++ xml_record_b] = concat [plist_record_a; xml_record_b] /\
  RawSamples [plist_record_a ++ xml_record_b] = [xml_record_b] /\
  RawSamples [plist_record_a; xml_record_b] = [plist_record_a; xml_record_b].
Proof.
  split; [right; exists (bytes ">a"); split; vm_compute; reflexivity|].
  split; [left; exists (bytes ">b"); split; vm_compute; reflexivity|].
  split; [vm_compute; reflexivity|].
  split; vm_compute; reflexivity.
Defined.

(** ** The loop of [collectMetrics] *)

Section Collector.

Variable decode : list byte -> option (gmap string PValue).

(** A token without the XML declaration is counted and skipped: nothing is
    decoded and nothing is published. *)
Lemma handle_sample_without_xml (plistData : list byte) (retryCount : Z) (mb : Mailboxes) :
  Index plistData xml_marker = -1 ->
  exists retryCount', handle_sample decode plistData retryCount mb = Return (retryCount', mb).
Proof.
  intros Hx. unfold handle_sample. rewrite Hx. cbn [Z.leb Z.compare negb orb].
  destruct (maxRetries <=? int_add retryCount 1); eexists; reflexivity.
Qed.

(** A decoded record is extracted and published on the three channels;
    without its processor dictionary it ends the process instead. *)
Lemma handle_sample_decoded (plistData : list byte) (retryCount : Z) (mb : Mailboxes)
    (data : gmap string PValue) :
  0 <= Index plistData xml_marker -> 0 <= Index plistData end_marker ->
  decode plistData = Some data ->
  handle_sample decode plistData retryCount mb =
    match parseCPUMetrics data NewCPUMetrics with
    | Return cpuMetrics =>
        Return (0, publish_all cpuMetrics (parseGPUMetrics data) (parseNetDiskMetrics data) mb)
    | Panic msg => Panic msg
    | Exit code msg => Exit code msg
    end.
Proof.
  intros Hx He Hd. unfold handle_sample.
  apply Z.leb_le in Hx, He. rewrite Hx, He, Hd. cbn [negb orb].
  destruct (parseCPUMetrics data NewCPUMetrics); reflexivity.
Qed.

End Collector.

(** ** What the split function returns, on any input *)

Lemma Index_cases (s pat : list byte) :
  Index s pat = -1 \/ exists i, Index s pat = Z.of_nat i.
Proof.
  unfold Index. destruct (index_from s pat) as [i|]; [right; exists i|left]; reflexivity.
Qed.

(** The start that the split function settles on: none, or the first XML
    declaration, or else the first occurrence of the second start marker. *)
Lemma split_start_cases (data : list byte) :
  let start := if Index data xml_marker =? -1
               then Index data plist_marker else Index data xml_marker in
  (start = -1 /\ Index data xml_marker = -1 /\ Index data plist_marker = -1) \/
  (exists m i, start_marker m /\ start = Z.of_nat i /\ occurs_at m data i /\
               (m = plist_marker -> Index data xml_marker = -1)).
Proof.
  cbv zeta.
  destruct (Index_cases data xml_marker) as [Hx|[i Hx]].
  - rewrite Hx. cbn [Z.eqb].
    destruct (Index_cases data plist_marker) as [Hp|[i Hp]].
    + left. repeat split; assumption.
    + right. exists plist_marker, i.
      destruct (Index_nonneg_first data plist_marker) as (i' & Hi' & Hocc & _); [lia|].
      assert (i' = i) by lia. subst i'.
      repeat split; [right; reflexivity | assumption | assumption].
  - right. exists xml_marker, i.
    destruct (Index_nonneg_first data xml_marker) as (i' & Hi' & Hocc & _); [lia|].
    assert (i' = i) by lia. subst i'.
    destruct (Index data xml_marker =? -1) eqn:Hm1; [apply Z.eqb_eq in Hm1; lia|].
    repeat split; [left; reflexivity | assumption | assumption |].
    intros Hm. vm_compute in Hm. discriminate Hm.
Qed.

Lemma occurs_at_split (pat s : list byte) (i : nat) :
  pat <> [] -> occurs_at pat s i ->
  s = take i s ++ pat ++ drop (i + length pat) s /\ length (take i s) = i.
Proof.
  intros Hne Hocc. pose proof (occurs_at_length _ _ _ Hne Hocc) as Hfit.
  split; [|rewrite length_take; lia].
  unfold occurs_at in Hocc.
  rewrite <- (take_drop i s) at 1. f_equal.
  rewrite <- (take_drop (length pat) (drop i s)) at 1.
  rewrite Hocc, drop_drop. reflexivity.
Qed.

(** A token of the split function, taken apart: what lies before it in
    the buffer, the token, and what lies behind it. *)
Lemma splitFn_token_parts (data : list byte) (atEOF : bool) (advance : Z)
    (tok : list byte) :
  splitFn data atEOF = (advance, Some tok) ->
  exists pre post,
    data = pre ++ tok ++ post /\
    advance = len (pre ++ tok) /\
    (exists m rest, start_marker m /\ tok = m ++ rest) /\
    ((exists body, tok = body ++ end_marker /\ Index tok end_marker = len body) \/
     (atEOF = true /\ post = [] /\ Index tok end_marker = -1)).
Proof.
  unfold splitFn.
  destruct (atEOF && (len data =? 0)); [discriminate|]. cbv zeta.
  destruct (split_start_cases data) as [(Hs & _ & _)|(m & i & Hm & Hs & Hocc & _)];
    cbv zeta in Hs; rewrite Hs.
  { cbn [Z.leb Z.compare]. destruct atEOF; discriminate. }
  assert (Hmne : m <> []) by (destruct Hm as [->| ->]; discriminate).
  assert (Hml : (length m <= 6)%nat) by (destruct Hm as [->| ->]; cbn; lia).
  pose proof (occurs_at_length _ _ _ Hmne Hocc) as Hfit.
  destruct (0 <=? Z.of_nat i) eqn:Hpos; [|apply Z.leb_gt in Hpos; lia].
  unfold slice_from, slice. rewrite Nat2Z.id.
  set (d := drop i data).
  assert (Hd : data = take i data ++ d) by (symmetry; apply take_drop).
  assert (Hpre : length (take i data) = i) by (rewrite length_take; lia).
  assert (Hmark : take (length m) d = m) by exact Hocc.
  destruct (Index_cases d end_marker) as [He|[e He]]; rewrite He.
  - cbn [Z.leb Z.compare]. destruct atEOF; [|discriminate].
    intros [= <- <-]. exists (take i data), [].
    rewrite app_nil_r. split; [exact Hd|]. split; [rewrite <- Hd; reflexivity|].
    split; [|right; repeat split; assumption].
    exists m, (drop (length m) d). split; [assumption|].
    rewrite <- Hmark at 1. symmetry. apply take_drop.
  - destruct (0 <=? Z.of_nat e) eqn:Hpe; [|apply Z.leb_gt in Hpe; lia].
    destruct (Index_nonneg_first d end_marker) as (e' & He' & Hoe & Hmin); [lia|].
    assert (e' = e) by lia. subst e'.
    assert (Hene : end_marker <> []) by (rewrite end_marker_bytes; discriminate).
    pose proof (occurs_at_length _ _ _ Hene Hoe) as Hefit.
    change (length end_marker) with 8%nat in Hefit.
    replace (Z.to_nat (Z.of_nat i + Z.of_nat e + 8 - Z.of_nat i)) with (e + 8)%nat by lia.
    intros [= <- <-]. exists (take i data), (drop (e + 8) d).
    assert (Htl : length (take (e + 8) d) = (e + 8)%nat) by (rewrite length_take; lia).
    split; [rewrite take_drop; exact Hd|].
    split; [unfold len; rewrite length_app, Hpre, Htl; lia|].
    split.
    + exists m, (drop (length m) (take (e + 8) d)). split; [assumption|].
      rewrite <- (take_drop (length m) (take (e + 8) d)) at 1. f_equal.
      rewrite take_take. replace (length m `min` (e + 8))%nat with (length m) by lia.
      exact Hmark.
    + left. exists (take e d).
      assert (Htok : take (e + 8) d = take e d ++ end_marker).
      { rewrite <- (take_drop e (take (e + 8) d)).
        rewrite take_take, (Nat.min_l e (e + 8)) by lia. f_equal.
        rewrite <- take_drop_commute. replace (e + 8 - e)%nat with 8%nat by lia.
        exact Hoe. }
      split; [exact Htok|].
      replace (len (take e d)) with (Z.of_nat e)
        by (unfold len; rewrite length_take; lia).
      apply Index_first.
      * apply (occurs_at_app_l end_marker (take (e + 8) d) (drop (e + 8) d) e).
        { change (length end_marker) with 8%nat. lia. }
        rewrite take_drop. exact Hoe.
      * intros j Hj Hoj. apply (Hmin j Hj).
        rewrite <- (take_drop (e + 8) d). apply occurs_at_extend; assumption.
Qed.

(** X1. Every token of the split function is a region of the buffer that
    begins with one of the two start markers; the input advances to the
    end of that region; the region ends with its first end marker, or, only
    at end of input, it runs to the end of the buffer and holds no end
    marker. *)
Theorem splitFn_token_region (data : list byte) (atEOF : bool) (advance : Z)
    (tok : list byte) :
  splitFn data atEOF = (advance, Some tok) ->
  exists pre post,
    data = pre ++ tok ++ post /\
    advance = len (pre ++ tok) /\
    (exists m rest, start_marker m /\ tok = m ++ rest) /\
    ((exists body, tok = body ++ end_marker /\ Index tok end_marker = len body) \/
     (atEOF = true /\ post = [] /\ Index tok end_marker = -1)).
Proof. apply splitFn_token_parts. Qed.

(** X1 on a record between two bytes of noise on either side. *)
Lemma splitFn_token_region_witness :
  exists pre post,
    bytes "ab<plist>c</plist>de" = pre ++ record_c ++ post /\ 18 = len (pre ++ record_c).
Proof.
  destruct (splitFn_token_region (bytes "ab<plist>c</plist>de") false 18 record_c
              ltac:(vm_compute; reflexivity)) as (pre & post & Hdata & Hadv & _).
  exists pre, post. split; assumption.
Defined.

(** X2. The split function advances within the buffer; it advances past
    every token it returns; without a token it leaves the input where it
    is, except at end of input, where it discards the whole buffer. *)
Theorem splitFn_advance (data : list byte) (atEOF : bool) (advance : Z)
    (tok : option (list byte)) :
  splitFn data atEOF = (advance, tok) ->
  0 <= advance <= len data /\
  (tok <> None -> 0 < advance) /\
  (tok = None -> advance = if atEOF then len data else 0).
Proof.
  intros Hsplit. destruct tok as [t|].
  - destruct (splitFn_token_parts _ _ _ _ Hsplit)
      as (pre & post & Hdata & Hadv & (m & rest & Hm & Ht) & _).
    assert (Hlt : 0 < len t).
    { rewrite Ht, len_app. pose proof (len_nonneg rest).
      destruct Hm as [->| ->];
        [change (len xml_marker) with 5 | change (len plist_marker) with 6]; lia. }
    rewrite Hadv, Hdata, !len_app.
    pose proof (len_nonneg pre). pose proof (len_nonneg post).
    repeat split; try lia. discriminate.
  - split; [|split; [congruence|]].
    + revert Hsplit. unfold splitFn. pose proof (len_nonneg data) as Hl.
      destruct (atEOF && (len data =? 0)); [intros [= <-]; lia|]. cbv zeta.
      repeat match goal with
             | |- context [if ?b then _ else _] => destruct b
             end; intros [= <-]; lia.
    + intros _. revert Hsplit. unfold splitFn.
      destruct atEOF; cbn [andb].
      * destruct (len data =? 0) eqn:H0; [apply Z.eqb_eq in H0; intros [= <-]; lia|].
        cbv zeta.
        repeat match goal with
               | |- context [if ?b then _ else _] => destruct b
               end; intros [= <-]; try reflexivity; discriminate.
      * cbv zeta.
        repeat match goal with
               | |- context [if ?b then _ else _] => destruct b
               end; intros [= <-]; try reflexivity; discriminate.
Qed.

(** X2 at end of input, on a buffer of noise. *)
Lemma splitFn_advance_witness : 0 <= 5 <= len (bytes "noise").
Proof.
  destruct (splitFn_advance (bytes "noise") true 5 None ltac:(vm_compute; reflexivity))
    as [Hrange _]. exact Hrange.
Defined.

(** ** What the Scanner hands over, on any input *)

(** A token of [Scan] is a token of the split function on the bytes held,
    and the Scanner has advanced past it. *)
Lemma scan_loop_token_origin (fuel : nat) :
  forall (s s' : Scanner) (tok : list byte),
    scan_loop fuel s = (Some tok, s') ->
    exists (s0 : Scanner) (advance : Z),
      splitFn (sc_data s0) (bool_decide (sc_err s0 ≠ None)) = (advance, Some tok) /\
      sc_advance s0 advance = (s', true).
Proof.
  induction fuel as [|fuel IH]; intros s s' tok Hscan; [discriminate|].
  cbn [scan_loop] in Hscan.
  destruct ((0 <? length (sc_data s))%nat || bool_decide (sc_err s ≠ None)).
  - destruct (splitFn (sc_data s) (bool_decide (sc_err s ≠ None))) as [advance token] eqn:Hsplit.
    destruct (sc_advance s advance) as [s1 ok] eqn:Hadv.
    destruct ok; cbn [negb] in Hscan; [|discriminate].
    destruct token as [t|].
    + injection Hscan as <- <-. exists s, advance. split; assumption.
    + destruct (sc_fill s1) as [s2|s2]; [apply (IH _ _ _ Hscan) | discriminate].
  - destruct (sc_fill s) as [s2|s2]; [apply (IH _ _ _ Hscan) | discriminate].
Qed.

(** Once the input has ended and the buffer is empty, [Scan] has nothing
    more to give. *)
Lemma scan_loop_exhausted (fuel : nat) (s : Scanner) :
  sc_data s = [] -> sc_err s <> None -> fst (scan_loop fuel s) = None.
Proof.
  intros Hdata Herr. destruct fuel as [|fuel]; [reflexivity|].
  cbn [scan_loop]. rewrite Hdata.
  rewrite (bool_decide_eq_true_2 _ Herr). cbn [length Nat.ltb Nat.leb orb].
  change (splitFn [] true) with (0, @None (list byte)).
  cbv beta iota. rewrite sc_advance_0. cbn [negb].
  unfold sc_fill. destruct (sc_err s); [reflexivity | contradiction].
Qed.

Lemma scan_tokens_exhausted (fuel : nat) (s : Scanner) :
  sc_data s = [] -> sc_err s <> None -> fst (scan_tokens fuel s) = [].
Proof.
  intros Hdata Herr. destruct fuel as [|fuel]; [reflexivity|].
  cbn [scan_tokens]. unfold Scan.
  pose proof (scan_loop_exhausted (reads_size (sc_reads s) + 2) s Hdata Herr) as Hnone.
  destruct (scan_loop (reads_size (sc_reads s) + 2) s) as [[t|] s']; [discriminate|].
  reflexivity.
Qed.

(** A token that does not end with its first end marker is the last. *)
Lemma scan_tokens_shape (fuel : nat) :
  forall (s : Scanner),
    Forall (fun tok => exists m rest, start_marker m /\ tok = m ++ rest)
           (fst (scan_tokens fuel s)) /\
    (forall front tok back,
        fst (scan_tokens fuel s) = front ++ tok :: back ->
        (exists body, tok = body ++ end_marker /\ Index tok end_marker = len body) \/
        (back = [] /\ Index tok end_marker = -1)).
Proof.
  induction fuel as [|fuel IH]; intros s.
  - split; [constructor|]. intros front tok back H. destruct front; discriminate.
  - cbn [scan_tokens]. unfold Scan.
    destruct (scan_loop (reads_size (sc_reads s) + 2) s) as [[t|] s1] eqn:Hscan.
    + destruct (scan_loop_token_origin _ _ _ _ Hscan) as (s0 & advance & Hsplit & Hadv).
      destruct (splitFn_token_parts _ _ _ _ Hsplit)
        as (pre & post & Hdata & Hlen & Hstart & Hend).
      destruct (IH s1) as [Hall Hlast].
      destruct (scan_tokens fuel s1) as [toks s2] eqn:Htoks. cbn [fst] in *.
      split; [constructor; assumption|].
      intros front tok back Heq. destruct front as [|f front]; cbn [app] in Heq.
      * injection Heq as <- <-.
        destruct Hend as [Hclosed|(Heof & Hpost & Hopen)]; [left; assumption|].
        right. split; [|assumption].
        assert (Hadv' : 0 <= advance <= len (sc_data s0)).
        { rewrite Hlen, Hdata, !len_app.
          pose proof (len_nonneg pre). pose proof (len_nonneg t).
          pose proof (len_nonneg post). lia. }
        rewrite (sc_advance_within _ _ Hadv') in Hadv. injection Hadv as <-.
        pose proof (scan_tokens_exhausted fuel
          {| sc_reads := sc_reads s0; sc_start := (sc_start s0 + Z.to_nat advance)%nat;
             sc_data := drop (Z.to_nat advance) (sc_data s0); sc_err := sc_err s0 |}) as Hex.
        rewrite Htoks in Hex. apply Hex; cbn [sc_data sc_err].
        -- rewrite Hlen, Hdata, Hpost, app_nil_r. unfold len. rewrite Nat2Z.id.
           apply drop_all.
        -- apply bool_decide_eq_true_1 in Heof. exact Heof.
      * injection Heq as <- Heq. apply (Hlast front tok back Heq).
    + split; [constructor|]. intros front tok back H. destruct front; discriminate.
Qed.

(** X3. Whatever the stream and however it is read, every RawSample
    begins with one of the two start markers, and every RawSample but
    possibly the last ends with its first end marker; a last one that does
    not holds no end marker at all. *)
Theorem RawSamples_shape (reads : list (list byte)) :
  Forall (fun tok => exists m rest, start_marker m /\ tok = m ++ rest) (RawSamples reads) /\
  (forall front tok back,
      RawSamples reads = front ++ tok :: back ->
      (exists body, tok = body ++ end_marker /\ Index tok end_marker = len body) \/
      (back = [] /\ Index tok end_marker = -1)).
Proof. unfold RawSamples, frame. apply scan_tokens_shape. Qed.

(** ** A stream that ends inside a record *)

Lemma Index_absent_drop (s pat : list byte) (i : nat) :
  Index s pat = -1 -> Index (drop i s) pat = -1.
Proof.
  intros Habs. apply Index_absent. intros j Hocc.
  apply (proj1 (Index_absent _ _) Habs (i + j)%nat).
  unfold occurs_at in *. rewrite <- drop_drop. exact Hocc.
Qed.

(** Without an end marker in the buffer and with input still to come, the
    split function asks for more. *)
Lemma splitFn_no_end (data : list byte) :
  Index data end_marker = -1 -> splitFn data false = (0, None).
Proof.
  intros Hend. unfold splitFn. cbn [andb]. cbv zeta.
  destruct (0 <=? (if Index data xml_marker =? -1
                   then Index data plist_marker else Index data xml_marker)); [|reflexivity].
  unfold slice_from. rewrite (Index_absent_drop _ _ _ Hend). reflexivity.
Qed.

Section OpenRecord.

Variables marker n body : list byte.
Let p := marker ++ body.

Hypothesis marker_ok : start_marker marker.
Hypothesis noise_n : noise n.
Hypothesis open_p : Index p end_marker = -1.
Hypothesis xml_free : marker = plist_marker -> Index p xml_marker = -1.

Lemma open_head : exists rest, p = x3c :: rest.
Proof.
  unfold p. destruct marker_ok as [Hm|Hm]; rewrite Hm; eexists; reflexivity.
Qed.

(** No marker begins in the noise. *)
Lemma marker_not_in_noise (m : list byte) (j : nat) :
  is_marker m -> occurs_at m (n ++ p) j -> (length n <= j)%nat.
Proof.
  intros Hm. destruct open_head as [rest ->].
  apply marker_not_before; [assumption|].
  destruct noise_n as (Hx & Hp & He). destruct Hm as [->|[->| ->]]; assumption.
Qed.

Lemma marker_absent_open (m : list byte) :
  is_marker m -> Index p m = -1 -> Index (n ++ p) m = -1.
Proof.
  intros Hm Habs. apply Index_absent. intros j Hocc.
  pose proof (marker_not_in_noise m j Hm Hocc) as Hj.
  replace j with (length n + (j - length n))%nat in Hocc by lia.
  apply occurs_at_app_r in Hocc.
  apply (proj1 (Index_absent _ _) Habs _ Hocc).
Qed.

Lemma Index_marker_open : Index (n ++ p) marker = len n.
Proof.
  apply Index_first.
  - rewrite <- (Nat.add_0_r (length n)). apply occurs_at_app_r.
    apply occurs_at_0, HasPrefix_take. unfold p. apply take_app_length.
  - intros j Hj Hocc. apply marker_not_in_noise in Hocc; [lia|].
    destruct marker_ok as [->| ->]; [left | right; left]; reflexivity.
Qed.

(** While input is still to come, nothing of the open record is given out. *)
Lemma splitFn_open_more (data tail : list byte) :
  data ++ tail = n ++ p -> splitFn data false = (0, None).
Proof.
  intros Hsplit. apply splitFn_no_end.
  apply (Index_absent_prefix _ tail); [rewrite end_marker_bytes; discriminate|].
  rewrite Hsplit. apply marker_absent_open; [right; right; reflexivity | exact open_p].
Qed.

(** At end of input the open record is the token, from its start marker to
    the last byte. *)
Lemma splitFn_open_eof : splitFn (n ++ p) true = (len (n ++ p), Some p).
Proof.
  unfold splitFn.
  assert (Hlen : (len (n ++ p) =? 0) = false).
  { apply Z.eqb_neq. rewrite len_app. pose proof (len_nonneg n).
    destruct open_head as [rest ->]. unfold len. cbn [length]. lia. }
  rewrite Hlen, andb_false_r. cbv zeta.
  pose proof (len_nonneg n) as Hn.
  assert (Hstart : (if Index (n ++ p) xml_marker =? -1
                    then Index (n ++ p) plist_marker
                    else Index (n ++ p) xml_marker) = len n).
  { pose proof Index_marker_open as Hat. destruct marker_ok as [Hm|Hm].
    - rewrite Hm in Hat. rewrite Hat.
      destruct (len n =? -1) eqn:Hm1; [apply Z.eqb_eq in Hm1; lia | reflexivity].
    - rewrite (marker_absent_open xml_marker (or_introl eq_refl) (xml_free Hm)).
      rewrite Hm in Hat. exact Hat. }
  rewrite Hstart.
  destruct (0 <=? len n) eqn:Hpos; [|apply Z.leb_gt in Hpos; lia].
  rewrite slice_from_app, open_p. reflexivity.
Qed.

Hypothesis fits : (length (n ++ p) < buffer_len)%nat.

(** With noise and then an open record as all that is left, [Scan] waits
    for the end of input, returns the open record, and has nothing left. *)
Lemma scan_loop_open (fuel : nat) :
  forall s : Scanner,
    sc_ok s -> sc_remaining s = n ++ p ->
    (reads_size (sc_reads s) + 2 <= fuel)%nat \/ (sc_err s = Some EOF /\ (1 <= fuel)%nat) ->
    exists s', scan_loop fuel s = (Some p, s') /\ sc_data s' = [] /\ sc_err s' = Some EOF.
Proof.
  induction fuel as [|fuel IH]; intros s Hok Hrem Hfuel; [lia|].
  destruct Hok as [Hend [Herr|[Herr Hreads]]].
  - destruct Hfuel as [Hfuel|[Heof _]]; [|congruence].
    rewrite scan_loop_more;
      [| assumption | apply (splitFn_open_more _ (concat (sc_reads s))); exact Hrem].
    destruct (sc_fill_room s (conj Hend (or_introl Herr)) Herr)
      as (s2 & Hfill & Hok2 & Hrem2 & Hcase).
    { apply (f_equal length) in Hrem. unfold sc_remaining in Hrem.
      rewrite length_app in Hrem. lia. }
    rewrite Hfill. apply IH; [assumption | rewrite Hrem2; assumption |].
    destruct Hcase as [[_ Hless]|(Heof & _ & _)]; [left; lia | right; split; [assumption | lia]].
  - unfold sc_remaining in Hrem. rewrite Hreads in Hrem. cbn [concat] in Hrem.
    rewrite app_nil_r in Hrem.
    assert (Hsplit : splitFn (sc_data s) (bool_decide (sc_err s ≠ None))
                     = (len (sc_data s), Some p)).
    { rewrite Herr, Hrem. apply splitFn_open_eof. }
    rewrite (scan_loop_token fuel s _ _ ltac:(rewrite Hrem; destruct open_head as [rest ->];
                                               destruct n; discriminate) Hsplit).
    + eexists. split; [reflexivity|]. cbn [sc_data sc_err]. split; [|assumption].
      unfold len. rewrite Nat2Z.id. apply drop_all.
    + pose proof (len_nonneg (sc_data s)). lia.
Qed.

End OpenRecord.

(** The loop over [Scan] on a stream that ends inside a record collects
    the records and then the open one. *)
Lemma scan_tokens_framed_open (stream : list byte) (records : list (list byte)) :
  framed_open stream records ->
  forall (fuel : nat) (s : Scanner),
    sc_ok s -> sc_remaining s = stream -> (length records < fuel)%nat ->
    fst (scan_tokens fuel s) = records.
Proof.
  induction 1
    as [marker n body Hm Hn Hopen Hfree Hfit
       | marker n r more records Hm Hn (body & -> & Hr) Hfree Hfit Hmore IH];
    intros fuel s Hok Hrem Hfuel.
  - destruct fuel as [|fuel]; [cbn in Hfuel; lia|]. cbn [scan_tokens]. unfold Scan.
    destruct (scan_loop_open marker n body Hm Hn Hopen Hfree Hfit
                (reads_size (sc_reads s) + 2) s) as (s1 & Hscan & Hdata & Herr);
      [assumption | assumption | left; lia |].
    rewrite Hscan.
    pose proof (scan_tokens_exhausted fuel s1 Hdata ltac:(rewrite Herr; discriminate)) as Hex.
    destruct (scan_tokens fuel s1) as [toks s2]. cbn [fst] in *. rewrite Hex. reflexivity.
  - destruct fuel as [|fuel]; [cbn in Hfuel; lia|]. cbn [scan_tokens]. unfold Scan.
    destruct (scan_loop_record marker n body more Hm Hn Hr Hfree Hfit
                (reads_size (sc_reads s) + 2) s)
      as (s1 & Hscan & Hok1 & Hrem1); [assumption | assumption | lia |].
    rewrite Hscan.
    pose proof (IH fuel s1 Hok1 Hrem1 ltac:(cbn in Hfuel; lia)) as Htoks.
    destruct (scan_tokens fuel s1) as [toks s2]. cbn [fst] in *. rewrite Htoks. reflexivity.
Qed.

Lemma framed_open_count (stream : list byte) (records : list (list byte)) :
  framed_open stream records -> (length records <= length stream)%nat.
Proof.
  induction 1
    as [marker n body Hm Hn Hopen Hfree Hfit
       | marker n r more records Hm Hn (body & -> & Hr) Hfree Hfit Hmore IH].
  - rewrite !length_app. destruct Hm as [->| ->]; cbn; lia.
  - rewrite !length_app. unfold record_of. rewrite !length_app.
    change (length end_marker) with 8%nat. cbn [length]. lia.
Qed.

(** X5. When the stream ends inside a record, the framer gives out the
    complete records before it and then, once, the bytes of the unfinished
    record from its start marker to the end of the stream, however the
    stream is cut into reads. *)
Theorem RawSamples_framed_open (reads : list (list byte)) (records : list (list byte)) :
  framed_open (concat reads) records -> RawSamples reads = records.
Proof.
  intros Hframed. unfold RawSamples, frame.
  apply (scan_tokens_framed_open _ _ Hframed).
  - split; [unfold sc_end; cbn; lia | left; reflexivity].
  - reflexivity.
  - apply framed_open_count in Hframed. unfold reads_size. lia.
Qed.

Lemma fits_buffer_strict (bs : list byte) :
  len bs < bufferSize -> (length bs < buffer_len)%nat.
Proof. rewrite <- buffer_len_bufferSize. unfold len. lia. Qed.

(** X5 on a stream read in two pieces that ends inside its second
    record. *)
Lemma RawSamples_framed_open_witness : RawSamples open_reads = [open_record_a; open_record_b].
Proof.
  apply RawSamples_framed_open.
  change (concat open_reads) with (bytes "xx" ++ open_record_a ++ (bytes "yy" ++ plist_marker ++ bytes ">b")).
  apply (framed_open_record xml_marker).
  - left. reflexivity.
  - repeat split; vm_compute; reflexivity.
  - exists (bytes "><plist>a"). split; vm_compute; reflexivity.
  - intros Hm. vm_compute in Hm. discriminate Hm.
  - apply fits_buffer. vm_compute. discriminate.
  - apply (framed_open_last plist_marker).
    + right. reflexivity.
    + repeat split; vm_compute; reflexivity.
    + vm_compute. reflexivity.
    + intros _. vm_compute. reflexivity.
    + apply fits_buffer_strict. vm_compute. reflexivity.
Defined.

(** X4. A stream of any number of complete records, framed by noise as in
    [framed], yields exactly its records however it is cut into reads: two
    ways of reading the same bytes give the same RawSamples. *)
Theorem framer_reads_independent (reads reads' : list (list byte))
    (records : list (list byte)) :
  framed (concat reads) records -> concat reads' = concat reads ->
  RawSamples reads = records /\ RawSamples reads' = records.
Proof.
  intros Hframed Hsame. split; apply RawSamples_framed; [|rewrite Hsame]; exact Hframed.
Qed.

(** X4 on the two records of [noisy_reads], read in five pieces and in
    one. *)
Lemma framer_reads_independent_witness :
  RawSamples noisy_reads = [record_b; record_c] /\
  RawSamples noisy_stream = [record_b; record_c].
Proof.
  apply framer_reads_independent.
  - change (concat noisy_reads)
      with (bytes "noise" ++ record_b ++ (bytes "xx" ++ record_c ++ bytes "tail")).
    apply (framed_record xml_marker).
    + left. reflexivity.
    + repeat split; vm_compute; reflexivity.
    + exists (bytes "><plist>b"). split; vm_compute; reflexivity.
    + intros Hm. vm_compute in Hm. discriminate Hm.
    + apply fits_buffer. vm_compute. discriminate.
    + apply (framed_record plist_marker).
      * right. reflexivity.
      * repeat split; vm_compute; reflexivity.
      * exists (bytes ">c"). split; vm_compute; reflexivity.
      * intros _. vm_compute. reflexivity.
      * apply fits_buffer. vm_compute. discriminate.
      * apply framed_tail; [repeat split; vm_compute; reflexivity|].
        apply fits_buffer_strict. vm_compute. reflexivity.
  - unfold noisy_stream. cbn [concat]. apply app_nil_r.
Defined.

(** ** A buffer full of noise *)

(** Bytes without a ['<'] are noise. *)
Lemma noise_without_lt (bs : list byte) : Forall (fun b => b <> x3c) bs -> noise bs.
Proof.
  intros Hall.
  assert (Hnone : forall m, is_marker m -> Index bs m = -1).
  { intros m Hm. apply Index_absent. intros j Hocc.
    assert (Hhead : m !! 0%nat = Some x3c) by (destruct Hm as [->|[->| ->]]; reflexivity).
    pose proof (occurs_at_lookup _ _ _ _ _ Hocc Hhead) as Hlook.
    rewrite Forall_lookup in Hall. apply (Hall _ _ Hlook). reflexivity. }
  repeat split; apply Hnone; [left | right; left | right; right]; reflexivity.
Qed.

(** Reading into a buffer that was never advanced. *)
Lemma sc_fill_unadvanced (s : Scanner) :
  sc_start s = 0%nat -> sc_err s = None ->
  (length (sc_data s) < buffer_len)%nat ->
  concat (sc_reads s) <> [] ->
  exists s',
    sc_fill s = inl s' /\ sc_start s' = 0%nat /\ sc_err s' = None /\
    sc_remaining s' = sc_remaining s /\
    (length (sc_data s') <= buffer_len)%nat /\
    (reads_size (sc_reads s') < reads_size (sc_reads s))%nat.
Proof.
  intros Hstart Herr Hroom Hmore. unfold sc_fill. rewrite Herr, Hstart.
  cbn [Nat.ltb Nat.leb andb Nat.add].
  destruct (length (sc_data s) =? buffer_len)%nat eqn:Hfull;
    [apply Nat.eqb_eq in Hfull; lia|].
  destruct (read_some (buffer_len - length (sc_data s)) (sc_reads s))
    as [[got reads']|] eqn:Hread.
  - apply read_some_Some in Hread as (Hgot & Hfit & Hcat); [|lia].
    eexists. split; [reflexivity|]. cbn [sc_start sc_err sc_data sc_reads].
    split; [reflexivity|]. split; [reflexivity|]. split; [|split].
    + unfold sc_remaining. cbn [sc_data sc_reads]. rewrite <- app_assoc, Hcat. reflexivity.
    + rewrite length_app. lia.
    + unfold reads_size. rewrite <- Hcat, length_app.
      destruct got; [contradiction | cbn [length]; lia].
  - apply read_some_None in Hread. contradiction.
Qed.

Section TooLong.

Variables n rest : list byte.
Hypothesis noise_n : noise n.
Hypothesis full : length n = buffer_len.

Lemma scan_loop_too_long (fuel : nat) :
  forall s : Scanner,
    sc_start s = 0%nat -> sc_err s = None ->
    (length (sc_data s) <= buffer_len)%nat ->
    sc_remaining s = n ++ rest ->
    (reads_size (sc_reads s) < fuel)%nat ->
    exists s', scan_loop fuel s = (None, s') /\ sc_err s' = Some ErrTooLong.
Proof.
  induction fuel as [|fuel IH]; intros s Hstart Herr Hlen Hrem Hfuel; [lia|].
  assert (Hprefix : exists tail, sc_data s ++ tail = n).
  { unfold sc_remaining in Hrem.
    destruct (decide (length (sc_data s) < length n)%nat) as [Hlt|Hge].
    - destruct (app_cut_short _ _ _ _ Hrem Hlt) as (tail & Htail & _). exists tail. exact Htail.
    - destruct (app_cut_long _ _ _ _ Hrem ltac:(lia)) as (mid & Hdata & _).
      exists []. rewrite app_nil_r, Hdata.
      apply (f_equal length) in Hdata. rewrite length_app in Hdata.
      destruct mid; [apply app_nil_r | cbn [length] in Hdata; lia]. }
  destruct Hprefix as [tail Htail].
  rewrite scan_loop_more; [| assumption | ].
  2:{ rewrite <- Htail in noise_n. apply (splitFn_noise _ tail false noise_n). }
  destruct (decide (length (sc_data s) = buffer_len)) as [Hfull|Hroom].
  - unfold sc_fill. rewrite Herr, Hstart. cbn [Nat.ltb Nat.leb andb Nat.add].
    rewrite (proj2 (Nat.eqb_eq _ _) Hfull). eexists. split; reflexivity.
  - destruct (sc_fill_unadvanced s Hstart Herr) as (s2 & Hfill & Hs2 & He2 & Hr2 & Hl2 & Hlt);
      [lia | |].
    { intros Hnil. unfold sc_remaining in Hrem. rewrite Hnil, app_nil_r in Hrem.
      apply (f_equal length) in Hrem. rewrite length_app in Hrem. lia. }
    rewrite Hfill. apply IH; try assumption; [rewrite Hr2; assumption | lia].
Qed.

End TooLong.

(** X6. Once as many marker-free bytes as the buffer holds stand at the
    head of the stream, the Scanner stops with [ErrTooLong]: the framer
    gives out no RawSample at all, whatever follows those bytes and however
    the stream is read. *)
Theorem framer_too_long (reads : list (list byte)) (n rest : list byte) :
  concat reads = n ++ rest -> noise n -> len n = bufferSize ->
  exists s', frame reads = ([], s') /\ sc_err s' = Some ErrTooLong.
Proof.
  intros Hstream Hnoise Hfull. unfold frame.
  rewrite Nat.add_1_r. cbn [scan_tokens]. unfold Scan.
  destruct (scan_loop_too_long n rest Hnoise
              ltac:(rewrite <- buffer_len_bufferSize in Hfull; unfold len in Hfull; lia)
              (reads_size (sc_reads (NewScanner reads)) + 2) (NewScanner reads))
    as (s' & Hscan & Herr); try reflexivity.
  - cbn. lia.
  - exact Hstream.
  - lia.
  - rewrite Hscan. exists s'. split; [reflexivity | assumption].
Qed.

(** X6 on a buffer full of spaces in front of a record. *)
Lemma framer_too_long_witness :
  exists s', frame [blank_buffer ++ record_b] = ([], s') /\ sc_err s' = Some ErrTooLong.
Proof.
  apply (framer_too_long [blank_buffer ++ record_b] blank_buffer record_b).
  - cbn [concat]. apply app_nil_r.
  - apply noise_without_lt. apply Forall_replicate. discriminate.
  - unfold len, blank_buffer. rewrite length_replicate. apply buffer_len_bufferSize.
Defined.

(** ** The loop of [collectMetrics], continued *)

Section CollectorLoop.

Variable decode : list byte -> option (gmap string PValue).

(** A token without the XML declaration or without the end marker is
    only counted: it is not decoded, nothing is published, and the counter
    of consecutive failures goes up by one or, on reaching three, back to
    zero. *)
Lemma handle_sample_skips (plistData : list byte) (retryCount : Z) (mb : Mailboxes) :
  Index plistData xml_marker = -1 \/ Index plistData end_marker = -1 ->
  handle_sample decode plistData retryCount mb =
    Return (if maxRetries <=? int_add retryCount 1 then 0 else int_add retryCount 1, mb).
Proof.
  intros Hmissing. unfold handle_sample.
  assert (Hcond : negb (0 <=? Index plistData xml_marker)
                  || negb (0 <=? Index plistData end_marker) = true).
  { destruct Hmissing as [-> | ->]; cbn [Z.leb Z.compare negb orb];
      [reflexivity | apply orb_true_r]. }
  rewrite Hcond. destruct (maxRetries <=? int_add retryCount 1); reflexivity.
Qed.

Lemma handle_sample_counter (plistData : list byte) (retryCount retryCount' : Z)
    (mb mb' : Mailboxes) :
  0 <= retryCount < maxRetries ->
  handle_sample decode plistData retryCount mb = Return (retryCount', mb') ->
  0 <= retryCount' < maxRetries.
Proof.
  unfold maxRetries. intros Hrc. unfold handle_sample.
  assert (Hadd : int_add retryCount 1 = retryCount + 1).
  { apply wrap_small. unfold int_min, int_max. lia. }
  rewrite Hadd.
  destruct (negb (0 <=? Index plistData xml_marker)
            || negb (0 <=? Index plistData end_marker)).
  - unfold maxRetries.
    destruct (3 <=? retryCount + 1) eqn:Hmax; intros [= <- _];
      [lia | apply Z.leb_gt in Hmax; lia].
  - destruct (decode plistData) as [data|]; [|intros [= <- _]; lia].
    destruct (parseCPUMetrics data NewCPUMetrics); cbn; try discriminate.
    intros [= <- _]. lia.
Qed.

(** X7. Through any run of the loop the counter of consecutive failures
    stays within 0, 1 and 2. *)
Theorem collect_loop_counter (tokens : list (list byte)) :
  forall (retryCount retryCount' : Z) (mb mb' : Mailboxes),
    0 <= retryCount < maxRetries ->
    collect_loop decode tokens retryCount mb = Return (retryCount', mb') ->
    0 <= retryCount' < maxRetries.
Proof.
  induction tokens as [|tok tokens IH]; intros rc rc' mb mb' Hrc.
  - intros [= <- _]. assumption.
  - cbn [collect_loop].
    destruct (handle_sample decode tok rc mb) as [[rc1 mb1]| |] eqn:Hone;
      cbn; try discriminate.
    apply IH. apply (handle_sample_counter _ _ _ _ _ Hrc Hone).
Qed.

Lemma handle_sample_counter_inert (plistData : list byte) (rc1 rc2 : Z) (mb : Mailboxes) :
  match handle_sample decode plistData rc1 mb, handle_sample decode plistData rc2 mb with
  | Return (_, mb1), Return (_, mb2) => mb1 = mb2
  | Panic msg1, Panic msg2 => msg1 = msg2
  | Exit code1 msg1, Exit code2 msg2 => code1 = code2 /\ msg1 = msg2
  | _, _ => False
  end.
Proof.
  unfold handle_sample.
  destruct (negb (0 <=? Index plistData xml_marker)
            || negb (0 <=? Index plistData end_marker)).
  - destruct (maxRetries <=? int_add rc1 1), (maxRetries <=? int_add rc2 1); reflexivity.
  - destruct (decode plistData) as [data|]; [|reflexivity].
    destruct (parseCPUMetrics data NewCPUMetrics); cbn; auto.
Qed.

(** X8. The counter of consecutive failures has no effect on what the
    loop does: from two different counts, the same tokens lead to the same
    mailboxes, or to the same exit of the process. *)
Theorem collect_loop_counter_inert (tokens : list (list byte)) :
  forall (rc1 rc2 : Z) (mb : Mailboxes),
    match collect_loop decode tokens rc1 mb, collect_loop decode tokens rc2 mb with
    | Return (_, mb1), Return (_, mb2) => mb1 = mb2
    | Panic msg1, Panic msg2 => msg1 = msg2
    | Exit code1 msg1, Exit code2 msg2 => code1 = code2 /\ msg1 = msg2
    | _, _ => False
    end.
Proof.
  induction tokens as [|tok tokens IH]; intros rc1 rc2 mb; [reflexivity|].
  cbn [collect_loop].
  pose proof (handle_sample_counter_inert tok rc1 rc2 mb) as Hone.
  destruct (handle_sample decode tok rc1 mb) as [[rc1' mb1]| |],
           (handle_sample decode tok rc2 mb) as [[rc2' mb2]| |];
    cbn; try contradiction; try assumption.
  subst mb2. apply IH.
Qed.

End CollectorLoop.

(** X7 on a token of junk, with a decoder that rejects everything. *)
Lemma collect_loop_counter_witness : 0 <= 1 < maxRetries.
Proof.
  apply (collect_loop_counter (fun _ => None) [bytes "junk"] 0 1 main_channels main_channels).
  - unfold maxRetries. lia.
  - vm_compute. reflexivity.
Defined.

(** ** The mailboxes, continued *)

(** X9. The three publications that end an iteration act on each
    category by itself: a mailbox that is empty takes the value of the new
    record, and a mailbox whose value has not been read keeps that value,
    the new one being dropped. *)
Theorem publish_all_per_category (cpuMetrics : CPUMetrics) (gpuMetrics : GPUMetrics)
    (netdiskMetrics : NetDiskMetrics) (mb : Mailboxes) :
  single_slot mb ->
  forall c,
    pending c (publish_all cpuMetrics gpuMetrics netdiskMetrics mb) =
      match pending c mb with
      | [] => [sample_of cpuMetrics gpuMetrics netdiskMetrics c]
      | held => held
      end.
Proof.
  intros Hslot c.
  pose proof (Hslot CatCPU) as H1. pose proof (Hslot CatGPU) as H2.
  pose proof (Hslot CatNetDisk) as H3.
  destruct mb as [[c1 b1] [c2 b2] [c3 b3]]. cbn in H1, H2, H3. subst c1 c2 c3.
  destruct b1, b2, b3, c; reflexivity.
Qed.

(** X9 on the channels as [main] creates them. *)
Lemma publish_all_per_category_witness :
  pending CatGPU (publish_all NewCPUMetrics (gpu_sample 1200 35) zero_NetDiskMetrics
                    main_channels) = [gpu_sample 1200 35].
Proof.
  apply (publish_all_per_category NewCPUMetrics (gpu_sample 1200 35) zero_NetDiskMetrics
           main_channels).
  intros []; reflexivity.
Defined.

(** X10. The zero values that [collectMetrics] sends first stand in the
    way of the first decoded record: as long as no consumer has read a
    category, the first record's value for it is dropped and the mailbox
    still holds the zero value; once the zero value of a category has been
    read, the record's value is stored. *)
Theorem first_record_after_startup (updateInterval : string) (cpuMetrics : CPUMetrics)
    (gpuMetrics : GPUMetrics) (netdiskMetrics : NetDiskMetrics) :
  exists w,
    perform_all initial_world (collectMetrics_startup updateInterval) = Some w /\
    publish_all cpuMetrics gpuMetrics netdiskMetrics (mailboxes w) = mailboxes w /\
    (forall c, pending c (mailboxes w) = [zero_payload c]) /\
    (forall c mb,
        consume c (mailboxes w) = Some (zero_payload c, mb) ->
        pending c (publish_all cpuMetrics gpuMetrics netdiskMetrics mb) =
          [sample_of cpuMetrics gpuMetrics netdiskMetrics c]).
Proof.
  eexists. split; [reflexivity|]. split; [reflexivity|].
  split; [intros []; reflexivity|].
  intros [] mb [= <-]; reflexivity.
Qed.

Lemma apply_op_single_slot (mb : Mailboxes) (op : MailboxOp) :
  single_slot mb /\ (forall c, (length (pending c mb) <= 1)%nat) ->
  single_slot (apply_op mb op) /\ (forall c, (length (pending c (apply_op mb op)) <= 1)%nat).
Proof.
  intros [Hslot Hlen].
  pose proof (Hslot CatCPU) as H1. pose proof (Hslot CatGPU) as H2.
  pose proof (Hslot CatNetDisk) as H3.
  pose proof (Hlen CatCPU) as L1. pose proof (Hlen CatGPU) as L2.
  pose proof (Hlen CatNetDisk) as L3.
  destruct mb as [[c1 b1] [c2 b2] [c3 b3]]. cbn in H1, H2, H3, L1, L2, L3. subst c1 c2 c3.
  destruct op as [c v|c]; destruct c;
    destruct b1 as [|x1 b1], b2 as [|x2 b2], b3 as [|x3 b3];
    (split; [intros []; reflexivity | intros []; cbn in *; lia]).
Qed.

(** X11. However publications and reads of the three categories follow
    one another on the channels that [main] creates, no mailbox ever holds
    more than one value. *)
Theorem mailboxes_hold_at_most_one (ops : list MailboxOp) (c : Category) :
  (length (pending c (run_ops ops main_channels)) <= 1)%nat.
Proof.
  assert (Hinv : forall ops mb,
             single_slot mb /\ (forall c, (length (pending c mb) <= 1)%nat) ->
             single_slot (run_ops ops mb) /\
             (forall c, (length (pending c (run_ops ops mb)) <= 1)%nat)).
  { clear. induction ops as [|op ops IH]; intros mb Hmb; [exact Hmb|].
    unfold run_ops. cbn [foldl]. apply IH. apply apply_op_single_slot. exact Hmb. }
  apply Hinv. split; intros []; cbn; lia.
Qed.

(** ** The estimator, continued *)

(** X12. A call that returns has either passed on the error of the query
    and left the stored snapshot and the warm-up flag untouched, or stored
    the new snapshot, cleared the warm-up flag and produced one percentage
    per reported core. *)
Theorem GetCPUPercentages_returns (usage : Result (list CPUUsage)) (st st' : Estimator)
    (r : Result (list float)) :
  GetCPUPercentages usage st = Return (r, st') ->
  match usage with
  | Err msg => r = Err msg /\ st' = st
  | Ok currentTimes =>
      st' = {| lastCPUTimes := currentTimes; firstRun := false |} /\
      exists percentages, r = Ok percentages /\ length percentages = length currentTimes
  end.
Proof.
  destruct usage as [currentTimes|msg].
  - destruct (firstRun st) eqn:Hfirst.
    + unfold GetCPUPercentages. rewrite Hfirst. intros [= <- <-].
      split; [reflexivity|]. eexists. split; [reflexivity|]. apply length_replicate.
    + destruct (decide (length currentTimes <= length (lastCPUTimes st))%nat) as [Hle|Hgt].
      * destruct (GetCPUPercentages_later st currentTimes Hfirst Hle) as (ps & Hcall & Hlen & _).
        rewrite Hcall. intros [= <- <-]. split; [reflexivity|]. exists ps. split; [reflexivity | assumption].
      * rewrite GetCPUPercentages_more_cores_panics by (assumption || lia). discriminate.
  - cbn. intros [= <- <-]. split; reflexivity.
Qed.

(** X12 on a query that fails. *)
Lemma GetCPUPercentages_returns_witness :
  Err "host_processor_info" = Err (A := list float) "host_processor_info" /\
  two_core_estimator = two_core_estimator.
Proof.
  apply (GetCPUPercentages_returns (Err "host_processor_info") two_core_estimator
           two_core_estimator (Err "host_processor_info")).
  reflexivity.
Defined.

(** X13. A call panics exactly when it is not the first one and the query
    reports more cores than the stored snapshot has; it never exits the
    process. *)
Theorem GetCPUPercentages_panics_iff (usage : Result (list CPUUsage)) (st : Estimator) :
  ((exists msg, GetCPUPercentages usage st = Panic msg) <->
   (exists currentTimes,
       usage = Ok currentTimes /\ firstRun st = false /\
       (length (lastCPUTimes st) < length currentTimes)%nat)) /\
  (forall code msg, GetCPUPercentages usage st <> Exit code msg).
Proof.
  destruct usage as [currentTimes|msg0].
  - destruct (firstRun st) eqn:Hfirst.
    + unfold GetCPUPercentages. rewrite Hfirst. split; [split|].
      * intros [msg H]. discriminate.
      * intros (cur & _ & H & _). discriminate.
      * intros code msg. discriminate.
    + destruct (decide (length currentTimes <= length (lastCPUTimes st))%nat) as [Hle|Hgt].
      * destruct (GetCPUPercentages_later st currentTimes Hfirst Hle) as (ps & Hcall & _).
        rewrite Hcall. split; [split|].
        -- intros [msg H]. discriminate.
        -- intros (cur & [= <-] & _ & H). lia.
        -- intros code msg. discriminate.
      * rewrite GetCPUPercentages_more_cores_panics by (assumption || lia). split; [split|].
        -- intros _. exists currentTimes. repeat split. lia.
        -- intros _. eexists. reflexivity.
        -- intros code msg. discriminate.
  - cbn. split; [split|].
    + intros [msg H]. discriminate.
    + intros (cur & H & _). discriminate.
    + intros code msg. discriminate.
Qed.

(** X14. As long as every successful query reports the same number of
    cores, no poll panics, whatever query errors come in between: a run of
    polls from the start of the process returns one result per poll. *)
Theorem poll_all_constant_cores (n : nat) (queries : list (Result (list CPUUsage))) :
  Forall (reports_cores n) queries ->
  exists results st,
    poll_all queries initial_estimator = Return (results, st) /\
    length results = length queries.
Proof.
  assert (Hgen : forall queries st,
             Forall (reports_cores n) queries ->
             firstRun st = true \/ length (lastCPUTimes st) = n ->
             exists results st',
               poll_all queries st = Return (results, st') /\
               length results = length queries).
  { clear. induction queries as [|usage queries IH]; intros st Hall Hst.
    - exists [], st. split; reflexivity.
    - inversion Hall as [|u us Hu Hus]; subst.
      cbn [poll_all].
      assert (Hcall : exists r st1, GetCPUPercentages usage st = Return (r, st1) /\
                        (firstRun st1 = true \/ length (lastCPUTimes st1) = n)).
      { destruct usage as [cur|msg].
        - cbn in Hu. destruct (firstRun st) eqn:Hfirst.
          + unfold GetCPUPercentages. rewrite Hfirst. do 2 eexists.
            split; [reflexivity|]. right. exact Hu.
          + destruct Hst as [Hst|Hst]; [congruence|].
            destruct (GetCPUPercentages_later st cur Hfirst) as (ps & Hcall & _); [lia|].
            rewrite Hcall. do 2 eexists. split; [reflexivity|]. right. exact Hu.
        - exists (Err msg), st. split; [reflexivity | exact Hst]. }
      destruct Hcall as (r & st1 & Hcall & Hst1). rewrite Hcall. cbn.
      destruct (IH st1 Hus Hst1) as (rs & st2 & Hrest & Hlen).
      rewrite Hrest. cbn. exists (r :: rs), st2. split; [reflexivity|].
      cbn. lia. }
  intros Hall. apply Hgen; [assumption | left; reflexivity].
Qed.

(** X14 on three polls of two cores. *)
Lemma poll_all_constant_cores_witness :
  exists results st,
    poll_all three_polls initial_estimator = Return (results, st) /\
    length results = 3%nat.
Proof.
  apply (poll_all_constant_cores 2 three_polls).
  repeat constructor.
Defined.

(** ** The resolver and the inline code, layout by layout *)

(** The index lists of the four single-pattern layouts in closed form. *)
Lemma GetCoreTopology_closed_form (sysInfo : SystemInfo) (topology : CoreTopology) :
  GetCoreTopology sysInfo = Return topology ->
  let P := PCoreCount sysInfo in
  let E := ECoreCount sysInfo in
  0 <= P <= maxSliceCap /\ 0 <= E <= maxSliceCap /\
  match layout_of sysInfo with
  | M3Ultra32 =>
      P = 24 /\ E = 8 /\
      PCoreIndices topology = seqZ 4 12 ++ seqZ 20 12 /\
      ECoreIndices topology = seqZ 0 4 ++ seqZ 16 4
  | M3Ultra28 =>
      P = 20 /\ E = 8 /\
      PCoreIndices topology = seqZ 4 10 ++ seqZ 18 10 /\
      ECoreIndices topology = seqZ 0 4 ++ seqZ 14 4
  | M4Pro =>
      PCoreIndices topology = seqZ E P /\ ECoreIndices topology = seqZ 0 E
  | LegacyUltra => True
  | Standard =>
      PCoreIndices topology = seqZ 0 P /\ ECoreIndices topology = seqZ P E
  end.
Proof.
  intros Hret P E. pose proof maxSliceCap_value as Hcap.
  revert Hret. unfold GetCoreTopology, layout_of. fold P E.
  destruct (Contains (Name sysInfo) "M3 Ultra" && (P =? 24) && (E =? 8)) eqn:C32.
  { apply andb_prop in C32 as [C32 He]. apply andb_prop in C32 as [_ Hp].
    apply Z.eqb_eq in He, Hp. rewrite He, Hp.
    intros Hret. inversion Hret; subst topology; clear Hret.
    repeat split; try lia; reflexivity. }
  destruct (Contains (Name sysInfo) "M3 Ultra" && (P =? 20) && (E =? 8)) eqn:C28.
  { apply andb_prop in C28 as [C28 He]. apply andb_prop in C28 as [_ Hp].
    apply Z.eqb_eq in He, Hp. rewrite He, Hp.
    intros Hret. inversion Hret; subst topology; clear Hret.
    repeat split; try lia; reflexivity. }
  destruct (make_ints P) as [p0| |] eqn:Hp;
    [|repeat match goal with |- context [if ?b then _ else _] => destruct b end; discriminate ..].
  destruct (make_ints E) as [e0| |] eqn:He;
    [|repeat match goal with |- context [if ?b then _ else _] => destruct b end; discriminate ..].
  apply make_ints_Return in Hp as [-> HP], He as [-> HE].
  destruct (Contains (Name sysInfo) "M4 Pro") eqn:CM4.
  { simpl. intros Hret. inversion Hret; subst topology; clear Hret. simpl.
    rewrite int_add_small by lia. unfold append_range. simpl.
    repeat split; try lia; f_equal; lia. }
  destruct (Contains (Name sysInfo) "M1 Ultra" || Contains (Name sysInfo) "M2 Ultra") eqn:CLeg.
  { intros _. repeat split; lia. }
  simpl. intros Hret. inversion Hret; subst topology; clear Hret. simpl.
  rewrite int_add_small by lia. unfold append_range. simpl.
  repeat split; try lia; f_equal; lia.
Qed.

(** X15. Outside the legacy dual-die case the resolver returns as many
    performance indices as the chip has performance cores and as many
    efficiency indices as it has efficiency cores, each list in ascending
    order. *)
Theorem GetCoreTopology_class_sizes (sysInfo : SystemInfo) (topology : CoreTopology) :
  layout_of sysInfo <> LegacyUltra ->
  GetCoreTopology sysInfo = Return topology ->
  Z.of_nat (length (PCoreIndices topology)) = PCoreCount sysInfo /\
  Z.of_nat (length (ECoreIndices topology)) = ECoreCount sysInfo /\
  ascending (PCoreIndices topology) /\
  ascending (ECoreIndices topology).
Proof.
  intros Hlayout Hret.
  destruct (GetCoreTopology_closed_form sysInfo topology Hret) as (HP & HE & Hform).
  assert (Hsorted : forall a n, ascending (seqZ a n)).
  { intros a n i j x y Hi Hj Hij.
    apply lookup_seqZ in Hi as [-> _], Hj as [-> _]. lia. }
  assert (Hsorted2 : forall a n b m, a + n <= b -> 0 <= n ->
             ascending (seqZ a n ++ seqZ b m)).
  { intros a n b m Hab Hn i j x y Hi Hj Hij.
    apply lookup_app_Some in Hi as [Hi|[Hi1 Hi]], Hj as [Hj|[Hj1 Hj]];
      rewrite ?length_seqZ in *;
      apply lookup_seqZ in Hi as [-> Hi], Hj as [-> Hj]; lia. }
  destruct (layout_of sysInfo); try congruence.
  - destruct Hform as (-> & -> & -> & ->).
    repeat split; try reflexivity; apply Hsorted2; lia.
  - destruct Hform as (-> & -> & -> & ->).
    repeat split; try reflexivity; apply Hsorted2; lia.
  - destruct Hform as (-> & ->). rewrite !length_seqZ.
    repeat split; try lia; apply Hsorted.
  - destruct Hform as (-> & ->). rewrite !length_seqZ.
    repeat split; try lia; apply Hsorted.
Qed.

(** X15 on the M4 Pro (10P + 4E). *)
Lemma GetCoreTopology_class_sizes_witness :
  exists topology,
    GetCoreTopology m4_pro = Return topology /\
    Z.of_nat (length (PCoreIndices topology)) = 10 /\
    Z.of_nat (length (ECoreIndices topology)) = 4.
Proof.
  eexists. split; [reflexivity|].
  destruct (GetCoreTopology_class_sizes m4_pro _ ltac:(vm_compute; discriminate) eq_refl)
    as (HP & HE & _).
  split; [exact HP | exact HE].
Defined.

(** X16. On a chip of the standard layout that the inline code does not take
    for a dual-die one, both revisions of [runHeadless] count the same
    cores in each class, whatever the number of measured cores. *)
Theorem standard_layout_revisions_agree (sysInfo : SystemInfo) (topology : CoreTopology)
    (len : Z) :
  layout_of sysInfo = Standard ->
  IsUltra sysInfo && (Contains (Name sysInfo) "M1" || Contains (Name sysInfo) "M2") = false ->
  GetCoreTopology sysInfo = Return topology ->
  inline_classes sysInfo len = resolver_classes topology len.
Proof.
  intros Hlayout Hflag Hret.
  destruct (GetCoreTopology_closed_form sysInfo topology Hret) as (HP & HE & Hform).
  rewrite Hlayout in Hform. destruct Hform as [HPs HEs].
  pose proof maxSliceCap_value as Hcap.
  unfold inline_classes, resolver_classes. rewrite Hflag.
  rewrite !loop_indices_range by lia.
  rewrite HPs, HEs, !counted_indices_seqZ. cbn [app]. reflexivity.
Qed.

(** X16 on the M1 Max (8P + 2E). *)
Lemma standard_layout_revisions_agree_witness :
  exists topology,
    GetCoreTopology m1_max = Return topology /\
    inline_classes m1_max 10 = resolver_classes topology 10.
Proof.
  eexists. split; [reflexivity|].
  apply standard_layout_revisions_agree; reflexivity.
Defined.

(** X17. On the chips whose efficiency cores come first (M4 Pro and both
    M3 Ultra layouts) the two revisions of [runHeadless] disagree from the
    first core on: the resolver counts core 0 as an efficiency core, the
    inline code counts it as a performance core. *)
Theorem efficiency_first_revisions_disagree (sysInfo : SystemInfo) (topology : CoreTopology)
    (len : Z) :
  layout_of sysInfo <> LegacyUltra -> layout_of sysInfo <> Standard ->
  IsUltra sysInfo && (Contains (Name sysInfo) "M1" || Contains (Name sysInfo) "M2") = false ->
  GetCoreTopology sysInfo = Return topology ->
  0 < PCoreCount sysInfo -> 0 < ECoreCount sysInfo -> 0 < len ->
  class_of (resolver_classes topology len) 0 = Some Efficiency /\
  class_of (inline_classes sysInfo len) 0 = Some Performance.
Proof.
  intros Hleg Hstd Hflag Hret HP0 HE0 Hlen.
  destruct (GetCoreTopology_closed_form sysInfo topology Hret) as (HP & HE & Hform).
  pose proof maxSliceCap_value as Hcap.
  split.
  - unfold class_of, resolver_classes, counted_indices. cbn [fst snd].
    assert (Hclasses : (0 ∉ PCoreIndices topology) /\ (0 ∈ ECoreIndices topology)).
    { destruct (layout_of sysInfo); try congruence.
      - destruct Hform as (_ & _ & -> & ->).
        rewrite not_elem_of_app, elem_of_app, !elem_of_seqZ. lia.
      - destruct Hform as (_ & _ & -> & ->).
        rewrite not_elem_of_app, elem_of_app, !elem_of_seqZ. lia.
      - destruct Hform as (-> & ->). rewrite !elem_of_seqZ. lia. }
    destruct Hclasses as [HnotP HinE].
    rewrite bool_decide_eq_false_2.
    + rewrite bool_decide_eq_true_2; [reflexivity|].
      apply list_elem_of_filter. split; [lia | exact HinE].
    + rewrite list_elem_of_filter. tauto.
  - unfold class_of, inline_classes. rewrite Hflag. cbn [fst snd].
    rewrite !loop_indices_range by lia. cbn [app].
    rewrite bool_decide_eq_true_2; [reflexivity|].
    apply elem_of_seqZ. lia.
Qed.

(** X17 on the M3 Ultra (24P + 8E). *)
Lemma efficiency_first_revisions_disagree_witness :
  exists topology,
    GetCoreTopology m3_ultra = Return topology /\
    class_of (resolver_classes topology 32) 0 = Some Efficiency /\
    class_of (inline_classes m3_ultra 32) 0 = Some Performance.
Proof.
  eexists. split; [reflexivity|].
  apply efficiency_first_revisions_disagree;
    try reflexivity; try (vm_compute; discriminate).
Defined.

(** X18: the agreement on even counts, on the M2 Ultra (16P + 8E). *)
Lemma legacy_ultra_even_counts_agree_witness :
  exists topology,
    GetCoreTopology m2_ultra = Return topology /\
    inline_classes m2_ultra 24 = resolver_classes topology 24.
Proof.
  eexists. split; [reflexivity|].
  apply legacy_ultra_even_counts_agree; reflexivity.
Defined.

(** ** The core grid of the widget *)

Lemma screen_limit_value : screen_limit = 2 ^ 30.
Proof. reflexivity. Qed.

Lemma int_quo_small (a b : Z) :
  0 <= a <= 2 ^ 62 -> 0 < b -> int_quo a b = Return (a / b).
Proof.
  intros Ha Hb. unfold int_quo.
  destruct (b =? 0) eqn:Hz; [apply Z.eqb_eq in Hz; lia|].
  rewrite Z.quot_div_nonneg by lia. f_equal. apply wrap_small.
  assert (0 <= a / b <= a).
  { split; [apply Z.div_pos; lia|]. apply Z.div_le_upper_bound; [lia|].
    destruct Ha as [Ha _]. clear -Ha Hb. nia. }
  unfold int_min, int_max. lia.
Qed.

Lemma int_div_small (a b : Z) :
  0 <= a <= 2 ^ 62 -> 0 < b -> int_div a b = a / b.
Proof.
  intros Ha Hb. unfold int_div. rewrite Z.quot_div_nonneg by lia. apply wrap_small.
  assert (0 <= a / b <= a).
  { split; [apply Z.div_pos; lia|]. apply Z.div_le_upper_bound; [lia|].
    destruct Ha as [Ha _]. clear -Ha Hb. nia. }
  unfold int_min, int_max. lia.
Qed.

Lemma int_rem_small (a b : Z) :
  0 <= a -> 0 < b -> int_rem a b = Return (a mod b).
Proof.
  intros Ha Hb. unfold int_rem.
  destruct (b =? 0) eqn:Hz; [apply Z.eqb_eq in Hz; lia|].
  rewrite Z.rem_mod_nonneg by lia. reflexivity.
Qed.

Lemma int_quo_zero (a : Z) : int_quo a 0 = Panic "integer divide by zero".
Proof. reflexivity. Qed.

Lemma int_arith_small (z : Z) : - 2 ^ 62 <= z <= 2 ^ 62 -> wrap z = z.
Proof. intros Hz. apply wrap_small. unfold int_min, int_max. lia. Qed.

(** The rounded-up quotient [(n + c - 1) / c]. *)
Lemma ceil_div_spec (n c : Z) :
  1 <= n -> 1 <= c ->
  1 <= (n + c - 1) / c <= n /\ n <= (n + c - 1) / c * c /\ ((n + c - 1) / c - 1) * c < n.
Proof.
  intros Hn Hc.
  pose proof (Z.div_mod (n + c - 1) c ltac:(lia)) as Hdm.
  pose proof (Z.mod_pos_bound (n + c - 1) c ltac:(lia)) as Hmod.
  set (q := (n + c - 1) / c) in *. set (r := (n + c - 1) mod c) in *.
  assert (1 <= q) by nia.
  assert (q <= n) by nia.
  repeat split; nia.
Qed.

(** [max] returns the largest of its arguments, and panics without any. *)
Lemma max_two (a b : Z) : max [a; b] = Return (Z.max a b).
Proof.
  unfold max, index. change (Z.to_nat 0) with 0%nat.
  cbn [Z.ltb Z.compare lookup list_lookup mbind Outcome_bind outcome_bind drop foldl]. f_equal.
  destruct (a <? b) eqn:Hab; [apply Z.ltb_lt in Hab | apply Z.ltb_ge in Hab]; lia.
Qed.

(** The columns that the width allows, before the height is looked at. *)
Lemma Draw_grid_columns (totalCores availableWidth : Z) :
  0 <= availableWidth <= screen_limit ->
  exists cols,
    (if int_div availableWidth (if 16 <? totalCores then 8 else 4) <? minColWidth
     then max [1; int_div availableWidth minColWidth]
     else Return (if 16 <? totalCores then 8 else 4)) = Return cols /\
    1 <= cols <= screen_limit.
Proof.
  rewrite screen_limit_value. intros Hw.
  unfold minColWidth. rewrite max_two.
  rewrite (int_div_small availableWidth 20) by lia.
  assert (0 <= availableWidth / 20 <= availableWidth)
    by (split; [apply Z.div_pos; lia | apply Z.div_le_upper_bound; lia]).
  destruct (int_div availableWidth _ <? 20).
  - eexists. split; [reflexivity|]. lia.
  - eexists. split; [reflexivity|]. destruct (16 <? totalCores); lia.
Qed.

(** With at least one row of room the grid has at least one column and one
    row, no more rows than the rectangle is high, and room for every
    core. *)
Lemma Draw_grid_returns (totalCores availableWidth availableHeight : Z) :
  1 <= totalCores <= screen_limit ->
  0 <= availableWidth <= screen_limit ->
  1 <= availableHeight ->
  exists cols rows,
    Draw_grid totalCores availableWidth availableHeight = Return (cols, rows) /\
    1 <= cols <= screen_limit /\
    1 <= rows /\ rows <= availableHeight /\ rows <= totalCores /\
    totalCores <= rows * cols.
Proof.
  intros Hn Hw Hh. unfold Draw_grid.
  destruct (Draw_grid_columns totalCores availableWidth Hw) as (cols0 & -> & Hc0).
  rewrite screen_limit_value in *. cbn [mbind Outcome_bind outcome_bind].
  unfold int_add, int_sub.
  rewrite (int_arith_small (totalCores + cols0)) by lia.
  rewrite (int_arith_small (totalCores + cols0 - 1)) by lia.
  rewrite (int_quo_small (totalCores + cols0 - 1) cols0) by lia. cbn [mbind Outcome_bind outcome_bind].
  destruct (ceil_div_spec totalCores cols0) as (Hr1 & Hr2 & Hr3); [lia ..|].
  set (rows0 := (totalCores + cols0 - 1) / cols0) in *.
  destruct (availableHeight <? rows0) eqn:Hclamp.
  - apply Z.ltb_lt in Hclamp.
    rewrite (int_arith_small (totalCores + availableHeight)) by lia.
    rewrite (int_arith_small (totalCores + availableHeight - 1)) by lia.
    rewrite int_quo_small by lia. cbn [mbind Outcome_bind outcome_bind].
    destruct (ceil_div_spec totalCores availableHeight) as (Hs1 & Hs2 & Hs3); [lia ..|].
    do 2 eexists. split; [reflexivity|]. lia.
  - apply Z.ltb_ge in Hclamp.
    do 2 eexists. split; [reflexivity|]. lia.
Qed.

(** Without a row of room the method divides by zero. *)
Lemma Draw_grid_no_rows (totalCores availableWidth : Z) :
  1 <= totalCores <= screen_limit ->
  0 <= availableWidth <= screen_limit ->
  Draw_grid totalCores availableWidth 0 = Panic "integer divide by zero".
Proof.
  intros Hn Hw. unfold Draw_grid.
  destruct (Draw_grid_columns totalCores availableWidth Hw) as (cols0 & -> & Hc0).
  rewrite screen_limit_value in *. cbn [mbind Outcome_bind outcome_bind].
  unfold int_add, int_sub.
  rewrite (int_arith_small (totalCores + cols0)) by lia.
  rewrite (int_arith_small (totalCores + cols0 - 1)) by lia.
  rewrite (int_quo_small (totalCores + cols0 - 1) cols0) by lia. cbn [mbind Outcome_bind outcome_bind].
  destruct (ceil_div_spec totalCores cols0) as (Hr1 & Hr2 & Hr3); [lia ..|].
  destruct (0 <? _) eqn:Hclamp; [|apply Z.ltb_ge in Hclamp; lia].
  reflexivity.
Qed.

Lemma seqZ_snoc (k : nat) : seqZ 0 (Z.of_nat (S k)) = seqZ 0 (Z.of_nat k) ++ [Z.of_nat k].
Proof.
  replace (Z.of_nat (S k)) with (Z.of_nat k + 1) by lia.
  rewrite seqZ_app by lia.
  rewrite (seqZ_cons _ 1), (seqZ_nil _ (Z.pred 1)) by lia. reflexivity.
Qed.

(** The loop over the columns, after [k] rounds. *)
Lemma column_fold (baseWidth remainder : Z) (n : nat) :
  0 <= baseWidth <= screen_limit -> 0 <= remainder -> Z.of_nat n <= screen_limit ->
  forall k : nat, (k <= n)%nat ->
    foldl (column_step baseWidth remainder) (replicate n 0, replicate n 0, 0)
          (seqZ 0 (Z.of_nat k)) =
    (((fun c => baseWidth + (if c <? remainder then 1 else 0)) <$> seqZ 0 (Z.of_nat k))
       ++ replicate (n - k) 0,
     ((fun c => c * baseWidth + Z.min c remainder) <$> seqZ 0 (Z.of_nat k))
       ++ replicate (n - k) 0,
     Z.of_nat k * baseWidth + Z.min (Z.of_nat k) remainder).
Proof.
  rewrite screen_limit_value. intros Hbase Hrem Hn.
  induction k as [|k IH]; intros Hk.
  - change (Z.of_nat 0) with 0. rewrite (seqZ_nil 0 0) by lia.
    cbn [foldl fmap list_fmap app]. rewrite Nat.sub_0_r. do 2 f_equal. lia.
  - rewrite seqZ_snoc, foldl_app, IH by lia. cbn [foldl column_step].
    rewrite Nat2Z.id.
    replace (n - k)%nat with (S (n - S k)) by lia. cbn [replicate].
    rewrite !insert_app_r_alt by (rewrite length_fmap, length_seqZ; lia).
    rewrite !length_fmap, !length_seqZ, Nat2Z.id, Nat.sub_diag. cbn [insert list_insert].
    rewrite !fmap_app. cbn [fmap list_fmap]. rewrite <- !app_assoc. cbn [app].
    assert (Hw : (if Z.of_nat k <? remainder then int_add baseWidth 1 else baseWidth) =
                 baseWidth + (if Z.of_nat k <? remainder then 1 else 0)).
    { destruct (Z.of_nat k <? remainder); [|lia].
      unfold int_add. apply int_arith_small. lia. }
    rewrite Hw. f_equal.
    unfold int_add. rewrite int_arith_small.
    + destruct (Z.of_nat k <? remainder) eqn:Hlt;
        [apply Z.ltb_lt in Hlt | apply Z.ltb_ge in Hlt]; lia.
    + destruct (Z.of_nat k <? remainder); nia.
Qed.

(** Every column gets the quotient of the width by the number of columns,
    the first [width mod cols] of them one cell more, and the columns lie
    side by side from the left edge. *)
Lemma Draw_columns_spec (availableWidth cols : Z) :
  0 <= availableWidth <= screen_limit -> 1 <= cols <= screen_limit ->
  Draw_columns availableWidth cols =
    Return (column_width availableWidth cols <$> seqZ 0 cols,
            column_left availableWidth cols <$> seqZ 0 cols).
Proof.
  intros Hw Hc. pose proof screen_limit_value as Hlim. unfold Draw_columns.
  assert (Hmake : make_zeros cols = Return (replicate (Z.to_nat cols) 0)).
  { unfold make_zeros.
    destruct (cols <? 0) eqn:Hneg; [apply Z.ltb_lt in Hneg; lia|].
    destruct (maxSliceCap <? cols) eqn:Hbig; [|reflexivity].
    apply Z.ltb_lt in Hbig. rewrite maxSliceCap_value in Hbig. lia. }
  rewrite Hmake. cbn [mbind Outcome_bind outcome_bind].
  rewrite int_quo_small, int_rem_small by lia. cbn [mbind Outcome_bind outcome_bind].
  assert (0 <= availableWidth / cols <= availableWidth).
  { split; [apply Z.div_pos; lia|]. apply Z.div_le_upper_bound; [lia|].
    destruct Hw as [Hw _]. destruct Hc as [Hc _]. clear -Hw Hc. nia. }
  pose proof (Z.mod_pos_bound availableWidth cols ltac:(lia)) as Hmod.
  pose proof (column_fold (availableWidth / cols) (availableWidth mod cols) (Z.to_nat cols)
                ltac:(lia) ltac:(lia) ltac:(lia) (Z.to_nat cols) ltac:(lia)) as Hfold.
  rewrite Z2Nat.id in Hfold by lia. rewrite Hfold.
  rewrite Nat.sub_diag. cbn [replicate]. rewrite !app_nil_r.
  reflexivity.
Qed.

(** A column ends where the next one begins, and the last one at the right
    edge. *)
Lemma column_left_next (width cols c : Z) :
  0 <= c ->
  column_left width cols c + column_width width cols c = column_left width cols (c + 1).
Proof.
  intros Hc. unfold column_left, column_width.
  destruct (c <? width mod cols) eqn:Hlt;
    [apply Z.ltb_lt in Hlt | apply Z.ltb_ge in Hlt]; lia.
Qed.

Lemma column_left_bounds (width cols c : Z) :
  0 <= width -> 1 <= cols -> 0 <= c <= cols ->
  0 <= column_left width cols c <= width.
Proof.
  intros Hw Hcols Hc. unfold column_left.
  pose proof (Z.div_mod width cols ltac:(lia)) as Hdm.
  pose proof (Z.mod_pos_bound width cols ltac:(lia)) as Hmod.
  assert (0 <= width / cols) by (apply Z.div_pos; lia).
  split; [nia|].
  assert (c * (width / cols) <= cols * (width / cols)) by nia.
  lia.
Qed.

Lemma column_left_last (width cols : Z) :
  0 <= width -> 1 <= cols -> column_left width cols cols = width.
Proof.
  intros Hw Hcols. unfold column_left.
  pose proof (Z.div_mod width cols ltac:(lia)) as Hdm.
  pose proof (Z.mod_pos_bound width cols ltac:(lia)) as Hmod.
  lia.
Qed.

Lemma column_width_bounds (width cols c : Z) :
  0 <= width -> 1 <= cols ->
  0 <= width / cols <= column_width width cols c /\
  column_width width cols c <= width / cols + 1.
Proof.
  intros Hw Hcols. unfold column_width.
  assert (0 <= width / cols) by (apply Z.div_pos; lia).
  destruct (c <? width mod cols); lia.
Qed.

Lemma index_fmap_seqZ (f : Z -> Z) (n c : Z) :
  0 <= c < n -> index (f <$> seqZ 0 n) c = Return (f c).
Proof.
  intros Hc. unfold index.
  destruct (c <? 0) eqn:Hneg; [apply Z.ltb_lt in Hneg; lia|].
  rewrite list_lookup_fmap.
  rewrite (proj2 (lookup_seqZ 0 n (Z.to_nat c) c)) by lia. reflexivity.
Qed.

Section DrawCore.

Variable w : CPUCoreWidget.
Variables cols rows : Z.

Let totalCores := Z.of_nat (length (cores w)).
Let availableWidth := X (Max (Inner w)) - X (Min (Inner w)).
Let availableHeight := Y (Max (Inner w)) - Y (Min (Inner w)).

Hypothesis Hscreen : on_screen (Inner w).
Hypothesis Htotal : totalCores <= screen_limit.
Hypothesis Hcols : 1 <= cols <= screen_limit.
Hypothesis Hrows : 1 <= rows <= availableHeight.

(** One round of the loop over the cores. *)
Lemma Draw_core_spec (i : Z) :
  0 <= i < totalCores ->
  Draw_core w totalCores cols rows
    (column_width availableWidth cols <$> seqZ 0 cols)
    (column_left availableWidth cols <$> seqZ 0 cols) i =
  Return (cell_at w cols rows i).
Proof.
  intros Hi. pose proof screen_limit_value as Hlim.
  destruct Hscreen as (HX & HXm & HY & HYm).
  unfold Draw_core, cell_at. fold totalCores availableWidth.
  rewrite int_rem_small, int_quo_small by lia.
  cbn [mbind Outcome_bind outcome_bind].
  pose proof (Z.mod_pos_bound i cols ltac:(lia)) as Hcol.
  assert (Hrow : 0 <= i / cols <= i).
  { split; [apply Z.div_pos; lia|]. apply Z.div_le_upper_bound; [lia|].
    destruct Hi as [Hi _]. destruct Hcols as [Hc _]. clear -Hi Hc. nia. }
  assert (Hmul : int_mul (i mod cols) rows = i mod cols * rows).
  { unfold int_mul. apply int_arith_small. subst availableHeight. nia. }
  assert (Hact : int_add (int_mul (i mod cols) rows) (i / cols) = shown_core cols rows i).
  { rewrite Hmul. unfold int_add, shown_core. apply int_arith_small.
    subst availableHeight. nia. }
  rewrite Hact.
  assert (Hshown : 0 <= shown_core cols rows i) by (unfold shown_core; nia).
  destruct ((totalCores <=? shown_core cols rows i) || (rows <=? i / cols)) eqn:Hskip;
    [reflexivity|].
  apply orb_false_iff in Hskip as [Hlt Hrowlt].
  apply Z.leb_gt in Hlt, Hrowlt.
  rewrite !index_fmap_seqZ by lia. cbn [mbind Outcome_bind outcome_bind].
  pose proof (column_left_bounds availableWidth cols (i mod cols)
                ltac:(subst availableWidth; lia) ltac:(lia) ltac:(lia)) as Hleft.
  pose proof (column_left_bounds availableWidth cols (i mod cols + 1)
                ltac:(subst availableWidth; lia) ltac:(lia) ltac:(lia)) as Hnext.
  rewrite <- column_left_next in Hnext by lia.
  pose proof (column_width_bounds availableWidth cols (i mod cols)
                ltac:(subst availableWidth; lia) ltac:(lia)) as Hwidth.
  assert (Hx : int_add (X (Min (Inner w))) (column_left availableWidth cols (i mod cols)) =
               X (Min (Inner w)) + column_left availableWidth cols (i mod cols)).
  { unfold int_add. apply int_arith_small. subst availableWidth. lia. }
  assert (Hy : int_add (Y (Min (Inner w))) (i / cols) = Y (Min (Inner w)) + i / cols).
  { unfold int_add. apply int_arith_small. subst availableHeight. lia. }
  rewrite Hx, Hy.
  destruct (Y (Max (Inner w)) <=? Y (Min (Inner w)) + i / cols) eqn:Hbelow;
    [apply Z.leb_le in Hbelow; subst availableHeight; lia|].
  unfold index.
  destruct (shown_core cols rows i <? 0) eqn:Hneg; [apply Z.ltb_lt in Hneg; lia|].
  destruct (cores w !! Z.to_nat (shown_core cols rows i)) as [usage|] eqn:Husage.
  2:{ apply lookup_ge_None in Husage. subst totalCores. lia. }
  cbn [mbind Outcome_bind outcome_bind option_bind].
  unfold labelWidth in *.
  assert (Hav : int_sub (column_width availableWidth cols (i mod cols)) 3 =
                column_width availableWidth cols (i mod cols) - 3).
  { unfold int_sub. apply int_arith_small. subst availableWidth. lia. }
  rewrite Hav.
  assert (Hright : int_add (int_add (X (Min (Inner w)) +
                       column_left availableWidth cols (i mod cols)) 3)
                     (column_width availableWidth cols (i mod cols) - 3) =
                   X (Min (Inner w)) + column_left availableWidth cols (i mod cols) +
                   column_width availableWidth cols (i mod cols)).
  { unfold int_add.
    rewrite (int_arith_small (_ + 3)) by (subst availableWidth; lia).
    rewrite int_arith_small by (subst availableWidth; lia). lia. }
  rewrite Hright.
  destruct (X (Max (Inner w)) <? _) eqn:Hclamp;
    [apply Z.ltb_lt in Hclamp; subst availableWidth; lia|].
  reflexivity.
Qed.

End DrawCore.

Lemma Draw_cores_spec (body : Z -> Outcome (option Cell)) (f : Z -> option Cell)
    (indices : list Z) :
  (forall i, i ∈ indices -> body i = Return (f i)) ->
  forall cells, Draw_cores body indices cells = Return (cells ++ omap f indices).
Proof.
  induction indices as [|i rest IH]; intros Hbody cells.
  - cbn. rewrite app_nil_r. reflexivity.
  - cbn [Draw_cores]. rewrite (Hbody i) by left.
    cbn [mbind Outcome_bind outcome_bind].
    rewrite IH by (intros j Hj; apply Hbody; right; exact Hj).
    cbn [omap list_omap]. destruct (f i); [|reflexivity].
    rewrite <- app_assoc. reflexivity.
Qed.

Lemma Dx_on_screen (r : Rectangle) :
  on_screen r -> Dx r = X (Max r) - X (Min r) /\ 0 <= Dx r <= screen_limit.
Proof.
  intros (HX & HXm & _). rewrite screen_limit_value in *.
  unfold Dx, int_sub. rewrite int_arith_small by lia. lia.
Qed.

Lemma Dy_on_screen (r : Rectangle) :
  on_screen r -> Dy r = Y (Max r) - Y (Min r) /\ 0 <= Dy r <= screen_limit.
Proof.
  intros (_ & _ & HY & HYm). rewrite screen_limit_value in *.
  unfold Dy, int_sub. rewrite int_arith_small by lia. lia.
Qed.

(** [Draw] in closed form, when the rectangle has a row of room. *)
Lemma Draw_closed_form (w : CPUCoreWidget) :
  on_screen (Inner w) ->
  1 <= Z.of_nat (length (cores w)) <= screen_limit ->
  Y (Min (Inner w)) < Y (Max (Inner w)) ->
  exists cols rows,
    Draw_grid (Z.of_nat (length (cores w))) (Dx (Inner w)) (Dy (Inner w)) = Return (cols, rows) /\
    1 <= cols <= screen_limit /\
    1 <= rows <= Y (Max (Inner w)) - Y (Min (Inner w)) /\
    rows <= Z.of_nat (length (cores w)) /\
    Z.of_nat (length (cores w)) <= rows * cols /\
    Draw w =
      Return (omap (cell_at w cols rows) (seqZ 0 (Z.of_nat (length (cores w))))).
Proof.
  intros Hscreen Hn Hrows.
  destruct (Dx_on_screen _ Hscreen) as [HDx HDxb].
  destruct (Dy_on_screen _ Hscreen) as [HDy HDyb].
  destruct (Draw_grid_returns (Z.of_nat (length (cores w))) (Dx (Inner w)) (Dy (Inner w)))
    as (cols & rows & Hgrid & Hcols & Hr1 & Hr2 & Hr3 & Hroom); [lia ..|].
  exists cols, rows. split; [exact Hgrid|].
  split; [exact Hcols|]. split; [lia|]. split; [exact Hr3|]. split; [exact Hroom|].
  unfold Draw. rewrite bool_decide_eq_false_2 by lia.
  rewrite Hgrid. cbn [mbind Outcome_bind outcome_bind].
  rewrite Draw_columns_spec by lia. cbn [mbind Outcome_bind outcome_bind].
  rewrite HDx.
  rewrite (Draw_cores_spec _ (cell_at w cols rows)); [reflexivity|].
  intros i Hi. apply elem_of_seqZ in Hi.
  apply Draw_core_spec; try assumption; lia.
Qed.

(** ** Which cores the grid shows *)

(** A grid position is visited row by row and numbered column by column;
    within the rows of the grid, numbering and visiting order determine
    each other. *)
Lemma shown_core_position (cols rows i : Z) :
  1 <= cols -> 0 <= i -> i / cols < rows ->
  shown_core cols rows i / rows = i mod cols /\
  shown_core cols rows i mod rows = i / cols.
Proof.
  intros Hcols Hi Hrow. unfold shown_core.
  assert (0 <= i / cols) by (apply Z.div_pos; lia).
  pose proof (Z.mod_pos_bound i cols ltac:(lia)).
  split.
  - symmetry. apply (Z.div_unique_pos _ _ _ (i / cols)); lia.
  - symmetry. apply (Z.mod_unique_pos _ _ (i mod cols)); lia.
Qed.

Lemma shown_core_round (cols rows a : Z) :
  1 <= rows -> 0 <= a -> a / rows < cols ->
  let i := (a mod rows) * cols + a / rows in
  0 <= i /\ i mod cols = a / rows /\ i / cols = a mod rows /\ shown_core cols rows i = a.
Proof.
  intros Hrows Ha Hcol i.
  assert (0 <= a / rows) by (apply Z.div_pos; lia).
  pose proof (Z.mod_pos_bound a rows ltac:(lia)).
  assert (Hmod : i mod cols = a / rows).
  { symmetry. apply (Z.mod_unique_pos _ _ (a mod rows)); subst i; lia. }
  assert (Hdiv : i / cols = a mod rows).
  { symmetry. apply (Z.div_unique_pos _ _ _ (a / rows)); subst i; lia. }
  split; [subst i; nia|]. split; [exact Hmod|]. split; [exact Hdiv|].
  unfold shown_core. rewrite Hmod, Hdiv.
  pose proof (Z.div_mod a rows ltac:(lia)). lia.
Qed.

Section Shown.

Variable w : CPUCoreWidget.
Variables cols rows : Z.

Let totalCores := Z.of_nat (length (cores w)).

Hypothesis Hcols : 1 <= cols.
Hypothesis Hrows : 1 <= rows.
Hypothesis Hroom : totalCores <= rows * cols.

(** The cells of the closed form, core by core. *)
Lemma cell_at_Some (i : Z) (cell : Cell) :
  0 <= i ->
  cell_at w cols rows i = Some cell ->
  cell_core cell = shown_core cols rows i /\
  0 <= cell_core cell < totalCores /\ i / cols < rows /\
  cores w !! Z.to_nat (cell_core cell) = Some (cell_usage cell) /\
  cell_x cell = X (Min (Inner w)) +
                column_left (X (Max (Inner w)) - X (Min (Inner w))) cols (i mod cols) /\
  cell_y cell = Y (Min (Inner w)) + i / cols.
Proof.
  intros Hi. unfold cell_at. fold totalCores.
  destruct ((totalCores <=? shown_core cols rows i) || (rows <=? i / cols)) eqn:Hskip;
    [discriminate|].
  apply orb_false_iff in Hskip as [Hlt Hrow]. apply Z.leb_gt in Hlt, Hrow.
  destruct (cores w !! Z.to_nat (shown_core cols rows i)) as [usage|] eqn:Husage;
    [|discriminate].
  cbn. intros [= <-]. cbn.
  assert (0 <= shown_core cols rows i).
  { unfold shown_core.
    pose proof (Z.mod_pos_bound i cols ltac:(lia)).
    assert (0 <= i / cols) by (apply Z.div_pos; lia). nia. }
  repeat split; try lia; assumption.
Qed.

Lemma shown_cores_iff (a : Z) :
  a ∈ cell_core <$> omap (cell_at w cols rows) (seqZ 0 totalCores) <->
  0 <= a < totalCores /\ (a mod rows) * cols + a / rows < totalCores.
Proof.
  rewrite list_elem_of_fmap. split.
  - intros (cell & -> & Hcell).
    apply list_elem_of_omap in Hcell as (i & Hi & Hcell).
    apply elem_of_seqZ in Hi.
    destruct (cell_at_Some i cell ltac:(lia) Hcell) as (Hcore & Hrange & Hrow & _).
    split; [exact Hrange|].
    destruct (shown_core_position cols rows i Hcols ltac:(lia) Hrow) as [Hdiv Hmod].
    rewrite Hcore, Hdiv, Hmod.
    pose proof (Z.div_mod i cols ltac:(lia)). lia.
  - intros [Ha Hi].
    assert (Hcol : a / rows < cols) by (apply Z.div_lt_upper_bound; lia).
    destruct (shown_core_round cols rows a Hrows ltac:(lia) Hcol)
      as (Hi0 & Himod & Hidiv & Hshown).
    set (i := a mod rows * cols + a / rows) in *.
    pose proof (Z.mod_pos_bound a rows ltac:(lia)) as Hmod.
    destruct (cores w !! Z.to_nat a) as [usage|] eqn:Husage.
    2:{ apply lookup_ge_None in Husage. subst totalCores. lia. }
    eexists. split; [|apply list_elem_of_omap; exists i; split;
                        [apply elem_of_seqZ; lia|]].
    2:{ unfold cell_at. fold totalCores. rewrite Hshown, Hidiv.
        destruct (totalCores <=? a) eqn:H1; [apply Z.leb_le in H1; lia|].
        destruct (rows <=? a mod rows) eqn:H2; [apply Z.leb_le in H2; lia|].
        cbn [orb]. rewrite Husage. cbn. reflexivity. }
    reflexivity.
Qed.

Lemma shown_cores_NoDup :
  NoDup (cell_core <$> omap (cell_at w cols rows) (seqZ 0 totalCores)).
Proof.
  assert (Hgen : forall indices : list Z,
             NoDup indices -> (forall i, i ∈ indices -> 0 <= i) ->
             NoDup (cell_core <$> omap (cell_at w cols rows) indices) /\
             forall a, a ∈ cell_core <$> omap (cell_at w cols rows) indices ->
                       exists i, i ∈ indices /\ i / cols < rows /\ shown_core cols rows i = a).
  { induction indices as [|i rest IH]; intros Hnd Hpos.
    - cbn. split; [constructor|]. intros a Ha. inversion Ha.
    - apply NoDup_cons in Hnd as [Hnotin Hnd].
      destruct (IH Hnd ltac:(intros j Hj; apply Hpos; right; exact Hj)) as [IHnd IHin].
      cbn [omap list_omap].
      destruct (cell_at w cols rows i) as [cell|] eqn:Hcell.
      + destruct (cell_at_Some i cell ltac:(apply Hpos; left) Hcell)
          as (Hcore & _ & Hrow & _).
        cbn [fmap list_fmap]. split.
        * apply NoDup_cons. split; [|exact IHnd].
          intros Hdup. destruct (IHin _ Hdup) as (j & Hj & Hjrow & Hjcore).
          assert (i = j); [|subst; contradiction].
          destruct (shown_core_position cols rows i Hcols ltac:(apply Hpos; left) Hrow)
            as [Hd1 Hm1].
          destruct (shown_core_position cols rows j Hcols
                      ltac:(apply Hpos; right; exact Hj) Hjrow) as [Hd2 Hm2].
          rewrite Hjcore, Hcore in Hd2, Hm2.
          pose proof (Z.div_mod i cols ltac:(lia)).
          pose proof (Z.div_mod j cols ltac:(lia)). lia.
        * intros a Ha. apply elem_of_cons in Ha as [->|Ha].
          -- exists i. split; [left|]. split; [exact Hrow | symmetry; exact Hcore].
          -- destruct (IHin a Ha) as (j & Hj & Hrest). exists j. split; [right; exact Hj | exact Hrest].
      + split; [exact IHnd|]. intros a Ha.
        destruct (IHin a Ha) as (j & Hj & Hrest). exists j. split; [right; exact Hj | exact Hrest]. }
  apply Hgen; [apply NoDup_seqZ|]. intros i Hi. apply elem_of_seqZ in Hi. lia.
Qed.

End Shown.

(** Numbering the positions column by column while visiting them row by
    row reaches every core only on a grid of one row or with at most one
    position to spare. *)
Lemma grid_complete_iff (totalCores cols rows : Z) :
  1 <= cols -> 1 <= rows <= totalCores -> totalCores <= rows * cols ->
  (forall a, 0 <= a < totalCores -> (a mod rows) * cols + a / rows < totalCores) <->
  rows = 1 \/ rows * cols <= totalCores + 1.
Proof.
  intros Hcols Hrows Hroom. split.
  - intros Hall.
    destruct (decide (rows = 1)) as [|Hrows2]; [left; assumption|]. right.
    destruct (decide (rows * cols <= totalCores + 1)) as [|Hspare]; [assumption|].
    exfalso.
    set (d := rows * cols - totalCores).
    destruct (decide (d <= cols)) as [Hd|Hd].
    + pose (a := (cols - d) * rows + (rows - 1)).
      assert (Ha : 0 <= a < totalCores) by (subst a d; nia).
      assert (Hdiv : a / rows = cols - d).
      { symmetry. apply (Z.div_unique_pos _ _ _ (rows - 1)); subst a; lia. }
      assert (Hmod : a mod rows = rows - 1).
      { symmetry. apply (Z.mod_unique_pos _ _ (cols - d)); subst a; lia. }
      specialize (Hall a Ha). rewrite Hdiv, Hmod in Hall. subst d. nia.
    + assert (Ha : 0 <= rows - 1 < totalCores) by lia.
      specialize (Hall (rows - 1) Ha).
      rewrite Z.mod_small, Z.div_small in Hall by lia. subst d. nia.
  - intros Hfull a Ha.
    destruct Hfull as [->|Hspare].
    + rewrite Z.mod_1_r, Z.div_1_r. lia.
    + pose proof (Z.div_mod a rows ltac:(lia)) as Hdm.
      pose proof (Z.mod_pos_bound a rows ltac:(lia)) as Hmod.
      assert (Hc0 : 0 <= a / rows) by (apply Z.div_pos; lia).
      assert (Hc : a / rows < cols) by (apply Z.div_lt_upper_bound; lia).
      set (r := a mod rows) in *. set (c := a / rows) in *.
      destruct (decide (r <= rows - 2)) as [Hr|Hr]; [nia|].
      assert (r = rows - 1) by lia. subst r.
      destruct (decide (c <= cols - 2)) as [Hc2|Hc2]; [nia|].
      assert (c = cols - 1) by lia. nia.
Qed.

(** X19. A widget with cores to show whose inner rectangle has no row
    divides by zero when it is drawn. *)
Theorem Draw_without_rows_panics (w : CPUCoreWidget) :
  on_screen (Inner w) ->
  1 <= Z.of_nat (length (cores w)) <= screen_limit ->
  Y (Max (Inner w)) = Y (Min (Inner w)) ->
  Draw w = Panic "integer divide by zero".
Proof.
  intros Hscreen Hn Hflat.
  destruct (Dx_on_screen _ Hscreen) as [_ HDx].
  destruct (Dy_on_screen _ Hscreen) as [HDy _].
  unfold Draw. rewrite bool_decide_eq_false_2 by lia.
  rewrite HDy, Hflat, Z.sub_diag.
  rewrite Draw_grid_no_rows by assumption. reflexivity.
Qed.

(** X19 on five cores in a block that is all border. *)
Lemma Draw_without_rows_panics_witness :
  Draw (idle_widget 5 100 0) = Panic "integer divide by zero".
Proof.
  apply Draw_without_rows_panics.
  - unfold on_screen. rewrite screen_limit_value. cbn. lia.
  - rewrite screen_limit_value. cbn. lia.
  - reflexivity.
Defined.

(** X20. With at least one row of room [Draw] returns, and it shows core
    [a] exactly when the position that holds [a] in the column-by-column
    numbering, row [a mod rows] and column [a / rows], comes before
    position [totalCores] in the row-by-row order of the loop. *)
Theorem Draw_shows_core_iff (w : CPUCoreWidget) :
  on_screen (Inner w) ->
  1 <= Z.of_nat (length (cores w)) <= screen_limit ->
  Y (Min (Inner w)) < Y (Max (Inner w)) ->
  exists cols rows cells,
    Draw_grid (Z.of_nat (length (cores w))) (Dx (Inner w)) (Dy (Inner w)) = Return (cols, rows) /\
    Draw w = Return cells /\
    forall a,
      a ∈ cell_core <$> cells <->
      0 <= a < Z.of_nat (length (cores w)) /\
      (a mod rows) * cols + a / rows < Z.of_nat (length (cores w)).
Proof.
  intros Hscreen Hn Hrows.
  destruct (Draw_closed_form w Hscreen Hn Hrows)
    as (cols & rows & Hgrid & Hcols & Hr & Hrn & Hroom & Hdraw).
  exists cols, rows. eexists. split; [exact Hgrid|]. split; [exact Hdraw|].
  intros a. apply shown_cores_iff; lia.
Qed.

(** X20 on five cores in 100 columns and 10 rows: a grid of four columns
    and two rows. *)
Lemma Draw_shows_core_iff_witness :
  exists cells,
    Draw (idle_widget 5 100 10) = Return cells /\
    forall a, a ∈ cell_core <$> cells <-> 0 <= a < 5 /\ (a mod 2) * 4 + a / 2 < 5.
Proof.
  destruct (Draw_shows_core_iff (idle_widget 5 100 10)) as (cols & rows & cells & Hgrid & Hret & Hiff).
  - unfold on_screen. rewrite screen_limit_value. cbn. lia.
  - rewrite screen_limit_value. cbn. lia.
  - cbn. lia.
  - exists cells. split; [exact Hret|].
    vm_compute in Hgrid. injection Hgrid as <- <-. exact Hiff.
Defined.

(** X21. [Draw] shows every core exactly when its grid has a single row
    or at most one position more than there are cores; on any other grid
    some core is left out. *)
Theorem Draw_shows_every_core_iff (w : CPUCoreWidget) :
  on_screen (Inner w) ->
  1 <= Z.of_nat (length (cores w)) <= screen_limit ->
  Y (Min (Inner w)) < Y (Max (Inner w)) ->
  exists cols rows cells,
    Draw_grid (Z.of_nat (length (cores w))) (Dx (Inner w)) (Dy (Inner w)) = Return (cols, rows) /\
    Draw w = Return cells /\
    ((forall a, 0 <= a < Z.of_nat (length (cores w)) -> a ∈ cell_core <$> cells) <->
     rows = 1 \/ rows * cols <= Z.of_nat (length (cores w)) + 1).
Proof.
  intros Hscreen Hn Hrows.
  destruct (Draw_closed_form w Hscreen Hn Hrows)
    as (cols & rows & Hgrid & Hcols & Hr & Hrn & Hroom & Hdraw).
  exists cols, rows. eexists. split; [exact Hgrid|]. split; [exact Hdraw|].
  rewrite <- (grid_complete_iff _ cols rows) by lia.
  split.
  - intros Hall a Ha. apply (shown_cores_iff w cols rows ltac:(lia) ltac:(lia) Hroom a).
    apply Hall. exact Ha.
  - intros Hall a Ha. apply (shown_cores_iff w cols rows ltac:(lia) ltac:(lia) Hroom a).
    split; [exact Ha | apply Hall; exact Ha].
Qed.

(** X21 on the same widget: a grid of eight positions for five cores
    leaves a core out. *)
Lemma Draw_shows_every_core_iff_witness :
  exists cells,
    Draw (idle_widget 5 100 10) = Return cells /\
    ~ (forall a, 0 <= a < 5 -> a ∈ cell_core <$> cells).
Proof.
  destruct (Draw_shows_every_core_iff (idle_widget 5 100 10))
    as (cols & rows & cells & Hgrid & Hret & Hiff).
  - unfold on_screen. rewrite screen_limit_value. cbn. lia.
  - rewrite screen_limit_value. cbn. lia.
  - cbn. lia.
  - exists cells. split; [exact Hret|].
    vm_compute in Hgrid. injection Hgrid as <- <-.
    intros Hall. apply Hiff in Hall. cbn in Hall. lia.
Defined.

(** X22. What [Draw] shows is sound: no core is shown twice, every cell
    carries the usage of the core that its label names, and every label
    starts on a row of the inner rectangle, between its left and its right
    edge. *)
Theorem Draw_cells_sound (w : CPUCoreWidget) :
  on_screen (Inner w) ->
  1 <= Z.of_nat (length (cores w)) <= screen_limit ->
  Y (Min (Inner w)) < Y (Max (Inner w)) ->
  exists cells,
    Draw w = Return cells /\
    NoDup (cell_core <$> cells) /\
    forall cell, cell ∈ cells ->
      0 <= cell_core cell /\
      cores w !! Z.to_nat (cell_core cell) = Some (cell_usage cell) /\
      Y (Min (Inner w)) <= cell_y cell < Y (Max (Inner w)) /\
      X (Min (Inner w)) <= cell_x cell <= X (Max (Inner w)).
Proof.
  intros Hscreen Hn Hrows.
  destruct (Draw_closed_form w Hscreen Hn Hrows)
    as (cols & rows & Hgrid & Hcols & Hr & Hrn & Hroom & Hdraw).
  eexists. split; [exact Hdraw|].
  split; [apply shown_cores_NoDup; lia|].
  intros cell Hcell.
  apply list_elem_of_omap in Hcell as (i & Hi & Hcell).
  apply elem_of_seqZ in Hi.
  destruct (cell_at_Some w cols rows ltac:(lia) ltac:(lia) i cell ltac:(lia) Hcell)
    as (Hcore & Hrange & Hrow & Husage & Hx & Hy).
  destruct Hscreen as (HX & _ & HY & _).
  pose proof (Z.mod_pos_bound i cols ltac:(lia)) as Hcol.
  assert (0 <= i / cols) by (apply Z.div_pos; lia).
  pose proof (column_left_bounds (X (Max (Inner w)) - X (Min (Inner w))) cols (i mod cols)
                ltac:(lia) ltac:(lia) ltac:(lia)) as Hleft.
  repeat split; try assumption; lia.
Qed.

(** X22 on the same widget. *)
Lemma Draw_cells_sound_witness :
  exists cells,
    Draw (idle_widget 5 100 10) = Return cells /\ NoDup (cell_core <$> cells).
Proof.
  destruct (Draw_cells_sound (idle_widget 5 100 10)) as (cells & Hret & Hnd & _).
  - unfold on_screen. rewrite screen_limit_value. cbn. lia.
  - rewrite screen_limit_value. cbn. lia.
  - cbn. lia.
  - exists cells. split; assumption.
Defined.

(** X23. The columns tile the width: the first starts at the left edge,
    each starts where the one before ends, the last ends at the right
    edge, and no two widths differ by more than one cell. *)
Theorem Draw_columns_tile (availableWidth cols : Z) :
  0 <= availableWidth <= screen_limit -> 1 <= cols <= screen_limit ->
  exists colWidths colXs,
    Draw_columns availableWidth cols = Return (colWidths, colXs) /\
    Z.of_nat (length colWidths) = cols /\ Z.of_nat (length colXs) = cols /\
    colXs !! 0%nat = Some 0 /\
    forall (c : nat) (x width : Z),
      colXs !! c = Some x -> colWidths !! c = Some width ->
      availableWidth / cols <= width <= availableWidth / cols + 1 /\
      (if bool_decide (Z.of_nat (S c) = cols) then x + width = availableWidth
       else colXs !! S c = Some (x + width)).
Proof.
  intros Hw Hcols. rewrite Draw_columns_spec by assumption.
  do 2 eexists. split; [reflexivity|].
  rewrite !length_fmap, !length_seqZ.
  split; [lia|]. split; [lia|]. split.
  - rewrite list_lookup_fmap, (proj2 (lookup_seqZ 0 cols 0 0)) by lia.
    cbn. unfold column_left.
    pose proof (Z.mod_pos_bound availableWidth cols ltac:(lia)). f_equal. lia.
  - intros c x width Hx Hwidth.
    rewrite list_lookup_fmap in Hx, Hwidth.
    destruct (seqZ 0 cols !! c) as [c'|] eqn:Hc; [|discriminate].
    apply lookup_seqZ in Hc as [-> Hc].
    cbn in Hx, Hwidth. injection Hx as <-. injection Hwidth as <-.
    rewrite Z.add_0_l.
    split; [pose proof (column_width_bounds availableWidth cols (Z.of_nat c)
                          ltac:(lia) ltac:(lia)); lia|].
    rewrite column_left_next by lia.
    destruct (bool_decide (Z.of_nat (S c) = cols)) eqn:Hlast.
    + apply bool_decide_eq_true in Hlast.
      replace (Z.of_nat c + 1) with cols by lia.
      apply column_left_last; lia.
    + apply bool_decide_eq_false in Hlast.
      rewrite list_lookup_fmap, (proj2 (lookup_seqZ 0 cols (S c) (Z.of_nat (S c)))) by lia.
      cbn. do 2 f_equal. lia.
Qed.

(** X23 on 100 cells in three columns. *)
Lemma Draw_columns_tile_witness :
  exists colWidths colXs,
    Draw_columns 100 3 = Return (colWidths, colXs) /\ Z.of_nat (length colWidths) = 3.
Proof.
  destruct (Draw_columns_tile 100 3) as (ws & xs & Hret & Hlen & _).
  - rewrite screen_limit_value. lia.
  - rewrite screen_limit_value. lia.
  - exists ws, xs. split; assumption.
Defined.

(** X24. [max] panics without arguments; otherwise it returns one of its
    arguments, and none of them is larger. *)
Theorem max_largest (nums : list Z) :
  match nums with
  | [] => max nums = Panic "index out of range"
  | _ :: _ =>
      exists maxVal,
        max nums = Return maxVal /\ maxVal ∈ nums /\ forall num, num ∈ nums -> num <= maxVal
  end.
Proof.
  destruct nums as [|n0 rest]; [reflexivity|].
  unfold max, index. change (Z.to_nat 0) with 0%nat.
  cbn [Z.ltb Z.compare lookup list_lookup mbind Outcome_bind outcome_bind].
  change (drop 1 (n0 :: rest)) with rest.
  eexists. split; [reflexivity|].
  revert n0. induction rest as [|n1 rest IH]; intros n0.
  - cbn. split; [left|]. intros num Hnum. apply list_elem_of_singleton in Hnum. lia.
  - cbn [foldl].
    destruct (IH (if n0 <? n1 then n1 else n0)) as [Hin Hmax].
    split.
    + apply elem_of_cons in Hin as [Heq|Hin].
      * rewrite Heq. destruct (n0 <? n1); [right; left | left].
      * right. right. exact Hin.
    + intros num Hnum.
      assert (Hfirst : (if n0 <? n1 then n1 else n0) <=
                       foldl (fun maxVal num => if maxVal <? num then num else maxVal)
                             (if n0 <? n1 then n1 else n0) rest) by (apply Hmax; left).
      apply elem_of_cons in Hnum as [->|Hnum].
      * destruct (n0 <? n1) eqn:Hlt; [apply Z.ltb_lt in Hlt|]; lia.
      * apply elem_of_cons in Hnum as [->|Hnum].
        -- destruct (n0 <? n1) eqn:Hlt; [|apply Z.ltb_ge in Hlt]; lia.
        -- apply Hmax. right. exact Hnum.
Qed.

(** ** The command line of [main] *)

Section MainFlags.

Variable Atoi : string -> Result Z.

(** What a run of the loop over the arguments that comes to its end has
    taken from them. *)
Lemma parse_args_returns (n : nat) :
  forall (args : list string) (fl fl' : Flags),
    (length args <= n)%nat ->
    parse_args Atoi args fl = Return fl' ->
    (prometheusPort fl' = prometheusPort fl \/
     exists (k : nat) (flag : string),
       args !! k = Some flag /\ is_port_flag flag /\
       args !! S k = Some (prometheusPort fl')) /\
    ((setInterval fl' = setInterval fl /\ interval fl' = interval fl) \/
     exists (k : nat) (flag value : string),
       args !! k = Some flag /\ is_interval_flag flag /\
       args !! S k = Some value /\ Atoi value = Ok (interval fl') /\
       setInterval fl' = true).
Proof.
  induction n as [|n IH]; intros args fl fl' Hlen.
  - destruct args; [|cbn in Hlen; lia]. cbn. intros [= <-].
    split; left; [reflexivity | split; reflexivity].
  - destruct args as [|arg rest].
    { cbn. intros [= <-]. split; left; [reflexivity | split; reflexivity]. }
    cbn [length] in Hlen. cbn [parse_args].
    destruct ((arg =? "--help")%string || (arg =? "-h")%string); [discriminate|].
    destruct ((arg =? "--version")%string || (arg =? "-v")%string); [discriminate|].
    destruct ((arg =? "--prometheus")%string || (arg =? "-p")%string) eqn:Hport.
    { destruct rest as [|value rest']; [discriminate|]. cbn [length] in Hlen.
      intros Hrun. apply IH in Hrun as [Hp Hi]; [|lia]. cbn in Hp, Hi. split.
      - right. destruct Hp as [Hp|(k & flag & Hk & Hflag & Hval)].
        + exists 0%nat, arg. rewrite Hp. repeat split.
          apply orb_true_iff in Hport as [H|H]; apply String.eqb_eq in H; [left | right]; exact H.
        + exists (S (S k)), flag. repeat split; assumption.
      - destruct Hi as [Hi|(k & flag & value' & Hk & Hflag & Hval & Hrest)]; [left; exact Hi|].
        right. exists (S (S k)), flag, value'. repeat split; tauto. }
    destruct ((arg =? "--interval")%string || (arg =? "-i")%string) eqn:Hint.
    { destruct rest as [|value rest']; [discriminate|]. cbn [length] in Hlen.
      destruct (Atoi value) as [m|msg] eqn:Hatoi; [|discriminate].
      intros Hrun. apply IH in Hrun as [Hp Hi]; [|lia]. cbn in Hp, Hi. split.
      - destruct Hp as [Hp|(k & flag & Hk & Hflag & Hval)]; [left; exact Hp|].
        right. exists (S (S k)), flag. repeat split; assumption.
      - right. destruct Hi as [[Hset Hi]|(k & flag & value' & Hk & Hflag & Hval & Hrest)].
        + exists 0%nat, arg, value. rewrite Hi. repeat split; try assumption.
          apply orb_true_iff in Hint as [H|H]; apply String.eqb_eq in H; [left | right]; exact H.
        + exists (S (S k)), flag, value'. repeat split; tauto. }
    intros Hrun. apply IH in Hrun as [Hp Hi]; [|lia]. split.
    + destruct Hp as [Hp|(k & flag & Hk & Hflag & Hval)]; [left; exact Hp|].
      right. exists (S k), flag. repeat split; assumption.
    + destruct Hi as [Hi|(k & flag & value' & Hk & Hflag & Hval & Hrest)]; [left; exact Hi|].
      right. exists (S k), flag, value'. repeat split; tauto.
Qed.

(** X25. [main] goes on only as root and only with a port that is not
    empty and came as the argument after one that is exactly
    [--prometheus] or [-p]: the form [--prometheus=9090] of its own usage
    text does not set the port.  An interval it has taken is the integer
    that [strconv.Atoi] reads from the argument after [--interval] or
    [-i]. *)
Theorem main_requires_port_argument (Args : list string) (euid : Z) (fl : Flags) :
  main_flags Atoi Args euid = Return fl ->
  euid = 0 /\ prometheusPort fl <> ""%string /\
  (exists (k : nat) (flag : string),
      Args !! S k = Some flag /\ is_port_flag flag /\
      Args !! S (S k) = Some (prometheusPort fl)) /\
  (if setInterval fl
   then exists (k : nat) (flag value : string),
          Args !! S k = Some flag /\ is_interval_flag flag /\
          Args !! S (S k) = Some value /\ Atoi value = Ok (interval fl)
   else interval fl = 0).
Proof.
  unfold main_flags.
  destruct (parse_args Atoi (drop 1 Args) initial_flags) as [fl'| |] eqn:Hparse;
    try discriminate.
  cbn [mbind Outcome_bind outcome_bind].
  destruct (prometheusPort fl' =? "")%string eqn:Hempty; [discriminate|].
  destruct (euid =? 0) eqn:Heuid; [|discriminate]. cbn [negb].
  intros [= <-]. apply Z.eqb_eq in Heuid. apply String.eqb_neq in Hempty.
  apply (parse_args_returns (length (drop 1 Args))) in Hparse as [Hp Hi]; [|lia].
  cbn in Hp, Hi.
  split; [exact Heuid|]. split; [exact Hempty|]. split.
  - destruct Hp as [Hp|(k & flag & Hk & Hflag & Hval)]; [congruence|].
    rewrite !lookup_drop in Hk, Hval. exists k, flag. repeat split; assumption.
  - destruct Hi as [[-> ->]|(k & flag & value & Hk & Hflag & Hval & Hatoi & ->)];
      [reflexivity|].
    rewrite !lookup_drop in Hk, Hval. exists k, flag, value. repeat split; assumption.
Qed.

End MainFlags.

(** X25 on a command line with [-p 9090], run as root. *)
Lemma main_requires_port_argument_witness :
  0 = 0 /\ prometheusPort port_flags <> ""%string.
Proof.
  destruct (main_requires_port_argument (fun _ => Err "invalid syntax") port_args 0 port_flags
              ltac:(reflexivity)) as (Heuid & Hport & _).
  split; assumption.
Defined.

(** ** The core classes of [updateCPUPrometheus] against the resolver *)

Lemma range_indices_spec (hi len : Z) (fuel : nat) :
  hi <= 2 * maxSliceCap ->
  forall (i : Z) (visited : list Z),
    0 <= i -> fuel = Z.to_nat (hi - i) ->
    range_indices fuel i hi len visited =
      Return (visited ++ seqZ i (Z.min (hi - i) (len - i))).
Proof.
  rewrite maxSliceCap_value. intros Hhi.
  induction fuel as [|fuel IH]; intros i visited Hi Hfuel.
  - cbn [range_indices]. rewrite seqZ_nil by lia. rewrite app_nil_r. reflexivity.
  - cbn [range_indices].
    destruct (i <? hi) eqn:Hlt; [|apply Z.ltb_ge in Hlt; lia]. cbn [andb].
    destruct (i <? len) eqn:Hlen.
    + apply Z.ltb_lt in Hlen.
      destruct (i <? 0) eqn:Hneg; [apply Z.ltb_lt in Hneg; lia|].
      assert (Hinc : int_add i 1 = i + 1).
      { apply wrap_small. unfold int_min, int_max. lia. }
      rewrite Hinc, IH by lia.
      rewrite <- app_assoc. do 2 f_equal.
      rewrite (seqZ_cons i) by lia. cbn [app]. f_equal.
      f_equal; lia.
    + apply Z.ltb_ge in Hlen. rewrite seqZ_nil by lia. rewrite app_nil_r. reflexivity.
Qed.

(** The updater in closed form: the first [eCoreCount] measured cores are
    efficiency cores, the [pCoreCount] after them performance cores. *)
Lemma prometheus_classes_spec (eCoreCount pCoreCount len : Z) :
  0 <= eCoreCount <= maxSliceCap -> 0 <= pCoreCount <= maxSliceCap ->
  prometheus_classes eCoreCount pCoreCount len =
    Return (counted_indices (seqZ eCoreCount pCoreCount) len,
            counted_indices (seqZ 0 eCoreCount) len).
Proof.
  intros HE HP. pose proof maxSliceCap_value as Hcap.
  unfold prometheus_classes. rewrite !counted_indices_seqZ.
  assert (He : (if 0 <? eCoreCount
                then range_indices (Z.to_nat eCoreCount) 0 eCoreCount len []
                else Return []) = Return (seqZ 0 (Z.min eCoreCount (len - 0)))).
  { destruct (0 <? eCoreCount) eqn:Hpos.
    - rewrite (range_indices_spec eCoreCount len _ ltac:(lia) 0 []) by (try lia; f_equal; lia).
      cbn [app]. do 2 f_equal. lia.
    - apply Z.ltb_ge in Hpos. rewrite seqZ_nil by lia. reflexivity. }
  rewrite He. cbn [mbind Outcome_bind outcome_bind].
  rewrite int_add_small by lia.
  assert (Hp : (if 0 <? pCoreCount
                then range_indices (Z.to_nat pCoreCount) eCoreCount
                       (eCoreCount + pCoreCount) len []
                else Return []) =
               Return (seqZ eCoreCount (Z.min pCoreCount (len - eCoreCount)))).
  { destruct (0 <? pCoreCount) eqn:Hpos.
    - rewrite (range_indices_spec (eCoreCount + pCoreCount) len _ ltac:(lia) eCoreCount [])
        by (try lia; f_equal; lia).
      cbn [app]. do 3 f_equal. lia.
    - apply Z.ltb_ge in Hpos. rewrite seqZ_nil by lia. reflexivity. }
  rewrite Hp. reflexivity.
Qed.

(** X26. On the M4 Pro layout, where the efficiency cores come first,
    [updateCPUPrometheus] counts the same cores in each class as the
    consumer of the resolver in [runHeadless]. *)
Theorem prometheus_matches_efficiency_first (sysInfo : SystemInfo) (topology : CoreTopology)
    (len : Z) :
  layout_of sysInfo = M4Pro ->
  GetCoreTopology sysInfo = Return topology ->
  prometheus_classes (ECoreCount sysInfo) (PCoreCount sysInfo) len =
    Return (resolver_classes topology len).
Proof.
  intros Hlayout Hret.
  destruct (GetCoreTopology_closed_form sysInfo topology Hret) as (HP & HE & Hform).
  rewrite Hlayout in Hform. destruct Hform as [HPs HEs].
  rewrite prometheus_classes_spec by assumption.
  unfold resolver_classes. rewrite HPs, HEs. reflexivity.
Qed.

(** X26 on the M4 Pro (10P + 4E). *)
Lemma prometheus_matches_efficiency_first_witness :
  exists topology,
    GetCoreTopology m4_pro = Return topology /\
    prometheus_classes 4 10 14 = Return (resolver_classes topology 14).
Proof.
  eexists. split; [reflexivity|].
  apply (prometheus_matches_efficiency_first m4_pro); reflexivity.
Defined.

(** X27. On a chip of the standard layout with cores of both classes,
    [updateCPUPrometheus] and the resolver class the cores the other way
    round from the first core on: the updater counts core 0 as an
    efficiency core, the resolver as a performance core. *)
Theorem prometheus_disagrees_on_standard (sysInfo : SystemInfo) (topology : CoreTopology)
    (len : Z) :
  layout_of sysInfo = Standard ->
  GetCoreTopology sysInfo = Return topology ->
  0 < PCoreCount sysInfo -> 0 < ECoreCount sysInfo -> 0 < len ->
  exists classes,
    prometheus_classes (ECoreCount sysInfo) (PCoreCount sysInfo) len = Return classes /\
    class_of classes 0 = Some Efficiency /\
    class_of (resolver_classes topology len) 0 = Some Performance.
Proof.
  intros Hlayout Hret HP0 HE0 Hlen.
  destruct (GetCoreTopology_closed_form sysInfo topology Hret) as (HP & HE & Hform).
  rewrite Hlayout in Hform. destruct Hform as [HPs HEs].
  rewrite prometheus_classes_spec by assumption.
  eexists. split; [reflexivity|].
  unfold class_of, resolver_classes, counted_indices. cbn [fst snd]. rewrite HPs.
  split.
  - rewrite bool_decide_eq_false_2.
    + rewrite bool_decide_eq_true_2; [reflexivity|].
      apply list_elem_of_filter. split; [lia|]. apply elem_of_seqZ. lia.
    + rewrite list_elem_of_filter, elem_of_seqZ. lia.
  - rewrite bool_decide_eq_true_2; [reflexivity|].
    apply list_elem_of_filter. split; [lia|]. apply elem_of_seqZ. lia.
Qed.

(** X27 on the M1 Max (8P + 2E). *)
Lemma prometheus_disagrees_on_standard_witness :
  exists topology classes,
    GetCoreTopology m1_max = Return topology /\
    prometheus_classes 2 8 10 = Return classes /\
    class_of classes 0 = Some Efficiency /\
    class_of (resolver_classes topology 10) 0 = Some Performance.
Proof.
  eexists.
  destruct (prometheus_disagrees_on_standard m1_max _ 10 eq_refl eq_refl)
    as (classes & Hret & Hclasses); [cbn; lia ..|].
  exists classes. split; [reflexivity|]. split; [exact Hret | exact Hclasses].
Defined.

(** ** Reading the output of sysctl *)

Lemma Index_nil (sep : list byte) : sep <> [] -> Index [] sep = -1.
Proof.
  intros Hne. apply Index_absent. intros j Hocc. unfold occurs_at in Hocc.
  rewrite drop_nil, take_nil in Hocc. congruence.
Qed.

Lemma Split_loop_nonempty (fuel : nat) (s sep : list byte) :
  exists piece pieces, Split_loop fuel s sep = piece :: pieces.
Proof.
  destruct fuel as [|fuel]; cbn [Split_loop]; [do 2 eexists; reflexivity|].
  destruct (Index s sep <? 0); do 2 eexists; reflexivity.
Qed.

(** Without the separator there is one piece, the string itself; with it
    there is a second piece. *)
Lemma Split_without (s sep : list byte) : Index s sep = -1 -> Split s sep = [s].
Proof.
  intros Habs. unfold Split. destruct (length s); cbn [Split_loop]; [reflexivity|].
  rewrite Habs. reflexivity.
Qed.

Lemma Split_second (s sep : list byte) :
  sep <> [] -> 0 <= Index s sep -> exists piece, Split s sep !! 1%nat = Some piece.
Proof.
  intros Hne Hfound. unfold Split. destruct s as [|b s].
  - rewrite Index_nil in Hfound by assumption. lia.
  - cbn [length Split_loop].
    destruct (Index (b :: s) sep <? 0) eqn:Hneg; [apply Z.ltb_lt in Hneg; lia|].
    destruct (Split_loop_nonempty (length s) (slice_from (b :: s) (Index (b :: s) sep + len sep)) sep)
      as (piece & pieces & ->).
    exists piece. reflexivity.
Qed.

Section ReadFields.

Context {V : Type}.
Variable value_of : list byte -> V.
Variable dataFields : list string.

Let colon_ne : bytes ":" <> [] := ltac:(discriminate).

Lemma read_field_mentions (line piece : list byte) (dict : gmap string V) (f : string) :
  mentions f line -> Split line (bytes ":") !! 1%nat = Some piece ->
  read_field value_of line dict f = Return (<[f := value_of piece]> dict).
Proof.
  intros Hm Hpiece. unfold read_field, mentions in *.
  destruct (0 <=? Index line (bytes f)) eqn:Hf; [|apply Z.leb_gt in Hf; lia].
  unfold index. change (1 <? 0) with false. change (Z.to_nat 1) with 1%nat.
  cbv beta iota. rewrite Hpiece. reflexivity.
Qed.

Lemma read_field_skips (line : list byte) (dict : gmap string V) (f : string) :
  ~ mentions f line -> read_field value_of line dict f = Return dict.
Proof.
  intros Hm. unfold read_field, mentions in *.
  destruct (0 <=? Index line (bytes f)) eqn:Hf; [apply Z.leb_le in Hf; lia|]. reflexivity.
Qed.

Lemma read_field_panics (line : list byte) (dict : gmap string V) (f : string) :
  mentions f line -> Index line (bytes ":") = -1 ->
  read_field value_of line dict f = Panic "index out of range".
Proof.
  intros Hm Habs. unfold read_field, mentions in *.
  destruct (0 <=? Index line (bytes f)) eqn:Hf; [|apply Z.leb_gt in Hf; lia].
  rewrite Split_without by assumption. reflexivity.
Qed.

(** One line against a list of names. *)
Lemma read_line_returns (line : list byte) (fields : list string) :
  (forall field, field ∈ fields -> mentions field line -> has_colon line) ->
  forall dict, exists dict',
    for_each (read_field value_of line) fields dict = Return dict' /\
    forall field,
      dict' !! field =
        if decide (field ∈ fields /\ mentions field line)
        then value_of <$> (Split line (bytes ":") !! 1%nat)
        else dict !! field.
Proof.
  induction fields as [|f fields IH]; intros Hcolon dict.
  - exists dict. split; [reflexivity|]. intros field.
    rewrite decide_False; [reflexivity|]. intros [Hin _]. inversion Hin.
  - cbn [for_each].
    destruct (decide (mentions f line)) as [Hf|Hf].
    + destruct (Split_second line (bytes ":") colon_ne (Hcolon f ltac:(left) Hf))
        as [piece Hpiece].
      rewrite (read_field_mentions line piece dict f Hf Hpiece).
      cbn [mbind Outcome_bind outcome_bind].
      destruct (IH ltac:(intros g Hg; apply Hcolon; right; exact Hg)
                   (<[f := value_of piece]> dict)) as (dict' & Hrun & Hdict).
      exists dict'. split; [exact Hrun|]. intros field. rewrite Hdict.
      destruct (decide (field ∈ fields /\ mentions field line)) as [[Hin Hm]|Hno].
      * rewrite decide_True; [reflexivity|]. split; [right; exact Hin | exact Hm].
      * destruct (decide (field = f)) as [->|Hne].
        -- rewrite lookup_insert_eq, decide_True; [|split; [left | exact Hf]].
           rewrite Hpiece. reflexivity.
        -- rewrite lookup_insert_ne by congruence.
           rewrite decide_False; [reflexivity|].
           intros [Hin Hm]. apply elem_of_cons in Hin as [?|Hin]; [congruence|].
           apply Hno. split; assumption.
    + rewrite (read_field_skips line dict f Hf). cbn [mbind Outcome_bind outcome_bind].
      destruct (IH ltac:(intros g Hg; apply Hcolon; right; exact Hg) dict)
        as (dict' & Hrun & Hdict).
      exists dict'. split; [exact Hrun|]. intros field. rewrite Hdict.
      destruct (decide (field ∈ fields /\ mentions field line)) as [[Hin Hm]|Hno].
      * rewrite decide_True; [reflexivity|]. split; [right; exact Hin | exact Hm].
      * rewrite decide_False; [reflexivity|].
        intros [Hin Hm]. apply elem_of_cons in Hin as [->|Hin].
        -- contradiction.
        -- apply Hno. split; assumption.
Qed.

Lemma read_line_outcome (line : list byte) (fields : list string) :
  forall dict,
    (exists dict', for_each (read_field value_of line) fields dict = Return dict') \/
    for_each (read_field value_of line) fields dict = Panic "index out of range".
Proof.
  induction fields as [|f fields IH]; intros dict; [left; eexists; reflexivity|].
  cbn [for_each].
  destruct (decide (mentions f line)) as [Hf|Hf].
  - destruct (Index_cases line (bytes ":")) as [Habs|[i Hi]].
    + rewrite (read_field_panics line dict f Hf Habs). right. reflexivity.
    + destruct (Split_second line (bytes ":") colon_ne ltac:(lia)) as [piece Hpiece].
      rewrite (read_field_mentions line piece dict f Hf Hpiece).
      cbn [mbind Outcome_bind outcome_bind]. apply IH.
  - rewrite (read_field_skips line dict f Hf).
    cbn [mbind Outcome_bind outcome_bind]. apply IH.
Qed.

Lemma read_line_panics (line : list byte) (fields : list string) (field : string) :
  field ∈ fields -> mentions field line -> ~ has_colon line ->
  forall dict,
    for_each (read_field value_of line) fields dict = Panic "index out of range".
Proof.
  intros Hin Hm Hcolon.
  assert (Habs : Index line (bytes ":") = -1).
  { destruct (Index_cases line (bytes ":")) as [?|[i Hi]]; [assumption|].
    exfalso. apply Hcolon. unfold has_colon. lia. }
  induction fields as [|f fields IH]; intros dict; [inversion Hin|].
  cbn [for_each].
  destruct (decide (mentions f line)) as [Hf|Hf].
  - rewrite (read_field_panics line dict f Hf Habs). reflexivity.
  - rewrite (read_field_skips line dict f Hf). cbn [mbind Outcome_bind outcome_bind].
    apply IH. apply elem_of_cons in Hin as [->|Hin]; [contradiction | exact Hin].
Qed.

(** All lines: the value kept for a name is the one of the last line that
    holds the name. *)
Lemma read_lines_returns (lines : list (list byte)) :
  (forall line field,
      line ∈ lines -> field ∈ dataFields -> mentions field line -> has_colon line) ->
  forall dict, exists dict',
    for_each (fun dict line => for_each (read_field value_of line) dataFields dict)
             lines dict = Return dict' /\
    forall field,
      dict' !! field =
        if decide (field ∈ dataFields)
        then match last (filter (mentions field) lines) with
             | Some line => value_of <$> (Split line (bytes ":") !! 1%nat)
             | None => dict !! field
             end
        else dict !! field.
Proof.
  induction lines as [|line lines IH]; intros Hcolon dict.
  - exists dict. split; [reflexivity|]. intros field.
    destruct (decide (field ∈ dataFields)); reflexivity.
  - cbn [for_each].
    destruct (read_line_returns line dataFields
                ltac:(intros f Hf; apply Hcolon; [left | exact Hf]) dict)
      as (dict1 & Hline & Hdict1).
    rewrite Hline. cbn [mbind Outcome_bind outcome_bind].
    destruct (IH ltac:(intros l f Hl; apply Hcolon; right; exact Hl) dict1)
      as (dict' & Hrest & Hdict').
    exists dict'. split; [exact Hrest|]. intros field.
    rewrite Hdict', Hdict1.
    destruct (decide (field ∈ dataFields)) as [Hin|Hout].
    + destruct (decide (mentions field line)) as [Hm|Hm].
      * rewrite filter_cons_True by assumption. rewrite last_cons.
        rewrite decide_True by (split; assumption).
        destruct (last (filter (mentions field) lines)); reflexivity.
      * rewrite filter_cons_False by assumption.
        rewrite decide_False by tauto. reflexivity.
    + rewrite decide_False by tauto. reflexivity.
Qed.

Lemma read_lines_outcome (lines : list (list byte)) :
  forall dict,
    (exists dict',
        for_each (fun dict line => for_each (read_field value_of line) dataFields dict)
                 lines dict = Return dict') \/
    for_each (fun dict line => for_each (read_field value_of line) dataFields dict)
             lines dict = Panic "index out of range".
Proof.
  induction lines as [|line lines IH]; intros dict; [left; eexists; reflexivity|].
  cbn [for_each].
  destruct (read_line_outcome line dataFields dict) as [[dict1 ->]| ->];
    [|right; reflexivity].
  cbn [mbind Outcome_bind outcome_bind]. apply IH.
Qed.

Lemma read_lines_panics (lines : list (list byte)) (line : list byte) (field : string) :
  line ∈ lines -> field ∈ dataFields -> mentions field line -> ~ has_colon line ->
  forall dict,
    for_each (fun dict line => for_each (read_field value_of line) dataFields dict)
             lines dict = Panic "index out of range".
Proof.
  intros Hline Hfield Hm Hcolon.
  induction lines as [|l lines IH]; intros dict; [inversion Hline|].
  cbn [for_each].
  destruct (read_line_outcome l dataFields dict) as [[dict1 Hl]|Hl]; rewrite Hl;
    [|reflexivity].
  cbn [mbind Outcome_bind outcome_bind].
  apply elem_of_cons in Hline as [->|Hline]; [|apply IH; exact Hline].
  rewrite (read_line_panics l dataFields field Hfield Hm Hcolon) in Hl. discriminate.
Qed.

End ReadFields.

Section SysctlOutput.

Variable TrimSpace : list byte -> list byte.
Variable Atoi : list byte -> Z * option string.

(** X28. When every line of the output that holds one of the two names
    also holds a colon, [getCoreCounts] returns, with no other keys than
    the two names, and for each of them the integer that [strconv.Atoi]
    makes of the second colon-separated piece of the last line that holds
    the name; a name that no line holds gets no entry. *)
Theorem getCoreCounts_last_mention (coresInfo : list byte) :
  (forall line field,
      line ∈ Split coresInfo (bytes nl) ->
      field ∈ ["hw.perflevel0.logicalcpu"; "hw.perflevel1.logicalcpu"]%string ->
      mentions field line -> has_colon line) ->
  exists coresInfoDict,
    getCoreCounts TrimSpace Atoi (Ok coresInfo) = Return coresInfoDict /\
    forall field,
      coresInfoDict !! field =
        if decide (field ∈ ["hw.perflevel0.logicalcpu"; "hw.perflevel1.logicalcpu"]%string)
        then last_mention (fun piece => fst (Atoi (TrimSpace piece))) field
               (Split coresInfo (bytes nl))
        else None.
Proof.
  intros Hcolon. unfold getCoreCounts, read_fields.
  destruct (read_lines_returns (fun piece => fst (Atoi (TrimSpace piece))) _ _ Hcolon ∅)
    as (dict & Hrun & Hdict).
  exists dict. split; [exact Hrun|]. intros field. rewrite Hdict.
  unfold last_mention.
  destruct (decide (field ∈ _)); [|apply lookup_empty].
  destruct (last (filter (mentions field) (Split coresInfo (bytes nl)))); [reflexivity|].
  apply lookup_empty.
Qed.

(** X29. [getCPUInfo] panics exactly when some line of the output holds
    one of its two names and no colon; the failure of the command is the
    only way for it to exit the process. *)
Theorem getCPUInfo_panics_iff (cpuInfo : list byte) :
  ((exists msg, getCPUInfo TrimSpace (Ok cpuInfo) = Panic msg) <->
   (exists line field,
       line ∈ Split cpuInfo (bytes nl) /\
       field ∈ ["machdep.cpu.brand_string"; "machdep.cpu.core_count"]%string /\
       mentions field line /\ ~ has_colon line)) /\
  (forall code msg, getCPUInfo TrimSpace (Ok cpuInfo) <> Exit code msg).
Proof.
  unfold getCPUInfo, read_fields. split; [split|].
  - intros [msg Hpanic].
    destruct (decide (Forall (fun line =>
                Forall (fun field => mentions field line -> has_colon line)
                       ["machdep.cpu.brand_string"; "machdep.cpu.core_count"]%string)
                (Split cpuInfo (bytes nl)))) as [Hall|Hsome].
    + exfalso.
      destruct (read_lines_returns TrimSpace
                  ["machdep.cpu.brand_string"; "machdep.cpu.core_count"]%string
                  (Split cpuInfo (bytes nl))
                  ltac:(intros line field Hl Hf;
                        rewrite Forall_forall in Hall; specialize (Hall line Hl);
                        rewrite Forall_forall in Hall; exact (Hall field Hf)) ∅)
        as (dict & Hrun & _).
      rewrite Hrun in Hpanic. discriminate.
    + apply not_Forall_Exists in Hsome; [|apply _].
      apply Exists_exists in Hsome as (line & Hline & Hbad).
      apply not_Forall_Exists in Hbad; [|apply _].
      apply Exists_exists in Hbad as (field & Hfield & Hbad).
      exists line, field. split; [exact Hline|]. split; [exact Hfield|].
      cbv beta delta [compose] in Hbad. unfold mentions, has_colon in *. split; lia.
  - intros (line & field & Hline & Hfield & Hm & Hcolon).
    exists "index out of range"%string.
    apply (read_lines_panics TrimSpace _ _ line field Hline Hfield Hm Hcolon).
  - intros code msg.
    destruct (read_lines_outcome TrimSpace
                ["machdep.cpu.brand_string"; "machdep.cpu.core_count"]%string
                (Split cpuInfo (bytes nl)) ∅) as [[dict ->]| ->]; discriminate.
Qed.

End SysctlOutput.

(** X28 on the output for an M2 Ultra, with the identity for
    [strings.TrimSpace] and the length of its argument for
    [strconv.Atoi]. *)
Lemma getCoreCounts_last_mention_witness :
  exists coresInfoDict,
    getCoreCounts (fun s => s) (fun s => (len s, None)) (Ok sysctl_counts) =
      Return coresInfoDict.
Proof.
  destruct (getCoreCounts_last_mention (fun s => s) (fun s => (len s, None)) sysctl_counts)
    as (dict & Hrun & _).
  - intros line field Hline Hfield Hm.
    assert (Hlines : Split sysctl_counts (bytes nl) =
                     [bytes "hw.perflevel0.logicalcpu: 16";
                      bytes "hw.perflevel1.logicalcpu: 8"; []])
      by (vm_compute; reflexivity).
    rewrite Hlines in Hline.
    apply elem_of_cons in Hline as [->|Hline]; [vm_compute; discriminate|].
    apply elem_of_cons in Hline as [->|Hline]; [vm_compute; discriminate|].
    apply list_elem_of_singleton in Hline as ->.
    exfalso. apply elem_of_cons in Hfield as [->|Hfield]; [apply Hm; reflexivity|].
    apply list_elem_of_singleton in Hfield as ->. apply Hm. reflexivity.
  - exists dict. exact Hrun.
Defined.
